(** * Royalty allocation over a progressive rate scale

    A shallow embedding of [royalties.py]: the tiered allocator
    [RoyaltyStack], the validation of progressions done by [Right] and the
    reading of a progression from a string, the report lines built from
    sales statements, the running advance of an [Agreement] and the
    report it prints.

    Python integers are [Z].  The dictionaries [_cursor] and [_limits] are
    keyed by rate, as in the source, and are finite maps [gmap Z Z]; a list
    index that is out of range and a missing key raise, as they do in
    Python.  A generator is run to completion: its run records what it
    yielded, the state it was suspended in at each [yield], the state it
    left behind and how it ended. *)

From Stdlib Require Import ZArith Lia DecimalString Ascii.
From stdpp Require Import gmap strings list fin_maps sorting.

Open Scope Z_scope.

(** * Definitions *)

(** ** Steps and exceptions *)

Record Step := mkStep { rate : Z; limit : Z }.

#[global] Instance Step_inhabited : Inhabited Step := populate (mkStep 0 0).

#[global] Instance Step_eq_dec : EqDecision Step.
Proof. solve_decision. Defined.

(** The exceptions the program can raise: those of the language, and those
    the default context of the [decimal] module traps. *)
Inductive exception :=
  | IndexError
  | KeyError
  | ValueError
  | NotImplementedError
  | Overflow
  | DivisionByZero
  | InvalidOperation.

#[global] Instance exception_eq_dec : EqDecision exception.
Proof. solve_decision. Defined.

(** ** RoyaltyStack *)

(** [_rate_index] starts at 0, is incremented by [push] and is decremented by
    [pop] only on the branch where [_rate_index == 0] is false: it is a
    natural number. *)
Record RoyaltyStack := mkRoyaltyStack {
  _progression : list Step;
  _rates : list Z;
  _rate_index : nat;
  _cursor : gmap Z Z;
  _limits : gmap Z Z
}.

(** [{step.rate: 0 for step in self._progression}] *)
Definition _init_cursor (progression : list Step) : gmap Z Z :=
  foldl (fun m step => <[rate step := 0]> m) ∅ progression.

(** The value stored in [_limits] for the step at index [i]:
    the limit itself for the first step and for a step of limit 0,
    the distance to the previous limit otherwise. *)
Definition limits_entry (progression : list Step) (i : nat) (step : Step) : Z :=
  if (i =? 0)%nat || (limit step =? 0) then limit step
  else
    let prev_limit := limit (progression !!! (i - 1)%nat) in
    limit step - prev_limit.

(** The loop [for i, step in enumerate(self._progression)] of [__init__]. *)
Fixpoint init_limits (progression : list Step) (i : nat) (steps : list Step)
    (limits : gmap Z Z) : gmap Z Z :=
  match steps with
  | [] => limits
  | step :: rest =>
      init_limits progression (S i) rest
        (<[rate step := limits_entry progression i step]> limits)
  end.

Definition RoyaltyStack_init (progression : list Step) : RoyaltyStack :=
  {| _progression := progression;
     _rates := rate <$> progression;
     _rate_index := 0;
     _cursor := _init_cursor progression;
     _limits := init_limits progression 0 progression ∅ |}.

(** How a generator that was consumed to its end finished.  [OutOfFuel]
    belongs to the model only: [push_no_OutOfFuel] and [pop_no_OutOfFuel]
    show that it never happens. *)
Inductive completion :=
  | Returned
  | Raised (e : exception)
  | OutOfFuel.

#[global] Instance completion_eq_dec : EqDecision completion.
Proof. solve_decision. Defined.

(** The run of a generator over a stack: the values yielded, in order; the
    stack as it was while the generator stood suspended at each of them
    (what the generator does after a [yield] has not happened yet); the
    stack it left behind and how it ended. *)
Record run (A : Type) := mkRun {
  yielded : list A;
  suspended : list RoyaltyStack;
  final : RoyaltyStack;
  outcome : completion
}.
Arguments mkRun {A}.
Arguments yielded {A}.
Arguments suspended {A}.
Arguments final {A}.
Arguments outcome {A}.

Definition stop {A} (self : RoyaltyStack) (c : completion) : run A :=
  mkRun [] [] self c.

(** [yield item], with the stack as it is at that moment, then [rest]. *)
Definition yield {A} (item : A) (self : RoyaltyStack) (rest : run A) : run A :=
  mkRun (item :: yielded rest) (self :: suspended rest) (final rest) (outcome rest).

(** [self._cursor[cr] = v] *)
Definition set_cursor (self : RoyaltyStack) (cr v : Z) : RoyaltyStack :=
  {| _progression := _progression self;
     _rates := _rates self;
     _rate_index := _rate_index self;
     _cursor := <[cr := v]> (_cursor self);
     _limits := _limits self |}.

(** [self._rate_index = i] *)
Definition set_rate_index (self : RoyaltyStack) (i : nat) : RoyaltyStack :=
  {| _progression := _progression self;
     _rates := _rates self;
     _rate_index := i;
     _cursor := _cursor self;
     _limits := _limits self |}.

(** The [while copies > 0] loop of [push]; one unit of fuel per iteration. *)
Fixpoint push_loop (fuel : nat) (self : RoyaltyStack) (copies : Z) : run (Z * Z) :=
  if copies >? 0 then
    match fuel with
    | O => stop self OutOfFuel
    | S fuel =>
        match _rates self !! _rate_index self with
        | None => stop self (Raised IndexError)
        | Some cr =>
            match _limits self !! cr, _cursor self !! cr with
            | Some limit_cr, Some cursor_cr =>
                let has_no_upper_limit := limit_cr =? 0 in
                let cursor_after_apply := cursor_cr + copies in
                let can_process_at_current_rate := cursor_after_apply <=? limit_cr in
                if has_no_upper_limit || can_process_at_current_rate then
                  yield (copies, cr) self
                    (stop (set_cursor self cr (cursor_cr + copies)) Returned)
                else
                  let to_apply := limit_cr - cursor_cr in
                  yield (to_apply, cr) self
                    (push_loop fuel
                       (set_rate_index (set_cursor self cr (cursor_cr + to_apply))
                          (_rate_index self + 1)%nat)
                       (copies - to_apply))
            | _, _ => stop self (Raised KeyError)
            end
        end
    end
  else stop self Returned.

(** The [while copies > 0] loop of [pop]. *)
Fixpoint pop_loop (fuel : nat) (self : RoyaltyStack) (copies : Z) : run (Z * Z) :=
  if copies >? 0 then
    match fuel with
    | O => stop self OutOfFuel
    | S fuel =>
        match _rates self !! _rate_index self with
        | None => stop self (Raised IndexError)
        | Some cr =>
            let has_no_lower_limit := (_rate_index self =? 0)%nat in
            match _cursor self !! cr with
            | Some cursor_cr =>
                let can_process_at_current_rate := cursor_cr - copies >=? 0 in
                if has_no_lower_limit || can_process_at_current_rate then
                  yield (copies * -1, cr) self
                    (stop (set_cursor self cr (cursor_cr - copies)) Returned)
                else
                  let to_apply := cursor_cr in
                  yield (to_apply * -1, cr) self
                    (pop_loop fuel
                       (set_rate_index (set_cursor self cr 0)
                          (_rate_index self - 1)%nat)
                       (copies - to_apply))
            | None => stop self (Raised KeyError)
            end
        end
    end
  else stop self Returned.

(** Every iteration that does not end the loop moves [_rate_index] by one
    and an index outside [_rates] raises: one more unit of fuel than there
    are rates is always enough. *)
Definition push (self : RoyaltyStack) (copies : Z) : run (Z * Z) :=
  push_loop (S (length (_rates self))) self copies.

Definition pop (self : RoyaltyStack) (copies : Z) : run (Z * Z) :=
  pop_loop (S (length (_rates self))) self copies.

Definition reset (self : RoyaltyStack) : RoyaltyStack :=
  {| _progression := _progression self;
     _rates := _rates self;
     _rate_index := 0;
     _cursor := _init_cursor (_progression self);
     _limits := _limits self |}.

(** The dispatch of [Right._get_iterator] on the right's stack: [pop] of the
    magnitude for a negative number of copies, [push] otherwise.  This is
    the operation the specification calls allocate. *)
Definition allocate (self : RoyaltyStack) (copies : Z) : run (Z * Z) :=
  if copies <? 0 then pop self (copies * -1) else push self copies.

(** The stacks a program can reach from [RoyaltyStack(p)] through [push],
    [pop] and [reset], whatever the arguments and however the generators
    ended. *)
Inductive reachable (p : list Step) : RoyaltyStack -> Prop :=
  | reachable_init : reachable p (RoyaltyStack_init p)
  | reachable_push s copies :
      reachable p s -> reachable p (final (push s copies))
  | reachable_pop s copies :
      reachable p s -> reachable p (final (pop s copies))
  | reachable_reset s : reachable p s -> reachable p (reset s).

(** ** Validation of a progression *)

(** The loop [for i, step in enumerate(progression)] of
    [progression_is_valid]; [steps] is what is left of the list at index
    [i]. *)
Fixpoint valid_loop (progression : list Step) (i : nat) (steps : list Step) : bool :=
  match steps with
  | [] => true
  | step :: rest =>
      if (i =? 0)%nat then
        if (rate step <? 0) || (limit step <? 0) then false
        else valid_loop progression (S i) rest
      else if (i =? length progression - 1)%nat then
        if (rate step <=? rate (progression !!! (i - 1)%nat))
           || negb (limit step =? 0)
        then false
        else valid_loop progression (S i) rest
      else
        let prev_rate := rate (progression !!! (i - 1)%nat) in
        let prev_limit := limit (progression !!! (i - 1)%nat) in
        if (rate step <=? prev_rate) || (limit step <=? prev_limit) then false
        else valid_loop progression (S i) rest
  end.

Definition progression_is_valid (progression : list Step) : bool :=
  valid_loop progression 0 progression.

(** A progression as the docstring of [progression_is_valid] and the
    specification describe a valid one: it passes the function and its last
    step exists and has limit 0. *)
Definition proper (p : list Step) : bool :=
  progression_is_valid p
  && match last p with
     | Some st => limit st =? 0
     | None => false
     end.

(** ** Decimal

    The [decimal] module is Python's, not the repository's.  The model
    follows its arithmetic on finite numbers under the default context:
    28 significant digits, rounding half to even, exponents between
    [Emin] and [Emax], and the traps [Overflow], [DivisionByZero] and
    [InvalidOperation], which raise.  A number is a sign, a coefficient
    that is not negative and an exponent. *)

Record Decimal := mkDecimal { _sign : bool; _int : Z; _exp : Z }.

#[global] Instance Decimal_eq_dec : EqDecision Decimal.
Proof. solve_decision. Defined.

Definition prec : Z := 28.
Definition Emax : Z := 999999.
Definition Emin : Z := -999999.
Definition Etiny : Z := Emin - prec + 1.
Definition Etop : Z := Emax - prec + 1.

Fixpoint ndigits_loop (fuel : nat) (n : Z) : Z :=
  match fuel with
  | O => 1
  | S fuel => if n <? 10 then 1 else 1 + ndigits_loop fuel (n / 10)
  end.

(** [len(self._int)]: the number of decimal digits of a coefficient; a
    number has at most as many digits as bits. *)
Definition ndigits (n : Z) : Z := ndigits_loop (Z.to_nat (Z.log2 n)) n.

(** Whether dropping the last [dropped] digits of [coeff] rounds up, under
    ROUND_HALF_EVEN: more than a half is dropped, or exactly a half
    and the digit kept last is odd. *)
Definition _round_half_even (coeff dropped : Z) : bool :=
  let q := coeff / 10 ^ dropped in
  let r := coeff mod 10 ^ dropped in
  let half := 5 * 10 ^ (dropped - 1) in
  (half <? r) || ((r =? half) && Z.odd q).

(** [Decimal._fix]: round to the precision of the context and keep the
    exponent within its bounds. *)
Definition _fix (self : Decimal) : exception + Decimal :=
  if _int self =? 0 then
    inr (mkDecimal (_sign self) 0 (Z.min (Z.max (_exp self) Etiny) Emax))
  else
    let exp_min := ndigits (_int self) + _exp self - prec in
    if exp_min >? Etop then inl Overflow
    else
      let exp_min := if exp_min <? Etiny then Etiny else exp_min in
      if _exp self <? exp_min then
        let digits := ndigits (_int self) + _exp self - exp_min in
        let '(int, len, digits) :=
          if digits <? 0 then (1, 1, 0)
          else (_int self, ndigits (_int self), digits) in
        let changed := _round_half_even int (len - digits) in
        let coeff := int / 10 ^ (len - digits) in
        let '(coeff, exp_min) :=
          if changed then
            let coeff := coeff + 1 in
            if ndigits coeff >? prec then (coeff / 10, exp_min + 1)
            else (coeff, exp_min)
          else (coeff, exp_min) in
        if exp_min >? Etop then inl Overflow
        else inr (mkDecimal (_sign self) coeff exp_min)
      else inr self.

(** [Decimal(n)] for an integer [n]. *)
Definition Decimal_of_int (n : Z) : Decimal := mkDecimal (n <? 0) (Z.abs n) 0.

(** [Decimal.__mul__] *)
Definition Decimal_mul (self other : Decimal) : exception + Decimal :=
  _fix (mkDecimal (xorb (_sign self) (_sign other)) (_int self * _int other)
          (_exp self + _exp other)).

(** The loop [while exp < ideal_exp and coeff % 10 == 0] of [__truediv__];
    [n] is the distance from [exp] to [ideal_exp]. *)
Fixpoint strip_zeros (n : nat) (coeff exp : Z) : Z * Z :=
  match n with
  | O => (coeff, exp)
  | S n =>
      if coeff mod 10 =? 0 then strip_zeros n (coeff / 10) (exp + 1)
      else (coeff, exp)
  end.

(** [Decimal.__truediv__] *)
Definition Decimal_truediv (self other : Decimal) : exception + Decimal :=
  let sign := xorb (_sign self) (_sign other) in
  if _int other =? 0 then
    if _int self =? 0 then inl InvalidOperation else inl DivisionByZero
  else
    let '(coeff, exp) :=
      if _int self =? 0 then (0, _exp self - _exp other)
      else
        let shift := ndigits (_int other) - ndigits (_int self) + prec + 1 in
        let exp := _exp self - _exp other - shift in
        let '(coeff, remainder) :=
          if shift >=? 0 then
            ((_int self * 10 ^ shift) / _int other,
             (_int self * 10 ^ shift) mod _int other)
          else
            (_int self / (_int other * 10 ^ (- shift)),
             _int self mod (_int other * 10 ^ (- shift))) in
        if negb (remainder =? 0) then
          ((if coeff mod 5 =? 0 then coeff + 1 else coeff), exp)
        else
          let ideal_exp := _exp self - _exp other in
          strip_zeros (Z.to_nat (ideal_exp - exp)) coeff exp in
    _fix (mkDecimal sign coeff exp).

(** [Decimal._rescale] to an exponent that is not above the number's own:
    the coefficient is padded with zeros. *)
Definition _rescale (self : Decimal) (exp : Z) : Decimal :=
  mkDecimal (_sign self) (_int self * 10 ^ (_exp self - exp)) exp.

(** [Decimal.__add__], with [_normalize] in its last case. *)
Definition Decimal_add (self other : Decimal) : exception + Decimal :=
  let exp := Z.min (_exp self) (_exp other) in
  if (_int self =? 0) && (_int other =? 0) then
    _fix (mkDecimal (_sign self && _sign other) 0 exp)
  else if _int self =? 0 then
    _fix (_rescale other (Z.max exp (_exp other - prec - 1)))
  else if _int other =? 0 then
    _fix (_rescale self (Z.max exp (_exp self - prec - 1)))
  else
    let swap := _exp self <? _exp other in
    let tmp := if swap then other else self in
    let oth := if swap then self else other in
    let tmp_len := ndigits (_int tmp) in
    let other_len := ndigits (_int oth) in
    let e := _exp tmp + Z.min (-1) (tmp_len - prec - 2) in
    let '(oth_int, oth_exp) :=
      if other_len + _exp oth - 1 <? e then (1, e) else (_int oth, _exp oth) in
    let tmp_int := _int tmp * 10 ^ (_exp tmp - oth_exp) in
    let op1_int := if swap then oth_int else tmp_int in
    let op2_int := if swap then tmp_int else oth_int in
    if negb (eqb (_sign self) (_sign other)) then
      if op1_int =? op2_int then _fix (mkDecimal false 0 exp)
      else
        let '(big, big_sign, small) :=
          if op1_int <? op2_int then (op2_int, _sign other, op1_int)
          else (op1_int, _sign self, op2_int) in
        _fix (mkDecimal big_sign (big - small) oth_exp)
    else
      _fix (mkDecimal (_sign self) (op1_int + op2_int) oth_exp).

Definition copy_negate (self : Decimal) : Decimal :=
  mkDecimal (negb (_sign self)) (_int self) (_exp self).

(** [Decimal.__sub__] *)
Definition Decimal_sub (self other : Decimal) : exception + Decimal :=
  Decimal_add self (copy_negate other).

(** ** Statements and report items *)

Module datetime.
(** [datetime.date]; dates compare as the tuples (year, month, day). *)
Record date := mkdate { year : Z; month : Z; day : Z }.

#[global] Instance date_eq_dec : EqDecision date.
Proof. solve_decision. Defined.

Definition ltb (a b : date) : bool :=
  (year a <? year b)
  || ((year a =? year b)
      && ((month a <? month b)
          || ((month a =? month b) && (day a <? day b)))).

Definition le (a b : date) : Prop := ltb b a = false.
End datetime.

(** The classes of statements: the base class, whose [name] raises, and its
    two subclasses. *)
Inductive StatementClass :=
  | BaseStatement
  | TradeVolumeStatement
  | EbookStatement.

#[global] Instance StatementClass_eq_dec : EqDecision StatementClass.
Proof. solve_decision. Defined.

Module Statement.
Record t := mk {
  class : StatementClass;
  date : datetime.date;
  copies : Z;
  price : Decimal
}.

#[global] Instance eq_dec : EqDecision t.
Proof. solve_decision. Defined.

Definition name (self : t) : exception + string :=
  match class self with
  | BaseStatement => inl NotImplementedError
  | TradeVolumeStatement => inr "trade volume"%string
  | EbookStatement => inr "ebook"%string
  end.
End Statement.

Module ReportItem.
Record t := mk {
  date : datetime.date;
  right : string;
  copies : Z;
  rate : string;
  price : Decimal;
  advance_left : option Decimal;
  due : Decimal
}.

#[global] Instance eq_dec : EqDecision t.
Proof. solve_decision. Defined.

(** [item.advance_left = v] *)
Definition set_advance_left (item : t) (v : Decimal) : t :=
  mk (date item) (right item) (copies item) (rate item) (price item)
     (Some v) (due item).
End ReportItem.

(** ** Strings

    A [str] is the string of its bytes in UTF-8; the separators of
    [from_string] are ASCII characters, which are no part of the encoding
    of any other character. *)

(** [s.split(sep)] for a separator of one character: the pieces between
    its occurrences, empty ones included; one piece more than there are
    occurrences. *)
Fixpoint str_split (sep : Ascii.ascii) (s : string) : list string :=
  match s with
  | EmptyString => [EmptyString]
  | String c rest =>
      if decide (c = sep) then EmptyString :: str_split sep rest
      else
        match str_split sep rest with
        | piece :: pieces => String c piece :: pieces
        | [] => [String c EmptyString]
        end
  end.

(** [s.count(c)] *)
Fixpoint str_count (c : Ascii.ascii) (s : string) : nat :=
  match s with
  | EmptyString => 0
  | String c' rest => (if decide (c' = c) then 1 else 0) + str_count c rest
  end.

(** ** Right *)

Inductive RightClass :=
  | BaseRight
  | TradeVolumeRight
  | EbookRight.

#[global] Instance RightClass_eq_dec : EqDecision RightClass.
Proof. solve_decision. Defined.

Module Right.
Record t := mk {
  class : RightClass;
  progression : list Step;
  _royalty_stack : RoyaltyStack
}.

Definition name (self : t) : exception + string :=
  match class self with
  | BaseRight => inl NotImplementedError
  | TradeVolumeRight => inr "trade volume"%string
  | EbookRight => inr "ebook"%string
  end.

(** [Right.__init__], for the class [cls]. *)
Definition init (cls : RightClass) (progression : list Step) : exception + t :=
  if negb (progression_is_valid progression) then inl ValueError
  else inr (mk cls progression (RoyaltyStack_init progression)).

Definition with_stack (self : t) (stack : RoyaltyStack) : t :=
  mk (class self) (progression self) stack.

Definition reset (self : t) : t := with_stack self (reset (_royalty_stack self)).

Definition _get_iterator (self : t) (copies : Z) : run (Z * Z) :=
  if copies <? 0 then pop (_royalty_stack self) (copies * -1)
  else push (_royalty_stack self) copies.

(** [copies * rate * stmt.price / 100]: the integer product first, then
    [Decimal.__rmul__], then [Decimal.__truediv__]. *)
Definition due_amount (copies rate : Z) (price : Decimal) : exception + Decimal :=
  match Decimal_mul price (Decimal_of_int (copies * rate)) with
  | inl e => inl e
  | inr product => Decimal_truediv product (Decimal_of_int 100)
  end.

(** The [ReportItem(...)] built for one yielded tuple; its arguments are
    evaluated in order, and [self.name] or the arithmetic may raise. *)
Definition report_item (self : t) (stmt : Statement.t) (tuple : Z * Z)
    : exception + ReportItem.t :=
  let '(copies, rate) := tuple in
  match name self with
  | inl e => inl e
  | inr right_name =>
      match due_amount copies rate (Statement.price stmt) with
      | inl e => inl e
      | inr due =>
          inr (ReportItem.mk (Statement.date stmt) right_name copies
                 (NilZero.string_of_int (Z.to_int rate) +:+ "%")
                 (Statement.price stmt) None due)
      end
  end.

(** The loop [for copies, rate in ...: yield ReportItem(...)]: when
    building an item raises, the inner generator stays suspended where it
    yielded. *)
Fixpoint report_loop (self : t) (stmt : Statement.t)
    (tuples : list (Z * Z)) (stacks : list RoyaltyStack)
    (final : RoyaltyStack) (outcome : completion) : run ReportItem.t :=
  match tuples, stacks with
  | tuple :: tuples, stack :: stacks =>
      match report_item self stmt tuple with
      | inl e => stop stack (Raised e)
      | inr item =>
          yield item stack (report_loop self stmt tuples stacks final outcome)
      end
  | _, _ => stop final outcome
  end.

Definition apply_statement (self : t) (stmt : Statement.t) : run ReportItem.t :=
  let inner := _get_iterator self (Statement.copies stmt) in
  report_loop self stmt (yielded inner) (suspended inner) (final inner)
    (outcome inner).

Section from_string.
(** [int(s)] for a string [s] is Python's: the number it reads, or [None]
    when it raises ValueError. *)
Variable int : string -> option Z.

(** [rate, limit = step.split('-')], which raises ValueError unless there
    are exactly two pieces, then [Step(rate=int(rate), limit=int(limit))]. *)
Definition parse_step (step : string) : exception + Step :=
  match str_split "-"%char step with
  | [rate; limit] =>
      match int rate with
      | None => inl ValueError
      | Some rate =>
          match int limit with
          | None => inl ValueError
          | Some limit => inr (mkStep rate limit)
          end
      end
  | _ => inl ValueError
  end.

(** The loop [for step in string.split(','): progression.append(...)]. *)
Fixpoint parse_steps (steps : list string) : exception + list Step :=
  match steps with
  | [] => inr []
  | step :: rest =>
      match parse_step step with
      | inl e => inl e
      | inr st =>
          match parse_steps rest with
          | inl e => inl e
          | inr progression => inr (st :: progression)
          end
      end
  end.

(** [cls.from_string(string)] *)
Definition from_string (cls : RightClass) (string : string) : exception + t :=
  match parse_steps (str_split ","%char string) with
  | inl e => inl e
  | inr progression => init cls progression
  end.
End from_string.
End Right.

(** ** Agreement *)

(** What the constructor [Decimal(x)] returns when it does not raise: a
    finite number, exactly the one [x] denotes, or one of the special
    values, Infinity with its sign or a NaN, quiet or signaling, with its
    sign and its payload. *)
Inductive special :=
  | Infinity (sign : bool)
  | NaN (sign : bool) (signaling : bool) (payload : Z).

Inductive constructed :=
  | Finite (d : Decimal)
  | Special (v : special).

(** [advance] is the [Decimal] that [__init__] made of its argument;
    [rights] maps the name of a right to the right. *)
Module Agreement.
Record t := mk {
  advance : Decimal;
  rights : gmap string Right.t;
  statements : list Statement.t
}.

Definition add_right (self : t) (new : Right.t) : exception + t :=
  match Right.name new with
  | inl e => inl e
  | inr name => inr (mk (advance self) (<[name := new]> (rights self))
                       (statements self))
  end.

Definition add_statements (self : t) (stmts : list Statement.t) : t :=
  mk (advance self) (rights self) (statements self ++ stmts).

(** Where [list.sort] puts [s] among statements that are already sorted
    and that all came after it in the list: before the first one that is
    not of an earlier date. *)
Fixpoint insert_by_date (s : Statement.t) (sorted : list Statement.t)
    : list Statement.t :=
  match sorted with
  | [] => [s]
  | x :: rest =>
      if datetime.ltb (Statement.date x) (Statement.date s)
      then x :: insert_by_date s rest
      else s :: x :: rest
  end.

(** [list.sort(key=operator.attrgetter('date'))]: the sort is stable, and
    the stable sorted arrangement of a list is unique. *)
Definition sort_by_date (l : list Statement.t) : list Statement.t :=
  foldr insert_by_date [] l.

Definition _sort_statements (self : t) : t :=
  mk (advance self) (rights self) (sort_by_date (statements self)).

Definition _reset_rights (self : t) : t :=
  mk (advance self) (Right.reset <$> rights self) (statements self).

(** The list comprehension
    [[self.rights[s.name].apply_statement(s) for s in self.statements]]:
    each generator is bound to the right found under the name of its
    statement, and none has started. *)
Fixpoint raw_items (rights : gmap string Right.t) (stmts : list Statement.t)
    : exception + list (string * Statement.t) :=
  match stmts with
  | [] => inr []
  | s :: rest =>
      match Statement.name s with
      | inl e => inl e
      | inr name =>
          match rights !! name with
          | None => inl KeyError
          | Some _ =>
              match raw_items rights rest with
              | inl e => inl e
              | inr generators => inr ((name, s) :: generators)
              end
          end
      end
  end.

(** The run of [apply_statements]: the items yielded, the agreement as
    the generator left it, and how it ended. *)
Record report := mkReport {
  items : list ReportItem.t;
  after : t;
  ended : completion
}.

(** The body of [for item in chain.from_iterable(raw_items)] over the
    items of one generator: [adv_left -= item.due], then the item is
    yielded with its [advance_left].  It gives the items yielded, the
    advance left, and the exception and the suspended stack when the
    subtraction raised. *)
Fixpoint settle (adv_left : Decimal) (its : list ReportItem.t)
    (stacks : list RoyaltyStack)
    : list ReportItem.t * Decimal * option (exception * RoyaltyStack) :=
  match its, stacks with
  | item :: its, stack :: stacks =>
      match Decimal_sub adv_left (ReportItem.due item) with
      | inl e => ([], adv_left, Some (e, stack))
      | inr adv_left =>
          let '(out, adv, stopped) := settle adv_left its stacks in
          (ReportItem.set_advance_left item adv_left :: out, adv, stopped)
      end
  | _, _ => ([], adv_left, None)
  end.

(** [chain.from_iterable(raw_items)], consumed by the loop of
    [apply_statements]: one generator after the other, each working on
    the right it is bound to. *)
Fixpoint chain (rights : gmap string Right.t) (adv_left : Decimal)
    (generators : list (string * Statement.t))
    : list ReportItem.t * gmap string Right.t * completion :=
  match generators with
  | [] => ([], rights, Returned)
  | (name, s) :: rest =>
      match rights !! name with
      | None => ([], rights, Raised KeyError)
      | Some bound =>
          let r := Right.apply_statement bound s in
          let '(out, adv_left, stopped) :=
            settle adv_left (yielded r) (suspended r) in
          match stopped with
          | Some (e, stack) =>
              (out, <[name := Right.with_stack bound stack]> rights, Raised e)
          | None =>
              let rights := <[name := Right.with_stack bound (final r)]> rights in
              match outcome r with
              | Returned =>
                  let '(out', rights, c) := chain rights adv_left rest in
                  (out ++ out', rights, c)
              | c => (out, rights, c)
              end
          end
      end
  end.

Definition apply_statements (self : t) : report :=
  let self := _reset_rights (_sort_statements self) in
  match raw_items (rights self) (statements self) with
  | inl e => mkReport [] self (Raised e)
  | inr generators =>
      let '(out, rights, c) := chain (rights self) (advance self) generators in
      mkReport out (mk (advance self) rights (statements self)) c
  end.

(** The loop [for right in rights: self.rights[right.name] = right] of
    [__init__]. *)
Fixpoint init_rights (rights : gmap string Right.t) (new : list Right.t)
    : exception + gmap string Right.t :=
  match new with
  | [] => inr rights
  | r :: rest =>
      match Right.name r with
      | inl e => inl e
      | inr name => init_rights (<[name := r]> rights) rest
      end
  end.

(** An agreement as [__init__] leaves it.  The arithmetic of a report is
    modelled on finite numbers, and [advance] of [t] is one; an agreement
    whose advance is Infinity or a NaN is kept apart, with the rights it
    holds: it has no statements either. *)
Inductive initialised :=
  | finite_advance (self : t)
  | special_advance (advance : special) (rights : gmap string Right.t).

Section init.
(** The argument [advance] of [__init__] is an [int], a [float] or a
    [str], and [Decimal(advance)] is Python's: what it returns, or the
    exception it raises, [InvalidOperation] on a string that denotes no
    number. *)
Variable Advance : Type.
Variable Decimal_new : Advance -> exception + constructed.

(** [Agreement.__init__]: [self.advance = Decimal(advance)] comes first,
    then the loop over [rights], which is [None] when the argument is left
    out. *)
Definition init (advance : Advance) (rights : option (list Right.t))
    : exception + initialised :=
  match Decimal_new advance with
  | inl e => inl e
  | inr advance =>
      let stored :=
        match rights with
        | None => inr ∅
        | Some new => init_rights ∅ new
        end in
      match stored with
      | inl e => inl e
      | inr rights =>
          inr match advance with
              | Finite d => finite_advance (mk d rights [])
              | Special v => special_advance v rights
              end
      end
  end.
End init.

(** What [print_report] writes: a date, by [print(k)], or the lines of a
    date, by [pprint(list(v))]. *)
Inductive output :=
  | print (k : datetime.date)
  | pprint (v : list ReportItem.t).

(** [itertools.groupby(items, key=operator.attrgetter('date'))], each
    group drawn to its end before the next one is asked for: the runs of
    consecutive items of one date, each with its date. *)
Fixpoint groupby (items : list ReportItem.t)
    : list (datetime.date * list ReportItem.t) :=
  match items with
  | [] => []
  | item :: rest =>
      match groupby rest with
      | (k, v) :: groups =>
          if decide (ReportItem.date item = k) then (k, item :: v) :: groups
          else (ReportItem.date item, [item]) :: (k, v) :: groups
      | [] => [(ReportItem.date item, [item])]
      end
  end.

(** The run of [print_report]: what it wrote, the agreement as it left
    it, and how it ended. *)
Record printout := mkPrintout {
  written : list output;
  agreement : t;
  finished : completion
}.

(** [print_report]: [for k, v in g: print(k); pprint(list(v))].  A group
    ends when [groupby] draws an item of another date or the end of the
    generator, and it draws it inside [list(v)]: when [apply_statements]
    raises, the exception comes out of [list(v)] for the last group, whose
    date is written and whose lines are not. *)
Definition print_report (self : t) : printout :=
  let rep := apply_statements self in
  let all := flat_map (fun g => [print g.1; pprint g.2]) (groupby (items rep)) in
  match ended rep with
  | Returned => mkPrintout all (after rep) Returned
  | c => mkPrintout (removelast all) (after rep) c
  end.
End Agreement.

(** ** The fixtures of [test_royalties.py] *)

Definition test_progression : list Step :=
  [mkStep 7 5000; mkStep 8 10000; mkStep 9 0].

(** [rs]: [RoyaltyStack([Step(7, 5000), Step(8, 10000), Step(9, 0)])] *)
Definition rs : RoyaltyStack := RoyaltyStack_init test_progression.

(** [tvr]: [TradeVolumeRight.from_string('7-5000,8-10000,9-0')] *)
Definition tvr : Right.t :=
  Right.mk TradeVolumeRight test_progression (RoyaltyStack_init test_progression).

(** [er]: [EbookRight.from_string('25-1000,40-0')] *)
Definition er : Right.t :=
  Right.mk EbookRight [mkStep 25 1000; mkStep 40 0]
    (RoyaltyStack_init [mkStep 25 1000; mkStep 40 0]).

(** [Decimal('28.40')] is the coefficient 2840 with the exponent -2. *)
Definition tvs1 : Statement.t :=
  Statement.mk TradeVolumeStatement (datetime.mkdate 2016 6 30) 143
    (mkDecimal false 2840 (-2)).

Definition tvs2 : Statement.t :=
  Statement.mk TradeVolumeStatement (datetime.mkdate 2016 12 31) 512
    (mkDecimal false 3490 (-2)).

Definition tvs3 : Statement.t :=
  Statement.mk TradeVolumeStatement (datetime.mkdate 2017 6 30) (-45)
    (mkDecimal false 3320 (-2)).

Definition es1 : Statement.t :=
  Statement.mk EbookStatement (datetime.mkdate 2016 6 30) 89
    (mkDecimal false 1356 (-2)).

Definition es2 : Statement.t :=
  Statement.mk EbookStatement (datetime.mkdate 2016 12 31) 124
    (mkDecimal false 1423 (-2)).

(** [Agreement(1500, [tvr, er])] with the five statements of
    [test_apply_statements] added. *)
Definition test_agreement : Agreement.t :=
  Agreement.mk (Decimal_of_int 1500)
    (<["ebook"%string := er]> (<["trade volume"%string := tvr]> ∅))
    [tvs1; es1; tvs2; es2; tvs3].

(** A progression of one step whose limit is not 0. *)
Definition single_step : list Step := [mkStep 7 5000].

(** ** Notions used to state the properties *)

(** The test one iteration of [progression_is_valid] passes. *)
Definition step_ok (p : list Step) (i : nat) (step : Step) : Prop :=
  if decide (i = 0%nat) then 0 <= rate step /\ 0 <= limit step
  else if decide (i = (length p - 1)%nat) then
    rate (p !!! (i - 1)%nat) < rate step /\ limit step = 0
  else
    rate (p !!! (i - 1)%nat) < rate step
    /\ limit (p !!! (i - 1)%nat) < limit step.

(** Sum of a list of integers. *)
Definition Zsum (l : list Z) : Z := foldr Z.add 0 l.

(** The widths of the tiers, as [__init__] stores them in [_limits]. *)
Definition widths (p : list Step) : list Z := imap (limits_entry p) p.

(** The copies that fill the first [k] tiers. *)
Definition filled (p : list Step) (k : nat) : Z := Zsum (take k (widths p)).

(** The cumulative position of a stack: the copies that fill the tiers
    below the active one, plus what the active tier holds. *)
Definition position (s : RoyaltyStack) : Z :=
  filled (_progression s) (_rate_index s)
  + default 0 (_progression s !! _rate_index s ≫= fun st => _cursor s !! rate st).

(** What every stack built by [RoyaltyStack_init p] and changed only through
    [push], [pop] and [reset] satisfies. *)
Record stack_inv (p : list Step) (s : RoyaltyStack) : Prop := {
  inv_progression : _progression s = p;
  inv_rates : _rates s = rate <$> p;
  inv_limits : _limits s = init_limits p 0 p ∅;
  inv_index : (_rate_index s <= length p)%nat;
  inv_keys : forall r, is_Some (_cursor s !! r) <-> r ∈ rate <$> p;
  inv_below : forall i st, (i < _rate_index s)%nat -> p !! i = Some st ->
    _cursor s !! rate st = Some (limits_entry p i st) /\ limits_entry p i st <> 0;
  inv_above : forall i st, (_rate_index s < i)%nat -> p !! i = Some st ->
    _cursor s !! rate st = Some 0;
  inv_at : forall st a, p !! _rate_index s = Some st ->
    _cursor s !! rate st = Some a ->
    (limits_entry p (_rate_index s) st <> 0 ->
     a <= limits_entry p (_rate_index s) st)
    /\ ((0 < _rate_index s)%nat -> 0 <= a)
}.

(** The active tier holds exactly its width, and that width is not the
    sentinel 0: the position is the upper boundary of the tier. *)
Definition active_full (s : RoyaltyStack) : bool :=
  match _rates s !! _rate_index s with
  | Some cr =>
      match _limits s !! cr, _cursor s !! cr with
      | Some w, Some a => negb (w =? 0) && (a =? w)
      | _, _ => false
      end
  | None => false
  end.

(** The active tier is above the first one and holds nothing: the position
    is the lower boundary of the tier. *)
Definition active_empty (s : RoyaltyStack) : bool :=
  match _rates s !! _rate_index s with
  | Some cr =>
      match _cursor s !! cr with
      | Some a => negb (_rate_index s =? 0)%nat && (a =? 0)
      | None => false
      end
  | None => false
  end.


(** The defects of a progression: a last limit that is not 0, a rate or,
    before the last step, a limit that does not grow, a negative rate or
    limit in the first step. *)
Definition defective (p : list Step) : Prop :=
  (exists st, last p = Some st /\ limit st <> 0)
  \/ (exists i a b, p !! i = Some a /\ p !! S i = Some b /\ rate b <= rate a)
  \/ (exists i a b, p !! i = Some a /\ p !! S i = Some b
        /\ (S i < length p - 1)%nat /\ limit b <= limit a)
  \/ (exists st, p !! 0%nat = Some st /\ (rate st < 0 \/ limit st < 0)).

(** Statements in the order of their dates. *)
Definition by_date (x y : Statement.t) : Prop :=
  datetime.le (Statement.date x) (Statement.date y).

(** [adv_left -= due], when nothing raised before. *)
Definition subtract (acc : exception + Decimal) (due : Decimal)
    : exception + Decimal :=
  match acc with
  | inl e => inl e
  | inr adv_left => Decimal_sub adv_left due
  end.

(** The advance after the dues have been subtracted from it one after the
    other. *)
Definition running_balance (advance : Decimal) (dues : list Decimal)
    : exception + Decimal :=
  foldl subtract (inr advance) dues.

(** Every item carries the advance less the dues up to and including its
    own. *)
Definition balanced (advance : Decimal) (out : list ReportItem.t) : Prop :=
  forall k item, out !! k = Some item ->
    exists b,
      running_balance advance (ReportItem.due <$> take (S k) out) = inr b
      /\ ReportItem.advance_left item = Some b.

(** An agreement with an advance of 29 digits, and two statements of one
    copy at the price 10: each is due 0.7. *)
Definition large_agreement : Agreement.t :=
  Agreement.mk (Decimal_of_int (10 ^ 28))
    (<["trade volume"%string := tvr]> ∅)
    [Statement.mk TradeVolumeStatement (datetime.mkdate 2016 6 30) 1
       (mkDecimal false 10 0);
     Statement.mk TradeVolumeStatement (datetime.mkdate 2016 12 31) 1
       (mkDecimal false 10 0)].

(** The coefficient of a number with its sign. *)
Definition signed (d : Decimal) : Z := if _sign d then - _int d else _int d.

(** The number counted in units of 10^m, for an [m] that is not above its
    exponent: its value is [aligned m d] * 10^m. *)
Definition aligned (m : Z) (d : Decimal) : Z := signed d * 10 ^ (_exp d - m).

(** The lowest exponent among the advance and the dues. *)
Definition finest (adv : Decimal) (dues : list Decimal) : Z :=
  foldl Z.min (_exp adv) (_exp <$> dues).

(** The advance minus the sum of the dues in exact arithmetic, counted in
    units of 10^m. *)
Definition exact_balance (m : Z) (adv : Decimal) (dues : list Decimal) : Z :=
  aligned m adv - Zsum (aligned m <$> dues).

(** The advance minus the sum of the dues has no more digits than the
    precision of the context. *)
Definition fits (adv : Decimal) (dues : list Decimal) : Prop :=
  Z.abs (exact_balance (finest adv dues) adv dues) < 10 ^ prec.

(** The copies attributed over all the tiers: the sum of the values
    [_cursor] holds for the rates of the stack. *)
Definition attributed (s : RoyaltyStack) : Z :=
  Zsum ((fun cr => default 0 (_cursor s !! cr)) <$> _rates s).

(** What [progression_is_valid] accepts, said of the list as a whole: the
    rates grow strictly; so do the limits of the steps before the last
    one; the first rate and the first limit are not negative; and the last
    limit of a progression of two steps or more is 0. *)
Definition well_formed (p : list Step) : Prop :=
  StronglySorted Z.lt (rate <$> p)
  /\ StronglySorted Z.lt (limit <$> take (length p - 1) p)
  /\ (forall st, p !! 0%nat = Some st -> 0 <= rate st /\ 0 <= limit st)
  /\ ((2 <= length p)%nat -> exists st, last p = Some st /\ limit st = 0).

(** A right as [Right.__init__] builds it and as its methods leave it: its
    progression passed the validation, and [_progression], [_rates] and
    [_limits] of its stack are those the constructor made of it. *)
Definition sound_right (r : Right.t) : Prop :=
  progression_is_valid (Right.progression r) = true
  /\ reset (Right._royalty_stack r) = RoyaltyStack_init (Right.progression r).

(** The agreements a program builds with the constructor and the methods
    of [Agreement], from rights built by [Right]: the constructor leaves
    the advance, a finite number here, the rights its loop stored, and no
    statements. *)
Inductive built : Agreement.t -> Prop :=
  | built_init advance rights stored :
      Forall sound_right (default [] rights) ->
      Agreement.init_rights ∅ (default [] rights) = inr stored ->
      built (Agreement.mk advance stored [])
  | built_add_right a new a' :
      built a -> sound_right new -> Agreement.add_right a new = inr a' ->
      built a'
  | built_add_statements a stmts :
      built a -> built (Agreement.add_statements a stmts)
  | built_sort_statements a :
      built a -> built (Agreement._sort_statements a)
  | built_reset_rights a :
      built a -> built (Agreement._reset_rights a)
  | built_apply_statements a :
      built a -> built (Agreement.after (Agreement.apply_statements a)).

(** A statement the agreement cannot process: it is of the base class,
    which has no name, or the agreement holds no right of its name. *)
Definition unresolved (a : Agreement.t) (s : Statement.t) : Prop :=
  match Statement.name s with
  | inl _ => True
  | inr name => Agreement.rights a !! name = None
  end.

(** The rights of an agreement while [apply_statements] runs: each is
    stored under its name, its progression passed the validation and its
    stack is one the allocator can be in. *)
Definition live (rights : gmap string Right.t) : Prop :=
  forall k r, rights !! k = Some r ->
    Right.name r = inr k
    /\ progression_is_valid (Right.progression r) = true
    /\ stack_inv (Right.progression r) (Right._royalty_stack r).

(** A statement the agreement can process: it has a name, and the
    agreement holds a right of that name. *)
Definition resolved (a : Agreement.t) (s : Statement.t) : Prop :=
  exists name, Statement.name s = inr name
               /\ is_Some (Agreement.rights a !! name).

(** An agreement that holds the trade volume right only, with a statement
    of ebook sales among its statements. *)
Definition trade_only_agreement : Agreement.t :=
  Agreement.mk (Decimal_of_int 1500) (<["trade volume"%string := tvr]> ∅)
    [tvs1; es1].

(** A second trade volume right, of another progression. *)
Definition tvr2 : Right.t :=
  Right.mk TradeVolumeRight [mkStep 10 0] (RoyaltyStack_init [mkStep 10 0]).

(** [int(s)] on the strings of ASCII decimal digits.  Python's [int] reads
    more strings than these (a sign, blanks around the number, underscores
    between digits, the decimal digits of other scripts); they are [None]
    here, and this function only serves to run [from_string] on the
    strings of the test suite. *)
Definition digit (c : Ascii.ascii) : option Z :=
  let n := Z.of_nat (Ascii.nat_of_ascii c) in
  if (48 <=? n) && (n <=? 57) then Some (n - 48) else None.

Fixpoint digits (acc : Z) (s : string) : option Z :=
  match s with
  | EmptyString => Some acc
  | String c rest =>
      match digit c with
      | Some d => digits (10 * acc + d) rest
      | None => None
      end
  end.

Definition int_of_digits (s : string) : option Z :=
  match s with
  | EmptyString => None
  | _ => digits 0 s
  end.

(** Dates in strict order. *)
Definition date_lt (a b : datetime.date) : Prop := datetime.ltb a b = true.

(** An agreement whose only right has the progression of one step, with a
    statement of more copies than the limit of that step. *)
Definition single_step_agreement : Agreement.t :=
  Agreement.mk (Decimal_of_int 1500)
    (<["trade volume"%string :=
         Right.mk TradeVolumeRight single_step (RoyaltyStack_init single_step)]> ∅)
    [Statement.mk TradeVolumeStatement (datetime.mkdate 2016 6 30) 6000
       (mkDecimal false 2840 (-2))].

(** The share of tier [j] in a total of copies, by the limits of the
    progression: what of the total lies between the limit of the step
    below and the limit of the step itself, a limit of 0 being no limit.
    The first tier takes a negative total whole. *)
Definition tier_share (p : list Step) (j : nat) (total : Z) : Z :=
  let upper :=
    match p !! j with
    | Some st => if limit st =? 0 then total else Z.min total (limit st)
    | None => total
    end in
  if (j =? 0)%nat then upper
  else Z.max (upper - limit (p !!! (j - 1)%nat)) 0.

(** [Decimal(n)] for an [int]: the number itself, exactly. *)
Definition Decimal_of_Z (n : Z) : exception + constructed :=
  inr (Finite (Decimal_of_int n)).

(** [Decimal(s)] on a few strings: the strings of ASCII decimal digits,
    ['NaN'], ['sNaN'] and ['Infinity'].  Python reads many more strings
    than these as numbers (a sign, a point, an exponent, blanks, a
    payload); here they raise, and this function only serves to run
    [Agreement.__init__] on an advance given as a string. *)
Definition Decimal_of_str (s : string) : exception + constructed :=
  if decide (s = "NaN"%string) then inr (Special (NaN false false 0))
  else if decide (s = "sNaN"%string) then inr (Special (NaN false true 0))
  else if decide (s = "Infinity"%string) then inr (Special (Infinity false))
  else
    match int_of_digits s with
    | Some n => inr (Finite (Decimal_of_int n))
    | None => inl InvalidOperation
    end.

(** The rights of an agreement are stored under their names and are
    sound: what the constructor and the methods of [Agreement] keep, from
    rights built by [Right]. *)
Definition sound_agreement (a : Agreement.t) : Prop :=
  forall k r, Agreement.rights a !! k = Some r ->
    Right.name r = inr k /\ sound_right r.

(** * Properties *)

(** ** What a valid progression looks like *)

Lemma valid_loop_cons p i step rest :
  valid_loop p i (step :: rest) = true <->
  step_ok p i step /\ valid_loop p (S i) rest = true.
Proof.
  unfold step_ok. simpl.
  destruct (Nat.eqb_spec i 0);
    [rewrite decide_True by done|rewrite decide_False by done].
  { destruct (Z.ltb_spec (rate step) 0), (Z.ltb_spec (limit step) 0);
      simpl; intuition (try discriminate; lia). }
  destruct (Nat.eqb_spec i (length p - 1));
    [rewrite decide_True by done|rewrite decide_False by done].
  - destruct (Z.leb_spec (rate step) (rate (p !!! (i - 1)%nat))),
      (Z.eqb_spec (limit step) 0); simpl; intuition (try discriminate; lia).
  - destruct (Z.leb_spec (rate step) (rate (p !!! (i - 1)%nat))),
      (Z.leb_spec (limit step) (limit (p !!! (i - 1)%nat)));
      simpl; intuition (try discriminate; lia).
Qed.

Lemma valid_loop_true p i steps :
  valid_loop p i steps = true <->
  forall k st, steps !! k = Some st -> step_ok p (i + k) st.
Proof.
  revert i. induction steps as [|step rest IH]; intros i.
  - split; [intros _ k st Hk; by rewrite lookup_nil in Hk | done].
  - rewrite valid_loop_cons, IH. split.
    + intros [H0 Hrest] [|k] st Hk; simpl in Hk.
      * injection Hk as <-. by rewrite Nat.add_0_r.
      * replace (i + S k)%nat with (S i + k)%nat by lia. by apply Hrest.
    + intros H. split.
      * specialize (H 0%nat step eq_refl). by rewrite Nat.add_0_r in H.
      * intros k st Hk. specialize (H (S k) st Hk).
        by replace (i + S k)%nat with (S i + k)%nat in H by lia.
Qed.

Lemma progression_is_valid_true p :
  progression_is_valid p = true <->
  forall i st, p !! i = Some st -> step_ok p i st.
Proof. unfold progression_is_valid. by rewrite valid_loop_true. Qed.

Lemma Zsum_cons x l : Zsum (x :: l) = x + Zsum l.
Proof. reflexivity. Qed.

Lemma Zsum_app l1 l2 : Zsum (l1 ++ l2) = Zsum l1 + Zsum l2.
Proof. induction l1; simpl; lia. Qed.

Lemma widths_lookup p i st :
  p !! i = Some st -> widths p !! i = Some (limits_entry p i st).
Proof. intros H. unfold widths. by rewrite list_lookup_imap, H. Qed.

Lemma filled_S p i st :
  p !! i = Some st -> filled p (S i) = filled p i + limits_entry p i st.
Proof.
  intros H. unfold filled.
  rewrite (take_S_r _ _ _ (widths_lookup _ _ _ H)), Zsum_app. simpl. lia.
Qed.

Section valid_progression.
Variable p : list Step.
Hypothesis Hvalid : progression_is_valid p = true.

Lemma valid_rate_succ i a b :
  p !! i = Some a -> p !! S i = Some b -> rate a < rate b.
Proof.
  intros Ha Hb.
  pose proof (proj1 (progression_is_valid_true p) Hvalid _ _ Hb) as H.
  unfold step_ok in H. rewrite decide_False in H by done.
  replace (S i - 1)%nat with i in H by lia.
  rewrite (list_lookup_total_correct _ _ _ Ha) in H.
  destruct (decide _); tauto.
Qed.

Lemma valid_rate_lt i j a b :
  (i < j)%nat -> p !! i = Some a -> p !! j = Some b -> rate a < rate b.
Proof.
  intros Hij Ha. revert b. induction Hij as [|j Hij IH]; intros b Hb.
  - by eapply valid_rate_succ.
  - destruct (lookup_lt_is_Some_2 p j) as [c Hc].
    { apply lookup_lt_Some in Hb. lia. }
    specialize (IH c Hc). pose proof (valid_rate_succ _ _ _ Hc Hb). lia.
Qed.

Lemma valid_rate_inj i j a b :
  p !! i = Some a -> p !! j = Some b -> rate a = rate b -> i = j.
Proof.
  intros Ha Hb Hr.
  destruct (Nat.lt_trichotomy i j) as [H|[H|H]]; [|done|].
  - pose proof (valid_rate_lt _ _ _ _ H Ha Hb). lia.
  - pose proof (valid_rate_lt _ _ _ _ H Hb Ha). lia.
Qed.

Lemma valid_limit_nonneg i st :
  p !! i = Some st -> (i < length p - 1)%nat \/ i = 0%nat -> 0 <= limit st.
Proof.
  revert st. induction i as [|i IH]; intros st Hst Hi.
  - pose proof (proj1 (progression_is_valid_true p) Hvalid _ _ Hst) as H.
    unfold step_ok in H. rewrite decide_True in H by done. tauto.
  - destruct Hi as [Hi|]; [|done].
    pose proof (proj1 (progression_is_valid_true p) Hvalid _ _ Hst) as H.
    unfold step_ok in H. rewrite decide_False in H by done.
    rewrite decide_False in H by lia.
    replace (S i - 1)%nat with i in H by lia.
    destruct (lookup_lt_is_Some_2 p i) as [c Hc]; [lia|].
    rewrite (list_lookup_total_correct _ _ _ Hc) in H.
    assert (0 <= limit c) by (apply IH; [done|lia]). lia.
Qed.

(** A width is never negative, and the sentinel 0 apart it is positive. *)
Lemma width_nonneg i st : p !! i = Some st -> 0 <= limits_entry p i st.
Proof.
  intros Hst. unfold limits_entry.
  pose proof (proj1 (progression_is_valid_true p) Hvalid _ _ Hst) as H.
  unfold step_ok in H.
  destruct (Nat.eqb_spec i 0) as [->|Hi]; simpl.
  { rewrite decide_True in H by done. tauto. }
  rewrite decide_False in H by done.
  destruct (Z.eqb_spec (limit st) 0) as [|Hl]; [lia|].
  destruct (decide _); lia.
Qed.

(** The last tier of a proper progression is unbounded. *)
Lemma width_last i st :
  (exists st', last p = Some st' /\ limit st' = 0) ->
  p !! i = Some st -> S i = length p -> limits_entry p i st = 0.
Proof.
  intros (st' & Hlast & Hzero) Hst Hi.
  rewrite last_lookup in Hlast.
  replace (Nat.pred (length p)) with i in Hlast by lia.
  assert (st' = st) as -> by congruence.
  unfold limits_entry. rewrite Hzero. simpl.
  by rewrite orb_true_r.
Qed.

Lemma init_limits_other i steps (m : gmap Z Z) r :
  (forall j a, steps !! j = Some a -> rate a <> r) ->
  init_limits p i steps m !! r = m !! r.
Proof.
  revert i m. induction steps as [|step rest IH]; intros i m Hnot; simpl; [done|].
  rewrite IH.
  - apply lookup_insert_ne. by apply (Hnot 0%nat).
  - intros j a Ha. by apply (Hnot (S j)).
Qed.

Lemma init_limits_lookup i steps (m : gmap Z Z) k st :
  (forall j a b, steps !! j = Some a -> steps !! k = Some b ->
                 rate a = rate b -> j = k) ->
  steps !! k = Some st ->
  init_limits p i steps m !! rate st = Some (limits_entry p (i + k) st).
Proof.
  revert i m k. induction steps as [|step rest IH]; intros i m k Hinj Hk.
  - by rewrite lookup_nil in Hk.
  - simpl. destruct k as [|k]; simpl in Hk.
    + injection Hk as ->. rewrite Nat.add_0_r.
      rewrite init_limits_other; [apply lookup_insert_eq|].
      intros j a Ha Hr. by specialize (Hinj (S j) a st Ha eq_refl Hr).
    + replace (i + S k)%nat with (S i + k)%nat by lia.
      apply IH; [|done].
      intros j a b Ha Hb Hr. by specialize (Hinj (S j) a b Ha Hb Hr) as [= ->].
Qed.

Lemma limits_lookup i st :
  p !! i = Some st ->
  init_limits p 0 p ∅ !! rate st = Some (limits_entry p i st).
Proof.
  intros Hst. apply (init_limits_lookup 0 p ∅ i st); [|done].
  intros j a b Ha Hb Hr. by eapply valid_rate_inj.
Qed.
End valid_progression.

Lemma init_cursor_fold (l : list Step) (m : gmap Z Z) r :
  foldl (fun m step => <[rate step := 0]> m) m l !! r
  = if decide (r ∈ rate <$> l) then Some 0 else m !! r.
Proof.
  revert m. induction l as [|st l IH]; intros m; cbn [foldl].
  - rewrite fmap_nil. case_decide as H; [|done]. by apply elem_of_nil in H.
  - rewrite IH. rewrite fmap_cons.
    destruct (decide (r ∈ rate <$> l)) as [Hin|Hnin];
      destruct (decide (r ∈ rate st :: (rate <$> l))) as [Hin'|Hnin'].
    + done.
    + exfalso. apply Hnin'. by apply elem_of_cons; right.
    + apply elem_of_cons in Hin' as [->|]; [|done]. apply lookup_insert_eq.
    + rewrite lookup_insert_ne; [done|]. intros <-. apply Hnin'.
      by apply elem_of_cons; left.
Qed.

Lemma init_cursor_lookup p r :
  _init_cursor p !! r = if decide (r ∈ rate <$> p) then Some 0 else None.
Proof. unfold _init_cursor. by rewrite init_cursor_fold, lookup_empty. Qed.

(** ** The invariant of a stack *)

Section invariant.
Variable p : list Step.
Hypothesis Hvalid : progression_is_valid p = true.

Lemma rate_elem_of i st : p !! i = Some st -> rate st ∈ rate <$> p.
Proof. intros H. apply list_elem_of_fmap. exists st. split; [done|]. by eapply list_elem_of_lookup_2. Qed.

Lemma inv_cursor_lookup s i st :
  stack_inv p s -> p !! i = Some st -> is_Some (_cursor s !! rate st).
Proof. intros Hs Hst. apply (inv_keys _ _ Hs). by eapply rate_elem_of. Qed.

Lemma inv_init : stack_inv p (RoyaltyStack_init p).
Proof.
  split; simpl; try done.
  - lia.
  - intros r. rewrite init_cursor_lookup. case_decide; [|split; [by intros [? ?]|done]].
    split; [done|by eexists].
  - lia.
  - intros i st _ Hst. rewrite init_cursor_lookup, decide_True; [done|].
    by eapply rate_elem_of.
  - intros st a Hst. rewrite init_cursor_lookup, decide_True by (by eapply rate_elem_of).
    intros [= <-]. split; [|lia].
    pose proof (width_nonneg p Hvalid _ _ Hst). lia.
Qed.

Lemma inv_reset s : stack_inv p s -> stack_inv p (reset s).
Proof.
  intros Hs. pose proof inv_init as Hi.
  destruct Hs as [Hp Hr Hl _ _ _ _ _].
  split; simpl; rewrite ?Hp; try done; apply Hi.
Qed.

(** Writing the active tier, within its width. *)
Lemma inv_set_at s st v :
  stack_inv p s -> p !! _rate_index s = Some st ->
  (limits_entry p (_rate_index s) st <> 0 ->
   v <= limits_entry p (_rate_index s) st) ->
  ((0 < _rate_index s)%nat -> 0 <= v) ->
  stack_inv p (set_cursor s (rate st) v).
Proof.
  intros Hs Hst Hle Hge. split; simpl; try apply Hs.
  - intros r. rewrite <- (inv_keys _ _ Hs).
    destruct (decide (rate st = r)) as [<-|Hne].
    + rewrite lookup_insert_eq. split; [intros _|by eexists].
      by eapply inv_cursor_lookup.
    + by rewrite lookup_insert_ne.
  - intros i st' Hi Hst'.
    rewrite lookup_insert_ne; [by apply (inv_below _ _ Hs)|].
    intros Hr. pose proof (valid_rate_inj p Hvalid _ _ _ _ Hst Hst' Hr). lia.
  - intros i st' Hi Hst'.
    rewrite lookup_insert_ne; [by apply (inv_above _ _ Hs i)|].
    intros Hr. pose proof (valid_rate_inj p Hvalid _ _ _ _ Hst Hst' Hr). lia.
  - intros st' a Hst'. assert (st' = st) as -> by congruence.
    rewrite lookup_insert_eq. by intros [= <-].
Qed.

(** Filling the active tier and moving to the next one. *)
Lemma inv_advance s st :
  stack_inv p s -> p !! _rate_index s = Some st ->
  limits_entry p (_rate_index s) st <> 0 ->
  stack_inv p
    (set_rate_index (set_cursor s (rate st) (limits_entry p (_rate_index s) st))
       (_rate_index s + 1)).
Proof.
  intros Hs Hst Hw. split; simpl; try apply Hs.
  - apply lookup_lt_Some in Hst. lia.
  - intros r. rewrite <- (inv_keys _ _ Hs).
    destruct (decide (rate st = r)) as [<-|Hne].
    + rewrite lookup_insert_eq. split; [intros _|by eexists].
      by eapply inv_cursor_lookup.
    + by rewrite lookup_insert_ne.
  - intros i st' Hi Hst'.
    destruct (decide (i = _rate_index s)) as [->|Hne].
    + assert (st' = st) as -> by congruence. by rewrite lookup_insert_eq.
    + rewrite lookup_insert_ne; [apply (inv_below _ _ Hs); [lia|done]|].
      intros Hr. by pose proof (valid_rate_inj p Hvalid _ _ _ _ Hst Hst' Hr).
  - intros i st' Hi Hst'.
    rewrite lookup_insert_ne; [apply (inv_above _ _ Hs i); [lia|done]|].
    intros Hr. pose proof (valid_rate_inj p Hvalid _ _ _ _ Hst Hst' Hr). lia.
  - intros st' a Hst'. rewrite lookup_insert_ne.
    + rewrite (inv_above _ _ Hs (_rate_index s + 1)%nat st' ltac:(lia) Hst'). intros [= <-].
      pose proof (width_nonneg p Hvalid _ _ Hst'). split; lia.
    + intros Hr. pose proof (valid_rate_inj p Hvalid _ _ _ _ Hst Hst' Hr). lia.
Qed.

(** Emptying the active tier and moving back to the one below. *)
Lemma inv_retreat s st :
  stack_inv p s -> p !! _rate_index s = Some st -> (0 < _rate_index s)%nat ->
  stack_inv p (set_rate_index (set_cursor s (rate st) 0) (_rate_index s - 1)).
Proof.
  intros Hs Hst Hpos. split; simpl; try apply Hs.
  - pose proof (inv_index _ _ Hs). lia.
  - intros r. rewrite <- (inv_keys _ _ Hs).
    destruct (decide (rate st = r)) as [<-|Hne].
    + rewrite lookup_insert_eq. split; [intros _|by eexists].
      by eapply inv_cursor_lookup.
    + by rewrite lookup_insert_ne.
  - intros i st' Hi Hst'.
    rewrite lookup_insert_ne; [apply (inv_below _ _ Hs); [lia|done]|].
    intros Hr. pose proof (valid_rate_inj p Hvalid _ _ _ _ Hst Hst' Hr). lia.
  - intros i st' Hi Hst'.
    destruct (decide (i = _rate_index s)) as [->|Hne].
    + assert (st' = st) as -> by congruence. by rewrite lookup_insert_eq.
    + rewrite lookup_insert_ne; [apply (inv_above _ _ Hs i); [lia|done]|].
      intros Hr. by pose proof (valid_rate_inj p Hvalid _ _ _ _ Hst Hst' Hr).
  - intros st' a Hst'. rewrite lookup_insert_ne.
    + destruct (inv_below _ _ Hs (_rate_index s - 1)%nat st' ltac:(lia) Hst') as [-> Hw]. intros [= <-].
      pose proof (width_nonneg p Hvalid _ _ Hst'). split; lia.
    + intros Hr. pose proof (valid_rate_inj p Hvalid _ _ _ _ Hst Hst' Hr). lia.
Qed.

(** On a proper progression the active tier always exists. *)
Lemma inv_index_proper s :
  (exists st, last p = Some st /\ limit st = 0) ->
  stack_inv p s -> (_rate_index s < length p)%nat.
Proof.
  intros Hlast Hs. pose proof (inv_index _ _ Hs) as Hle.
  destruct (decide (_rate_index s = length p)) as [Heq|]; [|lia].
  exfalso. destruct Hlast as (st & Hst & Hzero).
  pose proof Hst as Hst'. rewrite last_lookup in Hst'.
  assert (0 < length p)%nat.
  { destruct p; [done|simpl; lia]. }
  destruct (inv_below _ _ Hs (Nat.pred (length p)) st ltac:(lia) Hst') as [_ Hw].
  apply Hw. eapply width_last; eauto. lia.
Qed.

Lemma position_at s st a :
  stack_inv p s -> p !! _rate_index s = Some st ->
  _cursor s !! rate st = Some a ->
  position s = filled p (_rate_index s) + a.
Proof.
  intros Hs Hst Ha. unfold position.
  rewrite (inv_progression _ _ Hs), Hst. simpl. by rewrite Ha.
Qed.

Lemma position_set_at s st a v :
  stack_inv p s -> p !! _rate_index s = Some st ->
  _cursor s !! rate st = Some a ->
  position (set_cursor s (rate st) v) = position s + (v - a).
Proof.
  intros Hs Hst Ha. rewrite (position_at s st a) by done.
  unfold position. simpl. rewrite (inv_progression _ _ Hs), Hst. simpl.
  rewrite lookup_insert_eq. simpl. lia.
Qed.

Lemma position_advance s st a :
  stack_inv p s -> p !! _rate_index s = Some st ->
  _cursor s !! rate st = Some a ->
  position
    (set_rate_index (set_cursor s (rate st) (limits_entry p (_rate_index s) st))
       (_rate_index s + 1))
  = position s + (limits_entry p (_rate_index s) st - a).
Proof.
  intros Hs Hst Ha. rewrite (position_at s st a) by done.
  unfold position. simpl. rewrite (inv_progression _ _ Hs).
  replace (_rate_index s + 1)%nat with (S (_rate_index s)) by lia.
  rewrite (filled_S _ _ _ Hst).
  destruct (p !! S (_rate_index s)) as [st'|] eqn:Hst'; simpl; [|lia].
  rewrite lookup_insert_ne.
  - rewrite (inv_above _ _ Hs (S (_rate_index s)) st' ltac:(lia) Hst'). simpl. lia.
  - intros Hr. pose proof (valid_rate_inj p Hvalid _ _ _ _ Hst Hst' Hr). lia.
Qed.

Lemma position_retreat s st a :
  stack_inv p s -> p !! _rate_index s = Some st ->
  _cursor s !! rate st = Some a -> (0 < _rate_index s)%nat ->
  position (set_rate_index (set_cursor s (rate st) 0) (_rate_index s - 1))
  = position s - a.
Proof.
  intros Hs Hst Ha Hpos. rewrite (position_at s st a) by done.
  unfold position. simpl. rewrite (inv_progression _ _ Hs).
  destruct (lookup_lt_is_Some_2 p (_rate_index s - 1)) as [st' Hst'].
  { apply lookup_lt_Some in Hst. lia. }
  rewrite Hst'. simpl. rewrite lookup_insert_ne.
  - destruct (inv_below _ _ Hs (_rate_index s - 1)%nat st' ltac:(lia) Hst') as [-> _].
    simpl. rewrite <- (filled_S _ _ _ Hst').
    replace (S (_rate_index s - 1)) with (_rate_index s) by lia. lia.
  - intros Hr. pose proof (valid_rate_inj p Hvalid _ _ _ _ Hst Hst' Hr). lia.
Qed.

(** The loop of [push], from a stack that satisfies the invariant. *)
Lemma push_loop_spec fuel s c :
  stack_inv p s -> 0 < c -> (length p - _rate_index s < fuel)%nat ->
  let r := push_loop fuel s c in
  stack_inv p (final r)
  /\ (length (yielded r) <= length p - _rate_index s)%nat
  /\ ((outcome r = Returned /\ Zsum (fst <$> yielded r) = c
       /\ position (final r) = position s + c)
      \/ (outcome r = Raised IndexError /\ _rate_index (final r) = length p)).
Proof.
  revert s c. induction fuel as [|fuel IH]; intros s c Hs Hc Hfuel; [lia|].
  cbn [push_loop]. replace (c >? 0) with true by (symmetry; apply Z.gtb_lt; lia).
  rewrite (inv_rates _ _ Hs), list_lookup_fmap.
  destruct (p !! _rate_index s) as [st|] eqn:Hst; simpl.
  2:{ split; [done|]. split; [lia|]. right. split; [done|].
      apply lookup_ge_None in Hst. pose proof (inv_index _ _ Hs). lia. }
  rewrite (inv_limits _ _ Hs), (limits_lookup p Hvalid _ _ Hst).
  destruct (inv_cursor_lookup s _ _ Hs Hst) as [a Ha]. rewrite Ha.
  pose proof (lookup_lt_Some _ _ _ Hst) as Hlt.
  destruct (inv_at _ _ Hs st a Hst Ha) as [Hle Hge].
  set (w := limits_entry p (_rate_index s) st) in *.
  destruct ((w =? 0) || (a + c <=? w)) eqn:Hb;
    unfold yield, stop; cbn [yielded final outcome].
  - split; [|split; [simpl; lia|left; split; [done|split; [simpl; lia|]]]].
    + apply inv_set_at; try done.
      * intros Hw. fold w. apply orb_true_iff in Hb as [Hb|Hb]; lia.
      * intros Hpos. specialize (Hge Hpos). lia.
    + rewrite (position_set_at s st a) by done. lia.
  - apply orb_false_iff in Hb as [Hw Hgt].
    assert (w <> 0) as Hw' by lia. assert (w < a + c) as Hgt' by lia.
    replace (a + (w - a)) with w by lia.
    pose proof (inv_advance s st Hs Hst Hw') as Hs'.
    pose proof (position_advance s st a Hs Hst Ha) as Hpos'.
    fold w in Hs', Hpos'.
    set (s' := set_rate_index (set_cursor s (rate st) w) (_rate_index s + 1)) in *.
    destruct (IH s' (c - (w - a)) Hs' ltac:(lia) ltac:(simpl; lia))
      as (Hfin & Hlen & Hout).
    split; [done|]. split; [cbn [length]; simpl in Hlen; lia|].
    destruct Hout as [(Ho & Hsum & Hp)|Hout]; [left|by right].
    split; [done|].
    rewrite fmap_cons, Zsum_cons. cbn [fst]. split; lia.
Qed.

(** The loop of [pop]. *)
Lemma pop_loop_spec fuel s c :
  stack_inv p s -> 0 < c -> (_rate_index s < fuel)%nat ->
  let r := pop_loop fuel s c in
  stack_inv p (final r)
  /\ (length (yielded r) <= _rate_index s + 1)%nat
  /\ ((outcome r = Returned /\ Zsum (fst <$> yielded r) = - c
       /\ position (final r) = position s - c)
      \/ (outcome r = Raised IndexError /\ _rate_index (final r) = length p)).
Proof.
  revert s c. induction fuel as [|fuel IH]; intros s c Hs Hc Hfuel; [lia|].
  cbn [pop_loop]. replace (c >? 0) with true by (symmetry; apply Z.gtb_lt; lia).
  rewrite (inv_rates _ _ Hs), list_lookup_fmap.
  destruct (p !! _rate_index s) as [st|] eqn:Hst; simpl.
  2:{ split; [done|]. split; [lia|]. right. split; [done|].
      apply lookup_ge_None in Hst. pose proof (inv_index _ _ Hs). lia. }
  destruct (inv_cursor_lookup s _ _ Hs Hst) as [a Ha]. rewrite Ha.
  destruct (inv_at _ _ Hs st a Hst Ha) as [Hle Hge].
  destruct ((_rate_index s =? 0)%nat || (a - c >=? 0)) eqn:Hb;
    unfold yield, stop; cbn [yielded final outcome].
  - split; [|split; [simpl; lia|left; split; [done|split; [simpl; lia|]]]].
    + apply inv_set_at; try done.
      * intros Hw. specialize (Hle Hw). lia.
      * intros Hpos. apply orb_true_iff in Hb as [Hb|Hb].
        -- apply Nat.eqb_eq in Hb. lia.
        -- apply Z.geb_le in Hb. lia.
    + rewrite (position_set_at s st a) by done. lia.
  - apply orb_false_iff in Hb as [Hidx Hlt].
    apply Nat.eqb_neq in Hidx.
    assert (a - c < 0) as Hlt'.
    { destruct (Z.geb_spec (a - c) 0); [done|lia]. }
    assert (0 < _rate_index s)%nat as Hpos by lia.
    specialize (Hge Hpos).
    pose proof (inv_retreat s st Hs Hst Hpos) as Hs'.
    pose proof (position_retreat s st a Hs Hst Ha Hpos) as Hpos'.
    set (s' := set_rate_index (set_cursor s (rate st) 0) (_rate_index s - 1)) in *.
    destruct (IH s' (c - a) Hs' ltac:(lia) ltac:(simpl; lia))
      as (Hfin & Hlen & Hout).
    split; [done|]. split; [cbn [length]; simpl in Hlen; lia|].
    destruct Hout as [(Ho & Hsum & Hp)|Hout]; [left|by right].
    split; [done|].
    rewrite fmap_cons, Zsum_cons. cbn [fst]. split; lia.
Qed.

(** Where the loop of [push] leaves [_rate_index]: never lower, and no
    higher than the first tier that can take the whole position. *)
Lemma push_loop_cursor fuel s c :
  stack_inv p s -> 0 < c ->
  let r := push_loop fuel s c in
  (_rate_index s <= _rate_index (final r))%nat
  /\ forall k st, (_rate_index s <= k)%nat -> p !! k = Some st ->
       limits_entry p k st = 0 \/ position s + c <= filled p (S k) ->
       (_rate_index (final r) <= k)%nat.
Proof.
  revert s c. induction fuel as [|fuel IH]; intros s c Hs Hc.
  { cbn [push_loop]. destruct (c >? 0); simpl; split; [lia|done|lia|done]. }
  cbn [push_loop]. replace (c >? 0) with true by (symmetry; apply Z.gtb_lt; lia).
  rewrite (inv_rates _ _ Hs), list_lookup_fmap.
  destruct (p !! _rate_index s) as [st|] eqn:Hst; simpl; [|split; [lia|done]].
  rewrite (inv_limits _ _ Hs), (limits_lookup p Hvalid _ _ Hst).
  destruct (inv_cursor_lookup s _ _ Hs Hst) as [a Ha]. rewrite Ha.
  set (w := limits_entry p (_rate_index s) st) in *.
  destruct ((w =? 0) || (a + c <=? w)) eqn:Hb;
    unfold yield, stop; cbn [yielded final outcome]; [simpl; split; [lia|done]|].
  apply orb_false_iff in Hb as [Hw Hgt].
  assert (w <> 0) as Hw' by lia. assert (w < a + c) as Hgt' by lia.
  replace (a + (w - a)) with w by lia.
  pose proof (inv_advance s st Hs Hst Hw') as Hs'.
  pose proof (position_advance s st a Hs Hst Ha) as Hpos'.
  pose proof (position_at s st a Hs Hst Ha) as Hpos.
  pose proof (filled_S _ _ _ Hst) as Hfill.
  fold w in Hs', Hpos', Hfill.
  set (s' := set_rate_index (set_cursor s (rate st) w) (_rate_index s + 1)) in *.
  destruct (IH s' (c - (w - a)) Hs' ltac:(lia)) as [Hmono Hmin].
  split; [simpl in Hmono; lia|].
  intros k st' Hk Hst' Hfit. apply (Hmin k st'); [|done|].
  - destruct (decide (k = _rate_index s)) as [->|]; [|simpl; lia].
    assert (st' = st) as -> by congruence. fold w in Hfit. lia.
  - destruct Hfit as [|Hfit]; [by left|right]. lia.
Qed.

(** Where the loop of [pop] leaves [_rate_index]: never higher, and no
    lower than a tier the position still reaches. *)
Lemma pop_loop_cursor fuel s c :
  stack_inv p s -> 0 < c ->
  let r := pop_loop fuel s c in
  (_rate_index (final r) <= _rate_index s)%nat
  /\ forall k, (k <= _rate_index s)%nat -> filled p k <= position s - c ->
       (k <= _rate_index (final r))%nat.
Proof.
  revert s c. induction fuel as [|fuel IH]; intros s c Hs Hc.
  { cbn [pop_loop]. destruct (c >? 0); simpl; split; [lia|done|lia|done]. }
  cbn [pop_loop]. replace (c >? 0) with true by (symmetry; apply Z.gtb_lt; lia).
  rewrite (inv_rates _ _ Hs), list_lookup_fmap.
  destruct (p !! _rate_index s) as [st|] eqn:Hst; simpl; [|split; [lia|done]].
  destruct (inv_cursor_lookup s _ _ Hs Hst) as [a Ha]. rewrite Ha.
  destruct ((_rate_index s =? 0)%nat || (a - c >=? 0)) eqn:Hb;
    unfold yield, stop; cbn [yielded final outcome]; [simpl; split; [lia|done]|].
  apply orb_false_iff in Hb as [Hidx Hlt].
  apply Nat.eqb_neq in Hidx.
  assert (a - c < 0) as Hlt'.
  { destruct (Z.geb_spec (a - c) 0); [done|lia]. }
  assert (0 < _rate_index s)%nat as Hpos by lia.
  pose proof (inv_retreat s st Hs Hst Hpos) as Hs'.
  pose proof (position_retreat s st a Hs Hst Ha Hpos) as Hpos'.
  pose proof (position_at s st a Hs Hst Ha) as Hposs.
  destruct (inv_at _ _ Hs st a Hst Ha) as [_ Hge]. specialize (Hge Hpos).
  set (s' := set_rate_index (set_cursor s (rate st) 0) (_rate_index s - 1)) in *.
  destruct (IH s' (c - a) Hs' ltac:(lia)) as [Hmono Hmax].
  split; [simpl in Hmono; lia|].
  intros k Hk Hreach. apply Hmax; [|lia].
  destruct (decide (k = _rate_index s)) as [->|]; [lia|simpl; lia].
Qed.

Lemma push_loop_nonpos fuel s c : c <= 0 -> push_loop fuel s c = stop s Returned.
Proof.
  intros Hc. destruct fuel; cbn [push_loop];
    by replace (c >? 0) with false by (symmetry; rewrite Z.gtb_ltb; apply Z.ltb_ge; lia).
Qed.

Lemma pop_loop_nonpos fuel s c : c <= 0 -> pop_loop fuel s c = stop s Returned.
Proof.
  intros Hc. destruct fuel; cbn [pop_loop];
    by replace (c >? 0) with false by (symmetry; rewrite Z.gtb_ltb; apply Z.ltb_ge; lia).
Qed.

(** Below the active tier every width is positive, so [filled] grows. *)
Lemma filled_lt s i j :
  stack_inv p s -> (i < j)%nat -> (j <= _rate_index s)%nat ->
  filled p i < filled p j.
Proof.
  intros Hs Hij Hj. induction Hij as [|j Hij IH].
  - destruct (lookup_lt_is_Some_2 p i) as [st Hst].
    { pose proof (inv_index _ _ Hs). lia. }
    rewrite (filled_S _ _ _ Hst).
    destruct (inv_below _ _ Hs i st ltac:(lia) Hst) as [_ Hw].
    pose proof (width_nonneg p Hvalid _ _ Hst). lia.
  - destruct (lookup_lt_is_Some_2 p j) as [st Hst].
    { pose proof (inv_index _ _ Hs). lia. }
    rewrite (filled_S _ _ _ Hst).
    destruct (inv_below _ _ Hs j st ltac:(lia) Hst) as [_ Hw].
    pose proof (width_nonneg p Hvalid _ _ Hst). specialize (IH ltac:(lia)). lia.
Qed.

Lemma cursor_eq_by_index s1 s2 :
  stack_inv p s1 -> stack_inv p s2 ->
  (forall i st, p !! i = Some st ->
                _cursor s1 !! rate st = _cursor s2 !! rate st) ->
  _cursor s1 = _cursor s2.
Proof.
  intros H1 H2 Hall. apply map_eq. intros r.
  destruct (decide (r ∈ rate <$> p)) as [Hin|Hnin].
  - apply list_elem_of_fmap in Hin as (st & -> & Hin).
    apply list_elem_of_lookup in Hin as [i Hi]. by apply (Hall i).
  - assert (_cursor s1 !! r = None) as ->.
    { apply eq_None_not_Some. by rewrite (inv_keys _ _ H1). }
    symmetry. apply eq_None_not_Some. by rewrite (inv_keys _ _ H2).
Qed.

(** Two stacks at the same position hold the same attributions; their
    active tiers differ only when the position is a tier boundary, which
    is both a full tier and an empty next one. *)
Lemma same_position_le s1 s2 :
  stack_inv p s1 -> stack_inv p s2 ->
  (_rate_index s2 < length p)%nat ->
  (_rate_index s1 <= _rate_index s2)%nat ->
  position s1 = position s2 ->
  _cursor s1 = _cursor s2
  /\ (_rate_index s1 = _rate_index s2
      \/ (_rate_index s2 = S (_rate_index s1)
          /\ active_full s1 = true /\ active_empty s2 = true)).
Proof.
  intros H1 H2 Hlen Hle Hpos.
  destruct (lookup_lt_is_Some_2 p (_rate_index s1)) as [st1 Hst1]; [lia|].
  destruct (lookup_lt_is_Some_2 p (_rate_index s2)) as [st2 Hst2]; [lia|].
  destruct (inv_cursor_lookup s1 _ _ H1 Hst1) as [a1 Ha1].
  destruct (inv_cursor_lookup s2 _ _ H2 Hst2) as [a2 Ha2].
  rewrite (position_at s1 st1 a1), (position_at s2 st2 a2) in Hpos by done.
  destruct (decide (_rate_index s1 = _rate_index s2)) as [Heq|Hne].
  - split; [|by left]. rewrite Heq in *.
    assert (st1 = st2) as -> by congruence.
    assert (a1 = a2) as -> by lia.
    apply cursor_eq_by_index; try done. intros i st Hst.
    destruct (Nat.lt_trichotomy i (_rate_index s2)) as [Hi|[->|Hi]].
    + destruct (inv_below _ _ H1 i st ltac:(lia) Hst) as [-> _].
      by destruct (inv_below _ _ H2 i st Hi Hst) as [-> _].
    + assert (st = st2) as -> by congruence. by rewrite Ha1, Ha2.
    + rewrite (inv_above _ _ H1 i st ltac:(lia) Hst).
      by rewrite (inv_above _ _ H2 i st Hi Hst).
  - assert (_rate_index s1 < _rate_index s2)%nat as Hlt by lia.
    destruct (inv_below _ _ H2 _ _ Hlt Hst1) as [Hfull Hw].
    destruct (inv_at _ _ H1 st1 a1 Hst1 Ha1) as [Hle1 _]. specialize (Hle1 Hw).
    destruct (inv_at _ _ H2 st2 a2 Hst2 Ha2) as [_ Hge2].
    specialize (Hge2 ltac:(lia)).
    pose proof (filled_S _ _ _ Hst1) as Hfill.
    assert (_rate_index s2 = S (_rate_index s1)) as Hidx.
    { destruct (decide (_rate_index s2 = S (_rate_index s1))); [done|].
      pose proof (filled_lt s2 (S (_rate_index s1)) (_rate_index s2) H2
                    ltac:(lia) ltac:(lia)). lia. }
    rewrite Hidx in Hpos.
    assert (a1 = limits_entry p (_rate_index s1) st1) as -> by lia.
    assert (a2 = 0) as -> by lia.
    split; [|right; split; [done|split]].
    + apply cursor_eq_by_index; try done. intros i st Hst.
      destruct (Nat.lt_trichotomy i (_rate_index s1)) as [Hi|[->|Hi]].
      * destruct (inv_below _ _ H1 i st Hi Hst) as [-> _].
        by destruct (inv_below _ _ H2 i st ltac:(lia) Hst) as [-> _].
      * assert (st = st1) as -> by congruence. by rewrite Ha1, Hfull.
      * destruct (decide (i = _rate_index s2)) as [->|].
        -- assert (st = st2) as -> by congruence.
           by rewrite Ha2, (inv_above _ _ H1 _ _ Hlt Hst2).
        -- rewrite (inv_above _ _ H1 i st Hi Hst).
           by rewrite (inv_above _ _ H2 i st ltac:(lia) Hst).
    + unfold active_full.
      rewrite (inv_rates _ _ H1), list_lookup_fmap, Hst1. simpl.
      rewrite (inv_limits _ _ H1), (limits_lookup p Hvalid _ _ Hst1), Ha1.
      apply andb_true_iff. split; [apply negb_true_iff|]; lia.
    + unfold active_empty.
      rewrite (inv_rates _ _ H2), list_lookup_fmap, Hst2. simpl. rewrite Ha2.
      apply andb_true_iff. split; [apply negb_true_iff, Nat.eqb_neq|]; lia.
Qed.

Lemma inv_push s c : stack_inv p s -> stack_inv p (final (push s c)).
Proof.
  intros Hs. unfold push. destruct (Z.le_gt_cases c 0) as [Hc|Hc].
  - by rewrite push_loop_nonpos.
  - apply push_loop_spec; [done|lia|].
    rewrite (inv_rates _ _ Hs), length_fmap. lia.
Qed.

Lemma inv_pop s c : stack_inv p s -> stack_inv p (final (pop s c)).
Proof.
  intros Hs. unfold pop. destruct (Z.le_gt_cases c 0) as [Hc|Hc].
  - by rewrite pop_loop_nonpos.
  - apply pop_loop_spec; [done|lia|].
    rewrite (inv_rates _ _ Hs), length_fmap. pose proof (inv_index _ _ Hs). lia.
Qed.
End invariant.

(** ** The loops never run out of fuel *)

Lemma push_loop_fuel fuel s c :
  (length (_rates s) - _rate_index s < fuel)%nat ->
  outcome (push_loop fuel s c) <> OutOfFuel.
Proof.
  revert s c. induction fuel as [|fuel IH]; intros s c Hfuel; [lia|].
  cbn [push_loop]. destruct (c >? 0); [|done].
  destruct (_rates s !! _rate_index s) as [cr|] eqn:Hcr; [|done].
  destruct (_limits s !! cr) as [w|]; [|done].
  destruct (_cursor s !! cr) as [a|]; [|done].
  destruct (_ || _); [done|].
  unfold yield; cbn [outcome]. apply IH. simpl.
  apply lookup_lt_Some in Hcr. lia.
Qed.

Lemma pop_loop_fuel fuel s c :
  (_rate_index s < fuel)%nat \/ (0 < fuel)%nat /\ (length (_rates s) <= _rate_index s)%nat ->
  outcome (pop_loop fuel s c) <> OutOfFuel.
Proof.
  revert s c. induction fuel as [|fuel IH]; intros s c Hfuel; [lia|].
  cbn [pop_loop]. destruct (c >? 0); [|done].
  destruct (_rates s !! _rate_index s) as [cr|] eqn:Hcr; [|done].
  destruct (_cursor s !! cr) as [a|]; [|done].
  destruct (Nat.eqb_spec (_rate_index s) 0) as [Hz|Hnz]; [done|].
  simpl. destruct (a - c >=? 0); [done|].
  unfold yield; cbn [outcome]. apply IH. simpl.
  apply lookup_lt_Some in Hcr. lia.
Qed.

Lemma push_no_OutOfFuel s c : outcome (push s c) <> OutOfFuel.
Proof. apply push_loop_fuel. lia. Qed.

Lemma pop_no_OutOfFuel s c : outcome (pop s c) <> OutOfFuel.
Proof.
  apply pop_loop_fuel.
  destruct (Nat.lt_ge_cases (_rate_index s) (S (length (_rates s)))); [by left|].
  right. lia.
Qed.

(** ** Reachable stacks *)

Lemma proper_valid p : proper p = true -> progression_is_valid p = true.
Proof. unfold proper. by intros [? _]%andb_true_iff. Qed.

Lemma proper_last p :
  proper p = true -> exists st, last p = Some st /\ limit st = 0.
Proof.
  unfold proper. intros [_ H]%andb_true_iff.
  destruct (last p) as [st|]; [|done]. exists st. split; [done|lia].
Qed.

Lemma reachable_inv p s :
  progression_is_valid p = true -> reachable p s -> stack_inv p s.
Proof.
  intros Hvalid Hs. induction Hs.
  - by apply inv_init.
  - by apply inv_push.
  - by apply inv_pop.
  - by apply inv_reset.
Qed.

Section proper_progression.
Variable p : list Step.
Hypothesis Hproper : proper p = true.

Let Hvalid := proper_valid p Hproper.
Let Hlast := proper_last p Hproper.

Lemma push_proper s c :
  stack_inv p s -> 0 < c ->
  let r := push s c in
  stack_inv p (final r)
  /\ outcome r = Returned
  /\ (length (yielded r) <= length p - _rate_index s)%nat
  /\ Zsum (fst <$> yielded r) = c
  /\ position (final r) = position s + c.
Proof.
  intros Hs Hc. unfold push.
  destruct (push_loop_spec p Hvalid (S (length (_rates s))) s c Hs Hc)
    as (Hfin & Hlen & Hout).
  { rewrite (inv_rates _ _ Hs), length_fmap. lia. }
  destruct Hout as [(Ho & Hsum & Hpos)|[_ Hidx]]; [done|].
  pose proof (inv_index_proper p Hvalid _ Hlast Hfin). lia.
Qed.

Lemma pop_proper s c :
  stack_inv p s -> 0 < c ->
  let r := pop s c in
  stack_inv p (final r)
  /\ outcome r = Returned
  /\ (length (yielded r) <= _rate_index s + 1)%nat
  /\ Zsum (fst <$> yielded r) = - c
  /\ position (final r) = position s - c.
Proof.
  intros Hs Hc. unfold pop.
  destruct (pop_loop_spec p Hvalid (S (length (_rates s))) s c Hs Hc)
    as (Hfin & Hlen & Hout).
  { rewrite (inv_rates _ _ Hs), length_fmap. pose proof (inv_index _ _ Hs). lia. }
  destruct Hout as [(Ho & Hsum & Hpos)|[_ Hidx]]; [done|].
  pose proof (inv_index_proper p Hvalid _ Hlast Hfin). lia.
Qed.

(** One call of allocate on a proper progression: it returns, what it
    yields sums to the delta, it yields no more tuples than there are
    tiers, and the position moves by the delta. *)
Lemma allocate_proper s d :
  stack_inv p s ->
  let r := allocate s d in
  stack_inv p (final r)
  /\ outcome r = Returned
  /\ (length (yielded r) <= length p)%nat
  /\ Zsum (fst <$> yielded r) = d
  /\ position (final r) = position s + d.
Proof.
  intros Hs. unfold allocate.
  pose proof (inv_index_proper p Hvalid _ Hlast Hs) as Hidx.
  destruct (Z.ltb_spec d 0) as [Hneg|Hnonneg].
  - destruct (pop_proper s (d * -1) Hs ltac:(lia)) as (? & ? & ? & ? & ?).
    split_and!; try done; lia.
  - destruct (decide (d = 0)) as [->|Hne].
    + unfold push. rewrite push_loop_nonpos by lia. simpl.
      split_and!; try done; lia.
    + destruct (push_proper s d Hs ltac:(lia)) as (? & ? & ? & ? & ?).
      split_and!; try done; lia.
Qed.
End proper_progression.


Lemma allocate_zero s : allocate s 0 = stop s Returned.
Proof. reflexivity. Qed.

(** * The claims about the allocator *)

(** X11: on a proper progression, from every reachable stack and for every
    delta, allocate returns and what it yields sums to the delta. *)
Theorem allocate_conserves p s d :
  proper p = true -> reachable p s ->
  outcome (allocate s d) = Returned
  /\ Zsum (fst <$> yielded (allocate s d)) = d.
Proof.
  intros Hp Hs.
  pose proof (reachable_inv p s (proper_valid p Hp) Hs) as Hinv.
  destruct (allocate_proper p Hp s d Hinv) as (_ & ? & _ & ? & _). done.
Qed.

(** X12: on a proper progression allocate and reset do not raise, and one
    call of allocate yields no more tuples than there are tiers. *)
Theorem allocate_returns_bounded p s d :
  proper p = true -> reachable p s ->
  outcome (allocate s d) = Returned
  /\ (length (yielded (allocate s d)) <= length p)%nat
  /\ reachable p (final (allocate s d))
  /\ reachable p (reset s).
Proof.
  intros Hp Hs.
  pose proof (reachable_inv p s (proper_valid p Hp) Hs) as Hinv.
  destruct (allocate_proper p Hp s d Hinv) as (_ & ? & ? & _ & _).
  split_and!; try done.
  - unfold allocate. destruct (d <? 0); by constructor.
  - by constructor.
Qed.

(** C1, at the input where the code departs from it: the progression
    [(7, 5000)] is accepted as valid, and allocate(6000) on the fresh stack
    yields [(5000, 7)], 5000 copies of the 6000, and then raises
    IndexError. *)
Theorem single_step_allocate_loses_copies :
  let r := allocate (RoyaltyStack_init single_step) 6000 in
  progression_is_valid single_step = true
  /\ reachable single_step (RoyaltyStack_init single_step)
  /\ yielded r = [(5000, 7)]
  /\ Zsum (fst <$> yielded r) = 5000
  /\ outcome r = Raised IndexError.
Proof. split_and!; try reflexivity. constructor. Qed.

(** The fixture [tvr] is what the constructor builds. *)
Example tvr_init : Right.init TradeVolumeRight test_progression = inr tvr.
Proof. reflexivity. Qed.

(** C5: boundary exactness.  On the progression (7, 5000), (8, 10000),
    (9, 0), from the initial stack, allocate(4999) yields [(4999, 7)], then
    allocate(5002) yields [(1, 7), (5000, 8), (1, 9)], then allocate(7000)
    yields [(7000, 9)]. *)
Theorem boundary_exactness :
  let r1 := allocate rs 4999 in
  let r2 := allocate (final r1) 5002 in
  let r3 := allocate (final r2) 7000 in
  yielded r1 = [(4999, 7)] /\ outcome r1 = Returned
  /\ yielded r2 = [(1, 7); (5000, 8); (1, 9)] /\ outcome r2 = Returned
  /\ yielded r3 = [(7000, 9)] /\ outcome r3 = Returned.
Proof. vm_compute. split_and!; reflexivity. Qed.

(** C6: negative attributions are allowed.  On the same progression, from
    the initial stack, allocate(-500) yields [(-500, 7)] without raising and
    leaves the attribution of tier 0 at -500; allocate(5500) then yields
    [(5500, 7)] and leaves the attribution of tier 0 at 5000 and the cursor
    on tier 0. *)
Theorem negative_attribution_allowed :
  let r1 := allocate rs (-500) in
  let r2 := allocate (final r1) 5500 in
  yielded r1 = [(-500, 7)] /\ outcome r1 = Returned
  /\ _cursor (final r1) !! 7 = Some (-500)
  /\ yielded r2 = [(5500, 7)] /\ outcome r2 = Returned
  /\ _cursor (final r2) !! 7 = Some 5000
  /\ _rate_index (final r2) = 0%nat.
Proof. vm_compute. split_and!; reflexivity. Qed.

(** C7: the invariant of the tiers.  For a progression accepted by
    [progression_is_valid] and a stack reached through any sequence of
    push, pop and reset, every tier has an attribution and a width.  The
    width is what the progression says: the limit of the step for the
    first tier and for a step of limit 0, which marks a tier without an
    upper limit, and otherwise the limit of the step less the limit of the
    step before it.  Below the cursor the attribution is the width, and
    that width is positive; above the cursor the attribution is 0; at the
    cursor it is at most the width when the width is not the mark 0. *)
Theorem tier_invariant p s i cr :
  progression_is_valid p = true -> reachable p s ->
  _rates s !! i = Some cr ->
  exists st a w,
    p !! i = Some st /\ rate st = cr
    /\ _cursor s !! cr = Some a /\ _limits s !! cr = Some w
    /\ (i = 0%nat \/ limit st = 0 -> w = limit st)
    /\ (forall prev, i <> 0%nat -> limit st <> 0 ->
          p !! (i - 1)%nat = Some prev -> w = limit st - limit prev)
    /\ ((i < _rate_index s)%nat -> a = w /\ 0 < w)
    /\ ((_rate_index s < i)%nat -> a = 0)
    /\ (i = _rate_index s -> w <> 0 -> a <= w).
Proof.
  intros Hvalid Hs Hcr.
  pose proof (reachable_inv p s Hvalid Hs) as Hinv.
  rewrite (inv_rates _ _ Hinv), list_lookup_fmap in Hcr.
  destruct (p !! i) as [st|] eqn:Hst; [|done]. injection Hcr as <-.
  destruct (inv_cursor_lookup p s i st Hinv Hst) as [a Ha].
  exists st, a, (limits_entry p i st).
  rewrite (inv_limits _ _ Hinv), (limits_lookup p Hvalid _ _ Hst).
  split_and!; try done.
  - unfold limits_entry. intros [->|Hzero]; [done|].
    rewrite Hzero. by rewrite orb_true_r.
  - intros prev Hi Hlimit Hprev. unfold limits_entry.
    replace (i =? 0)%nat with false by (symmetry; by apply Nat.eqb_neq).
    replace (limit st =? 0) with false by (symmetry; by apply Z.eqb_neq).
    simpl. by rewrite (list_lookup_total_correct _ _ _ Hprev).
  - intros Hi. destruct (inv_below _ _ Hinv i st Hi Hst) as [Hw Hnz].
    pose proof (width_nonneg p Hvalid i st Hst).
    split; [congruence|lia].
  - intros Hi. pose proof (inv_above _ _ Hinv i st Hi Hst). congruence.
  - intros -> Hw. by apply (inv_at _ _ Hinv st a Hst Ha).
Qed.

Lemma tier_invariant_witness :
  exists a w,
    _cursor (final (push rs 12500)) !! 8 = Some a
    /\ _limits (final (push rs 12500)) !! 8 = Some w
    /\ w = 10000 - 5000
    /\ a = w /\ 0 < w.
Proof.
  destruct (tier_invariant test_progression (final (push rs 12500)) 1 8
              eq_refl (reachable_push _ _ 12500 (reachable_init _)) eq_refl)
    as (st & a & w & Hst & _ & Ha & Hw & _ & Hwidth & Hbelow & _ & _).
  injection Hst as <-.
  exists a, w. split; [exact Ha|]. split; [exact Hw|].
  split.
  - apply (Hwidth (mkStep 7 5000)); [discriminate|discriminate|reflexivity].
  - apply Hbelow. vm_compute. lia.
Defined.

(** C2, as the code has it: on a proper progression, from a reachable
    stack, allocate(d) followed by allocate(-d) returns twice and restores
    the attribution of every tier.  The cursor is restored for d >= 0
    unless the active tier was exactly full, and for d <= 0 unless the
    active tier was above the first one and empty. *)
Theorem roundtrip_restores_attributions p s d :
  proper p = true -> reachable p s ->
  let r1 := allocate s d in
  let r2 := allocate (final r1) (- d) in
  outcome r1 = Returned /\ outcome r2 = Returned
  /\ _cursor (final r2) = _cursor s
  /\ (0 <= d -> active_full s = false ->
      _rate_index (final r2) = _rate_index s)
  /\ (d <= 0 -> active_empty s = false ->
      _rate_index (final r2) = _rate_index s).
Proof.
  intros Hp Hreach r1 r2.
  pose proof (proper_valid p Hp) as Hvalid.
  pose proof (proper_last p Hp) as Hlast.
  pose proof (reachable_inv p s Hvalid Hreach) as Hs.
  destruct (allocate_proper p Hp s d Hs) as (Hs1 & Ho1 & _ & _ & Hpos1).
  destruct (allocate_proper p Hp (final (allocate s d)) (- d) Hs1)
    as (Hs2 & Ho2 & _ & _ & Hpos2).
  fold r1 in Hs1, Ho1, Hpos1, Hs2, Ho2, Hpos2. fold r2 in Hs2, Ho2, Hpos2.
  assert (position (final r2) = position s) as Hpos by lia.
  pose proof (inv_index_proper p Hvalid _ Hlast Hs) as Hidx.
  pose proof (inv_index_proper p Hvalid _ Hlast Hs2) as Hidx2.
  assert (_cursor (final r2) = _cursor s
          /\ (_rate_index (final r2) = _rate_index s
              \/ (_rate_index (final r2) = S (_rate_index s)
                  /\ active_full s = true)
              \/ (_rate_index s = S (_rate_index (final r2))
                  /\ active_empty s = true))) as [Hcur Hcases].
  { destruct (Nat.le_gt_cases (_rate_index s) (_rate_index (final r2))) as [Hle|Hgt].
    - destruct (same_position_le p Hvalid s (final r2) Hs Hs2 Hidx2 Hle
                  ltac:(lia)) as [Hc [He|(He & Hf & _)]]; split; auto.
    - destruct (same_position_le p Hvalid (final r2) s Hs2 Hs Hidx
                  ltac:(lia) Hpos) as [Hc [He|(He & _ & Hf)]]; split; auto. }
  split_and!; try done.
  - intros Hd Hfull.
    destruct Hcases as [He|[[_ Hf]|[Hlow _]]]; [done|congruence|].
    exfalso.
    destruct (decide (d = 0)) as [->|Hne].
    { subst r2 r1. change (- 0) with 0 in Hlow.
      rewrite !allocate_zero in Hlow. simpl in Hlow. lia. }
    assert (r1 = push s d) as Hr1.
    { subst r1. unfold allocate. by replace (d <? 0) with false by lia. }
    assert (r2 = pop (final r1) d) as Hr2.
    { subst r2. unfold allocate. replace (- d <? 0) with true by lia.
      by replace (- d * -1) with d by lia. }
    destruct (push_loop_cursor p Hvalid (S (length (_rates s))) s d Hs ltac:(lia))
      as [Hmono _].
    fold (push s d) in Hmono. rewrite <- Hr1 in Hmono.
    destruct (pop_loop_cursor p Hvalid (S (length (_rates (final r1))))
                (final r1) d Hs1 ltac:(lia)) as [_ Hmax].
    fold (pop (final r1) d) in Hmax. rewrite <- Hr2 in Hmax.
    specialize (Hmax (_rate_index s) Hmono).
    destruct (lookup_lt_is_Some_2 p (_rate_index s) Hidx) as [st Hst].
    destruct (inv_cursor_lookup p s _ _ Hs Hst) as [a Ha].
    rewrite (position_at p s st a Hs Hst Ha) in Hpos1.
    destruct (inv_at _ _ Hs st a Hst Ha) as [_ Hge].
    specialize (Hge ltac:(lia)).
    specialize (Hmax ltac:(lia)). lia.
  - intros Hd Hempty.
    destruct Hcases as [He|[[Hhigh _]|[_ Hf]]]; [done| |congruence].
    exfalso.
    destruct (decide (d = 0)) as [->|Hne].
    { subst r2 r1. change (- 0) with 0 in Hhigh.
      rewrite !allocate_zero in Hhigh. simpl in Hhigh. lia. }
    assert (r1 = pop s (- d)) as Hr1.
    { subst r1. unfold allocate. replace (d <? 0) with true by lia.
      by replace (d * -1) with (- d) by lia. }
    assert (r2 = push (final r1) (- d)) as Hr2.
    { subst r2. unfold allocate. by replace (- d <? 0) with false by lia. }
    destruct (pop_loop_cursor p Hvalid (S (length (_rates s))) s (- d) Hs ltac:(lia))
      as [Hmono _].
    fold (pop s (- d)) in Hmono. rewrite <- Hr1 in Hmono.
    destruct (push_loop_cursor p Hvalid (S (length (_rates (final r1))))
                (final r1) (- d) Hs1 ltac:(lia)) as [_ Hmin].
    fold (push (final r1) (- d)) in Hmin. rewrite <- Hr2 in Hmin.
    destruct (lookup_lt_is_Some_2 p (_rate_index s) Hidx) as [st Hst].
    destruct (inv_cursor_lookup p s _ _ Hs Hst) as [a Ha].
    specialize (Hmin (_rate_index s) st Hmono Hst).
    rewrite (position_at p s st a Hs Hst Ha) in Hpos1.
    destruct (inv_at _ _ Hs st a Hst Ha) as [Hle _].
    pose proof (filled_S _ _ _ Hst) as Hfill.
    assert (limits_entry p (_rate_index s) st = 0
            \/ position (final r1) + - d <= filled p (S (_rate_index s))) as Hfit.
    { destruct (decide (limits_entry p (_rate_index s) st = 0)); [by left|right].
      specialize (Hle ltac:(done)). lia. }
    specialize (Hmin Hfit). lia.
Qed.

Lemma roundtrip_restores_attributions_witness :
  let s := final (push rs 4999) in
  let r1 := allocate s 5002 in
  let r2 := allocate (final r1) (- 5002) in
  outcome r1 = Returned /\ outcome r2 = Returned
  /\ _cursor (final r2) = _cursor s
  /\ _rate_index (final r2) = _rate_index s.
Proof.
  destruct (roundtrip_restores_attributions test_progression
              (final (push rs 4999)) 5002 eq_refl
              (reachable_push _ _ 4999 (reachable_init _)))
    as (Ho1 & Ho2 & Hc & Hi & _).
  split; [exact Ho1|]. split; [exact Ho2|]. split; [exact Hc|].
  apply Hi; [discriminate|reflexivity].
Defined.

(** C2 fails as stated: after allocate(5000) on the fresh stack of the test
    progression, tier 0 is exactly full and the cursor is on tier 0;
    allocate(1) followed by allocate(-1) leaves the cursor on tier 1. *)
Lemma roundtrip_cursor_counterexample :
  let s := final (allocate rs 5000) in
  let r1 := allocate s 1 in
  let r2 := allocate (final r1) (- 1) in
  progression_is_valid test_progression = true
  /\ proper test_progression = true
  /\ reachable test_progression s
  /\ active_full s = true
  /\ outcome r1 = Returned /\ outcome r2 = Returned
  /\ _cursor (final r2) = _cursor s
  /\ _rate_index s = 0%nat
  /\ _rate_index (final r2) = 1%nat
  /\ _rate_index (final r2) <> _rate_index s.
Proof.
  split_and!; try reflexivity.
  - apply (reachable_push test_progression rs 5000), reachable_init.
  - vm_compute. discriminate.
Qed.

(** * The claims about validation *)

(** [Right.__init__] raises ValueError on every defective progression,
    unless the progression is a single step whose rate and limit are not
    negative. *)
Theorem Right_init_rejects cls p :
  defective p ->
  length p <> 1%nat
  \/ (exists st, p !! 0%nat = Some st /\ (rate st < 0 \/ limit st < 0)) ->
  Right.init cls p = inl ValueError.
Proof.
  intros Hdef Hlen. unfold Right.init.
  destruct (progression_is_valid p) eqn:Hvalid; [exfalso|done].
  pose proof (proj1 (progression_is_valid_true p) Hvalid) as Hok.
  assert (forall st, p !! 0%nat = Some st -> ~ (rate st < 0 \/ limit st < 0))
    as Hfirst.
  { intros st Hst. specialize (Hok _ _ Hst). unfold step_ok in Hok.
    rewrite decide_True in Hok by done. lia. }
  destruct Hdef as [(st & Hst & Hl)|[(i & a & b & Ha & Hb & Hr)
    |[(i & a & b & Ha & Hb & Hi & Hl)|(st & Hst & Hneg)]]].
  - destruct Hlen as [Hlen|(st' & Hst' & Hneg)]; [|by eapply Hfirst].
    rewrite last_lookup in Hst. pose proof (lookup_lt_Some _ _ _ Hst).
    specialize (Hok _ _ Hst). unfold step_ok in Hok.
    rewrite decide_False in Hok by lia. rewrite decide_True in Hok by lia. lia.
  - pose proof (valid_rate_succ p Hvalid _ _ _ Ha Hb). lia.
  - specialize (Hok _ _ Hb). unfold step_ok in Hok.
    rewrite decide_False in Hok by lia. rewrite decide_False in Hok by lia.
    replace (S i - 1)%nat with i in Hok by lia.
    rewrite (list_lookup_total_correct _ _ _ Ha) in Hok. lia.
  - by eapply Hfirst.
Qed.

(** C3, at the input where the code departs from it: the progression of
    the single step (7, 5000) has a last limit that is not 0, and
    [Right.__init__] accepts it and produces a right. *)
Theorem single_step_accepted :
  (exists st, last single_step = Some st /\ limit st <> 0)
  /\ progression_is_valid single_step = true
  /\ Right.init TradeVolumeRight single_step
     = inr (Right.mk TradeVolumeRight single_step (RoyaltyStack_init single_step)).
Proof.
  split_and!; try reflexivity. exists (mkStep 7 5000). split; [reflexivity|done].
Qed.

(** C4, at the input where the code departs from it: the right built from
    the single step (7, 5000) raises IndexError when 6000 copies are
    allocated, after yielding one tuple. *)
Theorem single_step_allocate_raises :
  exists r,
    Right.init TradeVolumeRight single_step = inr r
    /\ outcome (Right._get_iterator r 6000) = Raised IndexError
    /\ length (yielded (Right._get_iterator r 6000)) = 1%nat.
Proof. eexists. split_and!; reflexivity. Qed.

(** * Decimal arithmetic without rounding *)

Lemma ndigits_loop_le fuel n k :
  1 <= k -> n < 10 ^ k -> 1 <= ndigits_loop fuel n <= k.
Proof.
  revert n k. induction fuel as [|fuel IH]; intros n k Hk Hn; simpl; [lia|].
  destruct (Z.ltb_spec n 10) as [|Hge]; [lia|].
  assert (2 <= k) as Hk2.
  { destruct (decide (k = 1)) as [->|]; [|lia]. change (10 ^ 1) with 10 in Hn. lia. }
  assert (n / 10 < 10 ^ (k - 1)) as Hdiv.
  { apply Z.div_lt_upper_bound; [lia|].
    rewrite <- Z.pow_succ_r by lia. by replace (Z.succ (k - 1)) with k by lia. }
  specialize (IH (n / 10) (k - 1) ltac:(lia) Hdiv). lia.
Qed.

Lemma ndigits_le n k : 1 <= k -> n < 10 ^ k -> 1 <= ndigits n <= k.
Proof. apply ndigits_loop_le. Qed.

(** A coefficient of at most 28 digits with an exponent in range is left as
    it is by [_fix]. *)
Lemma fix_unchanged s c e :
  0 <= c < 10 ^ prec -> Etiny <= e <= Etop ->
  _fix (mkDecimal s c e) = inr (mkDecimal s c e).
Proof.
  intros Hc He. unfold _fix. cbn [_int _exp _sign].
  destruct (Z.eqb_spec c 0) as [->|Hne].
  - do 2 f_equal. unfold Etiny, Etop, Emax, Emin, prec in *. lia.
  - pose proof (ndigits_le c prec ltac:(unfold prec; lia) ltac:(lia)) as Hd.
    replace (ndigits c + e - prec >? Etop) with false
      by (symmetry; rewrite Z.gtb_ltb; apply Z.ltb_ge; lia).
    destruct (Z.ltb_spec (ndigits c + e - prec) Etiny).
    + by replace (e <? Etiny) with false by lia.
    + by replace (e <? ndigits c + e - prec) with false by lia.
Qed.

Lemma strip_zeros_pow k m x e :
  strip_zeros (k + m) (x * 10 ^ Z.of_nat k) e = strip_zeros m x (e + Z.of_nat k).
Proof.
  revert e. induction k as [|k IH]; intros e.
  - simpl. f_equal; lia.
  - cbn [Nat.add strip_zeros].
    replace (x * 10 ^ Z.of_nat (S k)) with (x * 10 ^ Z.of_nat k * 10).
    2:{ rewrite Nat2Z.inj_succ, Z.pow_succ_r by lia. lia. }
    rewrite Z.mod_mul by lia. simpl. rewrite Z.div_mul by lia.
    rewrite IH. f_equal. lia.
Qed.

(** What the loop of the division leaves of an exact quotient that is two
    places finer than the ideal exponent. *)
Lemma strip_zeros_two x e :
  let '(c, e') := strip_zeros 2 x e in
  e <= e' <= e + 2
  /\ c * 10 ^ (e' - e) = x
  /\ (e' < e + 2 -> c mod 10 <> 0).
Proof.
  cbn [strip_zeros].
  destruct (Z.eqb_spec (x mod 10) 0) as [H1|H1].
  - destruct (Z.eqb_spec (x / 10 mod 10) 0) as [H2|H2].
    + split; [lia|]. split; [|lia].
      replace (e + 1 + 1 - e) with 2 by lia. change (10 ^ 2) with 100.
      pose proof (Z.div_mod x 10 ltac:(lia)).
      pose proof (Z.div_mod (x / 10) 10 ltac:(lia)). lia.
    + split; [lia|]. split; [|done].
      replace (e + 1 - e) with 1 by lia. change (10 ^ 1) with 10.
      pose proof (Z.div_mod x 10 ltac:(lia)). lia.
  - split; [lia|]. split; [|done]. replace (e - e) with 0 by lia. simpl. lia.
Qed.

(** The amount due without rounding: when the product of the copies, the
    rate and the coefficient of the price has at most 28 digits, the amount
    has the sign of the product, an exponent at most two below the price's,
    and exactly the value copies * rate * price / 100. *)
Lemma due_amount_exact copies rate price :
  0 <= _int price ->
  Z.abs (copies * rate) * _int price < 10 ^ prec ->
  Etiny + 2 <= _exp price <= Etop ->
  exists due,
    Right.due_amount copies rate price = inr due
    /\ _sign due = xorb (_sign price) (copies * rate <? 0)
    /\ _exp price - 2 <= _exp due <= _exp price
    /\ _int due * 10 ^ (_exp due - (_exp price - 2))
       = Z.abs (copies * rate) * _int price
    /\ (_exp due < _exp price -> _int due mod 10 <> 0).
Proof.
  intros Hc Hp He. destruct price as [s c e]. cbn [_int _exp _sign] in *.
  revert Hp. unfold Right.due_amount. generalize (copies * rate) as n. intros n Hp.
  unfold Decimal_mul, Decimal_of_int. cbn [_int _exp _sign].
  rewrite Z.add_0_r.
  rewrite fix_unchanged by (unfold Etiny, Etop, Emin, Emax, prec in *; lia).
  set (P := c * Z.abs n) in *.
  assert (0 <= P < 10 ^ prec) as HP by (unfold P; lia).
  unfold Decimal_truediv. cbn [_int _exp _sign].
  change (100 <? 0) with false. change (Z.abs 100 =? 0) with false.
  change (Z.abs 100) with 100. cbv iota.
  rewrite xorb_false_r, Z.sub_0_r.
  destruct (Z.eqb_spec P 0) as [HP0|HP0].
  - rewrite fix_unchanged by (unfold Etiny, Etop, Emin, Emax, prec in *; lia).
    eexists. split; [reflexivity|]. cbn [_int _exp _sign].
    split_and!; try done; try lia.
  - pose proof (ndigits_le P prec ltac:(unfold prec; lia) ltac:(lia)) as Hd.
    change (ndigits 100) with 3.
    set (shift := 3 - ndigits P + prec + 1).
    assert (4 <= shift) as Hshift by (unfold shift, prec in *; lia).
    replace (shift >=? 0) with true by lia.
    assert (P * 10 ^ shift = P * 10 ^ (shift - 2) * 100) as Hmul.
    { replace shift with ((shift - 2) + 2) at 1 by lia.
      rewrite Z.pow_add_r by lia. change (10 ^ 2) with 100. lia. }
    rewrite Hmul, Z.mod_mul, Z.div_mul by lia. simpl negb. cbv iota.
    replace (Z.to_nat (e - (e - shift))) with (Z.to_nat (shift - 2) + 2)%nat by lia.
    replace (P * 10 ^ (shift - 2)) with (P * 10 ^ Z.of_nat (Z.to_nat (shift - 2)))
      by (f_equal; f_equal; lia).
    rewrite strip_zeros_pow.
    replace (e - shift + Z.of_nat (Z.to_nat (shift - 2))) with (e - 2) by lia.
    pose proof (strip_zeros_two P (e - 2)) as Hstrip.
    destruct (strip_zeros 2 P (e - 2)) as [c' e'].
    destruct Hstrip as (He' & Hval & Hmod).
    assert (0 <= c' < 10 ^ prec) as Hc'.
    { assert (0 < 10 ^ (e' - (e - 2))) by (apply Z.pow_pos_nonneg; lia). nia. }
    rewrite fix_unchanged by (unfold Etiny, Etop, Emin, Emax, prec in *; lia).
    eexists. split; [reflexivity|]. cbn [_int _exp _sign].
    split_and!; try done; lia.
Qed.

Lemma ndigits_loop_bounds fuel n :
  0 < n < 2 ^ (Z.of_nat fuel + 1) ->
  10 ^ (ndigits_loop fuel n - 1) <= n < 10 ^ ndigits_loop fuel n.
Proof.
  revert n. induction fuel as [|fuel IH]; intros n Hn.
  - simpl in *. change (2 ^ 1) with 2 in Hn. change (10 ^ (1 - 1)) with 1.
    change (10 ^ 1) with 10. lia.
  - cbn [ndigits_loop]. destruct (Z.ltb_spec n 10) as [Hlt|Hge].
    + change (10 ^ (1 - 1)) with 1. change (10 ^ 1) with 10. lia.
    + assert (0 < n / 10) as Hpos by (apply Z.div_str_pos; lia).
      assert (n / 10 < 2 ^ (Z.of_nat fuel + 1)) as Hsmall.
      { apply Z.div_lt_upper_bound; [lia|].
        replace (Z.of_nat (S fuel) + 1) with (Z.succ (Z.of_nat fuel + 1)) in Hn by lia.
        rewrite Z.pow_succ_r in Hn by lia. lia. }
      specialize (IH (n / 10) (conj Hpos Hsmall)).
      set (k := ndigits_loop fuel (n / 10)) in *.
      assert (1 <= k).
      { destruct (Z.le_gt_cases 1 k); [done|].
        assert (10 ^ k = 1 \/ 10 ^ k = 0) as [Hk|Hk].
        { destruct (decide (k = 0)) as [->|]; [by left|right].
          apply Z.pow_neg_r. lia. }
        all: lia. }
      replace (1 + k - 1) with (Z.succ (k - 1)) by lia.
      replace (1 + k) with (Z.succ k) by lia.
      rewrite !Z.pow_succ_r by lia.
      pose proof (Z.div_mod n 10 ltac:(lia)).
      pose proof (Z.mod_pos_bound n 10 ltac:(lia)). lia.
Qed.

Lemma ndigits_bounds n : 0 < n -> 10 ^ (ndigits n - 1) <= n < 10 ^ ndigits n.
Proof.
  intros Hn. apply ndigits_loop_bounds. split; [done|].
  rewrite Z2Nat.id by apply Z.log2_nonneg.
  pose proof (Z.log2_spec n Hn). replace (Z.log2 n + 1) with (Z.succ (Z.log2 n)) by lia.
  lia.
Qed.

Lemma pow10_pos k : 0 <= k -> 0 < 10 ^ k.
Proof. intros. by apply Z.pow_pos_nonneg. Qed.

Lemma ndigits_pos n : 0 < n -> 1 <= ndigits n.
Proof.
  intros Hn. pose proof (ndigits_bounds n Hn) as [_ H].
  destruct (Z.le_gt_cases 1 (ndigits n)); [done|].
  assert (10 ^ ndigits n <= 1).
  { destruct (decide (ndigits n = 0)) as [->|]; [done|].
    rewrite Z.pow_neg_r by lia. lia. }
  lia.
Qed.

(** The shortcut of [_normalize] is not taken when the difference has no
    more digits than the precision. *)
Lemma not_negligible ct co d :
  0 < ct -> 0 < co -> 0 <= d ->
  ct * 10 ^ d - co < 10 ^ prec ->
  ~ (ndigits co - 1 < d + Z.min (-1) (ndigits ct - prec - 2)).
Proof.
  intros Hct Hco Hd Hsmall Hneg.
  pose proof (ndigits_bounds ct Hct) as [Ht _].
  pose proof (ndigits_bounds co Hco) as [_ Ho].
  pose proof (ndigits_pos ct Hct). pose proof (ndigits_pos co Hco).
  set (L := ndigits ct) in *. set (K := ndigits co) in *.
  assert (K + 29 <= L - 1 + d) as Hexp by (unfold prec in *; lia).
  assert (10 ^ (K + 29) <= 10 ^ (L - 1 + d)) as H1
    by (apply Z.pow_le_mono_r; lia).
  rewrite Z.pow_add_r in H1 by lia. rewrite (Z.pow_add_r 10 (L - 1) d) in H1 by lia.
  assert (0 < 10 ^ d) by (apply Z.pow_pos_nonneg; lia).
  assert (0 < 10 ^ K) by (apply Z.pow_pos_nonneg; lia).
  assert (10 ^ (L - 1) * 10 ^ d <= ct * 10 ^ d) by nia.
  change (10 ^ 29) with 100000000000000000000000000000 in H1.
  unfold prec in Hsmall. change (10 ^ 28) with 10000000000000000000000000000 in Hsmall.
  lia.
Qed.

(** Subtraction without rounding. *)
Lemma Decimal_sub_exact a b :
  0 <= _int a -> 0 <= _int b ->
  let m := Z.min (_exp a) (_exp b) in
  Z.abs (aligned m a - aligned m b) < 10 ^ prec ->
  Etiny <= m -> _exp a <= Etop -> _exp b <= Etop ->
  exists r,
    Decimal_sub a b = inr r
    /\ _exp r = m
    /\ 0 <= _int r
    /\ signed r = aligned m a - aligned m b.
Proof.
  destruct a as [sa ca ea], b as [sb cb eb].
  intros Hca Hcb m HD Hm Hea Heb. unfold aligned, signed in *.
  cbn [_int _exp _sign] in *.
  assert (0 <= ea - m) as Hda by lia. assert (0 <= eb - m) as Hdb by lia.
  pose proof (pow10_pos _ Hda) as Hpa. pose proof (pow10_pos _ Hdb) as Hpb.
  set (A := ca * 10 ^ (ea - m)) in *. set (B := cb * 10 ^ (eb - m)) in *.
  assert (0 <= A) as HA by (unfold A; nia).
  assert (0 <= B) as HB by (unfold B; nia).
  unfold Decimal_sub, Decimal_add, copy_negate. cbn [_int _exp _sign]. fold m.
  destruct (Z.eqb_spec ca 0) as [Ha0|Ha0]; destruct (Z.eqb_spec cb 0) as [Hb0|Hb0];
    cbn [andb].
  - subst ca cb. rewrite fix_unchanged by (unfold prec, Etiny, Etop, Emin, Emax in *; lia).
    eexists. split; [reflexivity|]. cbn [_int _exp _sign].
    split_and!; try done. destruct sa, sb; simpl; lia.
  - subst ca. unfold _rescale. cbn [_int _exp _sign].
    assert ((if sa then - 0 else 0) * 10 ^ (ea - m) = 0) as Hz by (destruct sa; lia).
    rewrite Hz in HD.
    assert (B < 10 ^ prec) as HBp by (destruct sb; fold B in HD; lia).
    assert (eb - m < prec) as Hlt.
    { destruct (Z.lt_ge_cases (eb - m) prec); [done|].
      assert (10 ^ prec <= 10 ^ (eb - m)) by (apply Z.pow_le_mono_r; unfold prec in *; lia).
      unfold B in HBp. nia. }
    replace (Z.max m (eb - prec - 1)) with m by (unfold prec in *; lia).
    fold B. rewrite fix_unchanged by (unfold prec, Etiny, Etop, Emin, Emax in *; lia).
    eexists. split; [reflexivity|]. cbn [_int _exp _sign].
    split_and!; try done. rewrite Hz. destruct sb; simpl; fold B; lia.
  - subst cb. unfold _rescale. cbn [_int _exp _sign].
    assert ((if sb then - 0 else 0) * 10 ^ (eb - m) = 0) as Hz by (destruct sb; lia).
    rewrite Hz in HD.
    assert (A < 10 ^ prec) as HAp by (destruct sa; fold A in HD; lia).
    assert (ea - m < prec) as Hlt.
    { destruct (Z.lt_ge_cases (ea - m) prec); [done|].
      assert (10 ^ prec <= 10 ^ (ea - m)) by (apply Z.pow_le_mono_r; unfold prec in *; lia).
      unfold A in HAp. nia. }
    replace (Z.max m (ea - prec - 1)) with m by (unfold prec in *; lia).
    fold A. rewrite fix_unchanged by (unfold prec, Etiny, Etop, Emin, Emax in *; lia).
    eexists. split; [reflexivity|]. cbn [_int _exp _sign].
    split_and!; try done. rewrite Hz. destruct sa; simpl; fold A; lia.
  - assert (0 < ca) as Hca' by lia. assert (0 < cb) as Hcb' by lia.
    pose proof (ndigits_bounds ca Hca') as Hna.
    pose proof (ndigits_bounds cb Hcb') as Hnb.
    assert (A - B < 10 ^ prec /\ B - A < 10 ^ prec) as [HAB HBA].
    { fold A B in HD. destruct sa, sb; lia. }
    subst A B m.
    destruct (Z.ltb_spec ea eb) as [Hlt|Hge]; cbn [_int _exp _sign].
    + rewrite (Z.min_l ea eb) in * by lia.
      rewrite Z.sub_diag, Z.pow_0_r, !Z.mul_1_r in *.
      pose proof (not_negligible cb ca (eb - ea) Hcb' Hca' ltac:(lia) HBA) as Hnn.
      replace (ndigits ca + ea - 1 <? eb + Z.min (-1) (ndigits cb - prec - 2))
        with false by lia.
      clear Hnn. remember (cb * 10 ^ (eb - ea)) as B eqn:HeqB.
      destruct sa, sb; cbn [negb eqb];
        repeat match goal with
        | |- context [?x =? ?y] => destruct (Z.eqb_spec x y)
        | |- context [?x <? ?y] => destruct (Z.ltb_spec x y)
        end;
        rewrite fix_unchanged by (unfold prec, Etiny, Etop, Emin, Emax in *; lia);
        (eexists; split; [reflexivity|]; cbn [_int _exp _sign];
         split_and!; try done; lia).
    + rewrite (Z.min_r ea eb) in * by lia.
      rewrite Z.sub_diag, Z.pow_0_r, !Z.mul_1_r in *.
      pose proof (not_negligible ca cb (ea - eb) Hca' Hcb' ltac:(lia) HAB) as Hnn.
      replace (ndigits cb + eb - 1 <? ea + Z.min (-1) (ndigits ca - prec - 2))
        with false by lia.
      clear Hnn. remember (ca * 10 ^ (ea - eb)) as A eqn:HeqA.
      destruct sa, sb; cbn [negb eqb];
        repeat match goal with
        | |- context [?x =? ?y] => destruct (Z.eqb_spec x y)
        | |- context [?x <? ?y] => destruct (Z.ltb_spec x y)
        end;
        rewrite fix_unchanged by (unfold prec, Etiny, Etop, Emin, Emax in *; lia);
        (eexists; split; [reflexivity|]; cbn [_int _exp _sign];
         split_and!; try done; lia).
Qed.


(** * The claims about the report *)

Lemma report_loop_lookup self stmt tuples stacks fin out n item :
  yielded (Right.report_loop self stmt tuples stacks fin out) !! n = Some item ->
  exists tuple,
    tuples !! n = Some tuple /\ Right.report_item self stmt tuple = inr item.
Proof.
  revert stacks n. induction tuples as [|tuple tuples IH]; intros stacks n Hn.
  - by destruct stacks.
  - destruct stacks as [|stack stacks]; [done|]. cbn [Right.report_loop] in Hn.
    destruct (Right.report_item self stmt tuple) as [e|it] eqn:Hit; [done|].
    destruct n as [|n]; simpl in Hn.
    + injection Hn as <-. by exists tuple.
    + destruct (IH stacks n Hn) as (t & Ht & Hitem). by exists t.
Qed.

(** C8, as the code has it: every report line that [apply_statement]
    yields is built from the tuple the allocator yielded at the same place,
    and its amount due is what the Decimal arithmetic makes of
    copies * rate * price / 100.  When the product of the copies, the rate
    and the coefficient of the price has at most 28 digits, that amount is
    exact: its value is copies * rate * price / 100, and it has at most two
    decimal places more than the price and never fewer, a trailing zero
    being dropped only in those two places. *)
Theorem due_of_report_item self stmt n item :
  yielded (Right.apply_statement self stmt) !! n = Some item ->
  let price := Statement.price stmt in
  let due := ReportItem.due item in
  exists copies rate,
    yielded (Right._get_iterator self (Statement.copies stmt)) !! n
      = Some (copies, rate)
    /\ ReportItem.copies item = copies
    /\ ReportItem.price item = price
    /\ Right.due_amount copies rate price = inr due
    /\ (0 <= _int price ->
        Z.abs (copies * rate) * _int price < 10 ^ prec ->
        Etiny + 2 <= _exp price <= Etop ->
        _sign due = xorb (_sign price) (copies * rate <? 0)
        /\ _exp price - 2 <= _exp due <= _exp price
        /\ _int due * 10 ^ (_exp due - (_exp price - 2))
           = Z.abs (copies * rate) * _int price
        /\ (_exp due < _exp price -> _int due mod 10 <> 0)).
Proof.
  intros Hn price due. unfold Right.apply_statement in Hn.
  apply report_loop_lookup in Hn as ([copies rate] & Ht & Hitem).
  exists copies, rate. unfold Right.report_item in Hitem.
  destruct (Right.name self) as [e|right_name]; [done|].
  destruct (Right.due_amount copies rate (Statement.price stmt)) as [e|d] eqn:Hd;
    [done|].
  injection Hitem as <-. subst due price. cbn [ReportItem.due ReportItem.copies
    ReportItem.price].
  split_and!; try done.
  intros Hc Hp He.
  destruct (due_amount_exact copies rate (Statement.price stmt) Hc Hp He)
    as (d' & Hd' & Hfacts).
  rewrite Hd in Hd'. by injection Hd' as <-.
Qed.

Lemma due_of_report_item_witness :
  exists copies rate,
    yielded (Right._get_iterator tvr (Statement.copies tvs3)) !! 0%nat
      = Some (copies, rate)
    /\ Right.due_amount copies rate (Statement.price tvs3)
       = inr (mkDecimal true 10458 (-2))
    /\ 10458 * 10 ^ 2 = Z.abs (copies * rate) * 3320.
Proof.
  destruct (due_of_report_item tvr tvs3 0
              (ReportItem.mk (datetime.mkdate 2017 6 30) "trade volume" (-45)
                 "7%" (mkDecimal false 3320 (-2)) None
                 (mkDecimal true 10458 (-2)))
              eq_refl)
    as (copies & rate & Ht & _ & _ & Hd & Hexact).
  exists copies, rate. split; [exact Ht|]. split; [exact Hd|].
  vm_compute in Ht. injection Ht as <- <-.
  destruct Hexact as (_ & _ & Hval & _).
  - discriminate.
  - reflexivity.
  - split; discriminate.
  - exact Hval.
Defined.

(** C8 fails as stated.  The first statement of the test suite, 143 copies
    at 28.40, gives the line due 284.284: three decimal places where the
    price has two.  And with a price of 29 digits the product is rounded:
    one copy at 7% of 1.0000000000000000000000000001 is due
    0.07000000000000000000000000001, not
    0.070000000000000000000000000007. *)
Lemma due_precision_counterexample :
  (exists item,
     yielded (Right.apply_statement tvr tvs1) = [item]
     /\ ReportItem.due item = mkDecimal false 284284 (-3)
     /\ _exp (ReportItem.due item) <> _exp (Statement.price tvs1))
  /\ (let price := mkDecimal false (10 ^ 28 + 1) (-28) in
      let stmt :=
        Statement.mk TradeVolumeStatement (datetime.mkdate 2016 6 30) 1 price in
      exists item,
        yielded (Right.apply_statement tvr stmt) = [item]
        /\ ReportItem.copies item = 1
        /\ ReportItem.due item = mkDecimal false (7 * 10 ^ 27 + 1) (-29)
        /\ _int (ReportItem.due item)
             * 10 ^ (_exp (ReportItem.due item) - (_exp price - 2))
           <> 1 * 7 * _int price).
Proof.
  split.
  - eexists. split; [vm_compute; reflexivity|]. split; [reflexivity|].
    vm_compute. discriminate.
  - eexists. split; [vm_compute; reflexivity|]. split_and!; try reflexivity.
    vm_compute. discriminate.
Qed.

(** ** Sorting the statements *)

Lemma date_ltb_asym a b : datetime.ltb a b = true -> datetime.ltb b a = false.
Proof.
  unfold datetime.ltb. destruct a as [ya ma da], b as [yb mb db]; simpl.
  intros H.
  repeat match goal with
  | H : _ || _ = true |- _ => apply orb_true_iff in H as [H|H]
  | H : _ && _ = true |- _ => apply andb_true_iff in H as [? H]
  end;
  repeat match goal with
  | |- _ || _ = false => apply orb_false_iff; split
  | |- _ && _ = false => apply andb_false_iff
  end; try lia;
  try (destruct (Z.eqb_spec yb ya); [right|left; done]);
  repeat match goal with
  | |- _ || _ = false => apply orb_false_iff; split
  | |- _ && _ = false => apply andb_false_iff
  end; try lia;
  try (destruct (Z.eqb_spec mb ma); [right; lia|left; done]).
Qed.

Lemma date_ltb_irrefl a : datetime.ltb a a = false.
Proof.
  destruct (datetime.ltb a a) eqn:H; [|done].
  by rewrite (date_ltb_asym _ _ H) in H.
Qed.

#[global] Instance date_le_refl : Reflexive datetime.le.
Proof. intros a. apply date_ltb_irrefl. Qed.

#[global] Instance date_le_trans : Transitive datetime.le.
Proof.
  intros a b c. unfold datetime.le, datetime.ltb.
  destruct a as [ya ma da], b as [yb mb db], c as [yc mc dc]; simpl.
  intros H1 H2.
  apply orb_false_iff in H1 as [H1a H1b]. apply orb_false_iff in H2 as [H2a H2b].
  assert (ya <= yb) by lia. assert (yb <= yc) by lia.
  apply orb_false_iff. split; [lia|].
  destruct (Z.eqb_spec yc ya) as [->|]; [|done]. simpl.
  assert (yb = ya) as -> by lia.
  rewrite Z.eqb_refl in H1b, H2b. simpl in H1b, H2b.
  apply orb_false_iff in H1b as [H1c H1d]. apply orb_false_iff in H2b as [H2c H2d].
  apply orb_false_iff. split; [lia|].
  destruct (Z.eqb_spec mc ma) as [->|]; [|done]. simpl.
  assert (mb = ma) as -> by lia.
  rewrite Z.eqb_refl in H1d, H2d. simpl in H1d, H2d. lia.
Qed.

#[global] Instance by_date_trans : Transitive by_date.
Proof. intros x y z. unfold by_date. apply date_le_trans. Qed.

Lemma insert_by_date_perm s l : Agreement.insert_by_date s l ≡ₚ s :: l.
Proof.
  induction l as [|x l IH]; simpl; [done|].
  destruct (datetime.ltb _ _); [|done].
  rewrite IH. apply Permutation_swap.
Qed.

Lemma sort_by_date_perm l : Agreement.sort_by_date l ≡ₚ l.
Proof.
  induction l as [|x l IH]; simpl; [done|].
  by rewrite insert_by_date_perm, IH.
Qed.

Lemma insert_by_date_sorted s l :
  Sorted by_date l -> Sorted by_date (Agreement.insert_by_date s l).
Proof.
  induction l as [|x l IH]; intros Hl; simpl.
  - by repeat constructor.
  - destruct (datetime.ltb (Statement.date x) (Statement.date s)) eqn:Hlt.
    + inversion Hl as [|? ? Hl' Hhd]; subst. constructor; [by apply IH|].
      destruct l as [|y l]; simpl.
      * constructor. by apply date_ltb_asym.
      * destruct (datetime.ltb (Statement.date y) (Statement.date s)).
        -- constructor. by inversion Hhd.
        -- constructor. by apply date_ltb_asym.
    + constructor; [done|]. by constructor.
Qed.

Lemma sort_by_date_sorted l : Sorted by_date (Agreement.sort_by_date l).
Proof.
  induction l as [|x l IH]; simpl; [constructor|]. by apply insert_by_date_sorted.
Qed.

(** A list that is in the order of the dates is left as it is. *)
Lemma sort_by_date_id l : Sorted by_date l -> Agreement.sort_by_date l = l.
Proof.
  induction l as [|x l IH]; intros Hl; simpl; [done|].
  inversion Hl as [|? ? Hl' Hhd]; subst. rewrite IH by done.
  destruct l as [|y l]; simpl; [done|].
  inversion Hhd as [|? ? Hxy]; subst. unfold by_date, datetime.le in Hxy.
  by rewrite Hxy.
Qed.

(** The sort is stable: the statements of one date keep their order. *)
Lemma insert_by_date_stable d s l :
  filter (fun x => Statement.date x = d) (Agreement.insert_by_date s l)
  = filter (fun x => Statement.date x = d) (s :: l).
Proof.
  induction l as [|x l IH]; simpl; [done|].
  destruct (datetime.ltb (Statement.date x) (Statement.date s)) eqn:Hlt; [|done].
  rewrite filter_cons, IH, !filter_cons.
  destruct (decide (Statement.date x = d)) as [Hx|Hx];
    destruct (decide (Statement.date s = d)) as [Hs|Hs]; try done.
  rewrite Hx, Hs, date_ltb_irrefl in Hlt. done.
Qed.

Lemma sort_by_date_stable d l :
  filter (fun x => Statement.date x = d) (Agreement.sort_by_date l)
  = filter (fun x => Statement.date x = d) l.
Proof.
  induction l as [|x l IH]; simpl; [done|].
  by rewrite insert_by_date_stable, !filter_cons, IH.
Qed.

(** ** The running advance *)

Lemma balanced_nil adv : balanced adv [].
Proof. intros k item Hk. by rewrite lookup_nil in Hk. Qed.

Lemma balanced_cons adv b item out :
  Decimal_sub adv (ReportItem.due item) = inr b ->
  ReportItem.advance_left item = Some b ->
  balanced b out -> balanced adv (item :: out).
Proof.
  intros Hsub Hleft Hout [|k] it Hk; simpl in Hk.
  - injection Hk as <-. exists b. split; [|done].
    unfold running_balance. cbn [take fmap list_fmap foldl subtract].
    by destruct out.
  - destruct (Hout k it Hk) as (b' & Hb' & Hit). exists b'. split; [|done].
    unfold running_balance in *. cbn [take fmap list_fmap foldl subtract].
    rewrite Hsub. exact Hb'.
Qed.

Lemma balanced_app adv adv' out out' :
  balanced adv out ->
  running_balance adv (ReportItem.due <$> out) = inr adv' ->
  balanced adv' out' -> balanced adv (out ++ out').
Proof.
  intros Hout Hrun Hout' k item Hk.
  destruct (decide (k < length out)%nat) as [Hlt|Hge].
  - rewrite lookup_app_l in Hk by done.
    destruct (Hout k item Hk) as (b & Hb & Hit). exists b. split; [|done].
    by rewrite take_app_le by lia.
  - rewrite lookup_app_r in Hk by lia.
    destruct (Hout' _ item Hk) as (b & Hb & Hit). exists b. split; [|done].
    rewrite take_app_ge by lia. rewrite fmap_app.
    unfold running_balance in *. rewrite foldl_app, Hrun.
    by replace (S k - length out)%nat with (S (k - length out)) by lia.
Qed.

(** The running advance without rounding. *)
Lemma foldl_min_le a l : foldl Z.min a l <= a.
Proof.
  revert a. induction l as [|x l IH]; intros a; simpl; [lia|].
  specialize (IH (Z.min a x)). lia.
Qed.

Lemma foldl_min_Forall a l : Forall (fun x => foldl Z.min a l <= x) l.
Proof.
  revert a. induction l as [|x l IH]; intros a; simpl; constructor.
  - pose proof (foldl_min_le (Z.min a x) l). lia.
  - apply IH.
Qed.

Lemma aligned_shift M m x :
  M <= m -> m <= _exp x -> aligned m x * 10 ^ (m - M) = aligned M x.
Proof.
  intros H1 H2. unfold aligned. rewrite <- Z.mul_assoc, <- Z.pow_add_r by lia.
  do 2 f_equal. lia.
Qed.

Lemma running_balance_exact adv dues :
  0 <= _int adv -> _exp adv <= Etop ->
  Forall (fun d => 0 <= _int d /\ _exp d <= Etop) dues ->
  Etiny <= finest adv dues ->
  (forall k, (k <= length dues)%nat -> fits adv (take k dues)) ->
  exists r,
    running_balance adv dues = inr r
    /\ _exp r = finest adv dues
    /\ 0 <= _int r
    /\ signed r = exact_balance (finest adv dues) adv dues.
Proof.
  revert adv. induction dues as [|d ds IH]; intros adv Hc He Hds Hm Hfits.
  - exists adv. unfold running_balance, finest, exact_balance, aligned. simpl.
    split_and!; try done. rewrite Z.sub_diag. simpl. lia.
  - inversion Hds as [|? ? [Hcd Hed] Hds']; subst.
    assert (finest adv (d :: ds) <= Z.min (_exp adv) (_exp d)) as Hle
      by apply (foldl_min_le (Z.min (_exp adv) (_exp d))).
    destruct (Decimal_sub_exact adv d Hc Hcd) as (r1 & Hsub & Hexp & Hint & Hval);
      try done; try lia.
    { specialize (Hfits 1%nat ltac:(simpl; lia)). unfold fits in Hfits.
      cbn [take] in Hfits. rewrite take_0 in Hfits.
      unfold finest, exact_balance in Hfits.
      cbn [fmap list_fmap foldl Zsum foldr] in Hfits. lia. }
    assert (forall l, finest r1 l = finest adv (d :: l)) as Hfin.
    { intros l. unfold finest. simpl. by rewrite Hexp. }
    assert (forall l, exact_balance (finest r1 l) r1 l
                      = exact_balance (finest adv (d :: l)) adv (d :: l)) as Hbal.
    { intros l. rewrite Hfin. set (M := finest adv (d :: l)).
      assert (M <= Z.min (_exp adv) (_exp d)) as HM
        by apply (foldl_min_le (Z.min (_exp adv) (_exp d))).
      unfold exact_balance. rewrite fmap_cons, Zsum_cons.
      rewrite <- (aligned_shift M (_exp r1) r1) by lia.
      unfold aligned at 1. rewrite Z.sub_diag, Z.mul_1_r, Hval.
      rewrite Z.mul_sub_distr_r, Hexp, !aligned_shift by lia. lia. }
    destruct (IH r1) as (r & Hrun & Hexpr & Hintr & Hvalr); try done; try lia.
    { rewrite Hfin. done. }
    { intros k Hk. unfold fits. rewrite Hbal.
      apply (Hfits (S k)). simpl. lia. }
    exists r. unfold running_balance in *. cbn [foldl subtract]. rewrite Hsub.
    split; [done|]. by rewrite <- Hbal, <- Hfin.
Qed.

(** What [settle] yields: items of the generator, in order, each with its
    advance. *)
Lemma settle_spec adv its stacks :
  let '(out, adv', stopped) := Agreement.settle adv its stacks in
  balanced adv out
  /\ running_balance adv (ReportItem.due <$> out) = inr adv'
  /\ Forall (fun item => exists it, it ∈ its
               /\ ReportItem.date item = ReportItem.date it
               /\ ReportItem.price item = ReportItem.price it
               /\ ReportItem.due item = ReportItem.due it) out
  /\ (forall e stack, stopped = Some (e, stack) -> stack ∈ stacks).
Proof.
  revert adv stacks. induction its as [|item its IH]; intros adv stacks.
  - simpl. split_and!; [apply balanced_nil|done|constructor|done].
  - destruct stacks as [|stack stacks]; simpl.
    { split_and!; [apply balanced_nil|done|constructor|done]. }
    destruct (Decimal_sub adv (ReportItem.due item)) as [e|b] eqn:Hsub.
    { split_and!; [apply balanced_nil|done|constructor|].
      intros ? ? [= <- <-]. by left. }
    specialize (IH b stacks).
    destruct (Agreement.settle b its stacks) as [[out adv'] stopped].
    destruct IH as (Hbal & Hrun & Hall & Hstop).
    split_and!.
    + by apply (balanced_cons adv b).
    + unfold running_balance in *. cbn [fmap list_fmap foldl subtract].
      cbn [ReportItem.set_advance_left ReportItem.due]. by rewrite Hsub.
    + constructor.
      * exists item. split; [by left|done].
      * eapply Forall_impl; [exact Hall|].
        intros x (it & Hit & ?). exists it. split; [by right|done].
    + intros e st Hst. right. by eapply Hstop.
Qed.

(** ** What the generators leave unchanged *)

(** [push] and [pop] change only [_rate_index] and [_cursor]: whatever they
    did, [reset] gives the same stack. *)
Lemma push_loop_reset fuel s c :
  reset (final (push_loop fuel s c)) = reset s
  /\ Forall (fun st => reset st = reset s) (suspended (push_loop fuel s c)).
Proof.
  revert s c. induction fuel as [|fuel IH]; intros s c; cbn [push_loop].
  { destruct (c >? 0); simpl; by split. }
  destruct (c >? 0); [|by split].
  destruct (_rates s !! _rate_index s) as [cr|]; [|by split].
  destruct (_limits s !! cr) as [w|]; [|by split].
  destruct (_cursor s !! cr) as [a|]; [|by split].
  destruct (_ || _); unfold yield, stop; cbn [final suspended].
  - split; [done|]. by repeat constructor.
  - destruct (IH (set_rate_index (set_cursor s cr (a + (w - a)))
                    (_rate_index s + 1)) (c - (w - a))) as [Hfin Hsus].
    split; [exact Hfin|]. constructor; [done|exact Hsus].
Qed.

Lemma pop_loop_reset fuel s c :
  reset (final (pop_loop fuel s c)) = reset s
  /\ Forall (fun st => reset st = reset s) (suspended (pop_loop fuel s c)).
Proof.
  revert s c. induction fuel as [|fuel IH]; intros s c; cbn [pop_loop].
  { destruct (c >? 0); simpl; by split. }
  destruct (c >? 0); [|by split].
  destruct (_rates s !! _rate_index s) as [cr|]; [|by split].
  destruct (_cursor s !! cr) as [a|]; [|by split].
  destruct (_ || _); unfold yield, stop; cbn [final suspended].
  - split; [done|]. by repeat constructor.
  - destruct (IH (set_rate_index (set_cursor s cr 0) (_rate_index s - 1))
                (c - a)) as [Hfin Hsus].
    split; [exact Hfin|]. constructor; [done|exact Hsus].
Qed.

Lemma report_loop_reset self stmt tuples stacks fin out s0 :
  reset fin = reset s0 ->
  Forall (fun st => reset st = reset s0) stacks ->
  let r := Right.report_loop self stmt tuples stacks fin out in
  reset (final r) = reset s0
  /\ Forall (fun st => reset st = reset s0) (suspended r).
Proof.
  intros Hfin. revert stacks.
  induction tuples as [|tuple tuples IH]; intros stacks Hstacks; simpl.
  { by destruct stacks. }
  destruct stacks as [|stack stacks]; [by split|].
  inversion Hstacks as [|? ? Hst Hrest]; subst.
  destruct (Right.report_item self stmt tuple) as [e|item]; simpl; [by split|].
  destruct (IH stacks Hrest) as [H1 H2]. split; [done|by constructor].
Qed.

Lemma apply_statement_reset self stmt :
  let r := Right.apply_statement self stmt in
  reset (final r) = reset (Right._royalty_stack self)
  /\ Forall (fun st => reset st = reset (Right._royalty_stack self)) (suspended r).
Proof.
  unfold Right.apply_statement, Right._get_iterator.
  destruct (Statement.copies stmt <? 0).
  - destruct (pop_loop_reset (S (length (_rates (Right._royalty_stack self))))
                (Right._royalty_stack self) (Statement.copies stmt * -1)).
    by apply report_loop_reset.
  - destruct (push_loop_reset (S (length (_rates (Right._royalty_stack self))))
                (Right._royalty_stack self) (Statement.copies stmt)).
    by apply report_loop_reset.
Qed.

(** Every line built for a statement carries its date and its price. *)
Lemma report_loop_items self stmt tuples stacks fin out :
  Forall (fun item => ReportItem.date item = Statement.date stmt
                      /\ ReportItem.price item = Statement.price stmt)
    (yielded (Right.report_loop self stmt tuples stacks fin out)).
Proof.
  revert stacks. induction tuples as [|[copies rate] tuples IH]; intros stacks.
  { destruct stacks; constructor. }
  destruct stacks as [|stack stacks]; simpl; [constructor|].
  destruct (Right.name self) as [e|right_name]; simpl; [constructor|].
  destruct (Right.due_amount copies rate (Statement.price stmt)) as [e|due];
    simpl; [constructor|].
  constructor; [done|apply IH].
Qed.

Lemma reset_with_stack self st :
  reset st = reset (Right._royalty_stack self) ->
  Right.reset (Right.with_stack self st) = Right.reset self.
Proof. intros H. unfold Right.reset, Right.with_stack. simpl. by rewrite H. Qed.

Lemma reset_insert (rights : gmap string Right.t) name bound st :
  rights !! name = Some bound ->
  reset st = reset (Right._royalty_stack bound) ->
  Right.reset <$> <[name := Right.with_stack bound st]> rights
  = Right.reset <$> rights.
Proof.
  intros Hb Hst. rewrite fmap_insert, reset_with_stack by done.
  apply insert_id. by rewrite lookup_fmap, Hb.
Qed.

(** ** The chain of generators *)

Lemma StronglySorted_same {A} (R : relation A) `{!Reflexive R} (d : A) l :
  Forall (fun x => x = d) l -> StronglySorted R l.
Proof.
  induction 1 as [|x l -> Hl IH]; constructor; [done|].
  eapply Forall_impl; [exact Hl|]. by intros y ->.
Qed.

Lemma chain_spec rights adv gens :
  let '(out, rights', c) := Agreement.chain rights adv gens in
  balanced adv out
  /\ Right.reset <$> rights' = Right.reset <$> rights
  /\ Forall (fun item => exists g, g ∈ gens
               /\ ReportItem.date item = Statement.date g.2
               /\ ReportItem.price item = Statement.price g.2) out
  /\ (StronglySorted by_date (snd <$> gens) ->
      StronglySorted datetime.le (ReportItem.date <$> out)).
Proof.
  revert rights adv. induction gens as [|[name s] gens IH]; intros rights adv.
  { simpl. split_and!; [apply balanced_nil|done|constructor|constructor]. }
  cbn [Agreement.chain].
  destruct (rights !! name) as [bound|] eqn:Hb.
  2:{ split_and!; [apply balanced_nil|done|constructor|constructor]. }
  pose proof (apply_statement_reset bound s) as [Hfin Hsus].
  pose proof (report_loop_items bound s
                (yielded (Right._get_iterator bound (Statement.copies s)))
                (suspended (Right._get_iterator bound (Statement.copies s)))
                (final (Right._get_iterator bound (Statement.copies s)))
                (outcome (Right._get_iterator bound (Statement.copies s))))
    as Hitems.
  fold (Right.apply_statement bound s) in Hitems.
  set (r := Right.apply_statement bound s) in *.
  pose proof (settle_spec adv (yielded r) (suspended r)) as Hsettle.
  destruct (Agreement.settle adv (yielded r) (suspended r))
    as [[out adv'] stopped].
  destruct Hsettle as (Hbal & Hrun & Hall & Hstop).
  assert (Forall (fun item => ReportItem.date item = Statement.date s
                              /\ ReportItem.price item = Statement.price s) out)
    as Hmine.
  { eapply Forall_impl; [exact Hall|]. intros item (it & Hit & Hd & Hp & _).
    rewrite Forall_forall in Hitems. destruct (Hitems it Hit) as [? ?].
    split; congruence. }
  assert (Forall (fun item => exists g, g ∈ (name, s) :: gens
            /\ ReportItem.date item = Statement.date g.2
            /\ ReportItem.price item = Statement.price g.2) out) as Hout.
  { eapply Forall_impl; [exact Hmine|]. intros item [? ?].
    exists (name, s). split; [by left|done]. }
  assert (StronglySorted datetime.le (ReportItem.date <$> out)) as Hsorted.
  { apply (StronglySorted_same _ (Statement.date s)), Forall_fmap.
    eapply Forall_impl; [exact Hmine|]. by intros item [? _]. }
  destruct stopped as [[e stack]|].
  { split_and!; try done. apply reset_insert; [done|].
    rewrite Forall_forall in Hsus. by apply Hsus, (Hstop e). }
  assert (Right.reset <$> <[name := Right.with_stack bound (final r)]> rights
          = Right.reset <$> rights) as Hreset by by apply reset_insert.
  destruct (outcome r); try by split_and!.
  specialize (IH (<[name := Right.with_stack bound (final r)]> rights) adv').
  destruct (Agreement.chain _ adv' gens) as [[out' rights'] c].
  destruct IH as (Hbal' & Hreset' & Hall' & Hsorted').
  split_and!.
  - by apply (balanced_app adv adv').
  - by rewrite Hreset'.
  - apply Forall_app. split; [done|].
    eapply Forall_impl; [exact Hall'|]. intros item (g & Hg & ?).
    exists g. split; [by right|done].
  - rewrite fmap_cons. intros [Hhead Htail]%StronglySorted_cons.
    rewrite fmap_app. apply StronglySorted_app_2; [|done|by apply Hsorted'].
    intros d1 d2 [i1 [-> Hi1]]%list_elem_of_fmap [i2 [-> Hi2]]%list_elem_of_fmap.
    rewrite Forall_forall in Hmine. destruct (Hmine i1 Hi1) as [-> _].
    rewrite Forall_forall in Hall'. destruct (Hall' i2 Hi2) as (g & Hg & -> & _).
    rewrite Forall_forall in Hhead. apply (Hhead g.2).
    apply list_elem_of_fmap. by exists g.
Qed.

Lemma raw_items_statements rights stmts gens :
  Agreement.raw_items rights stmts = inr gens -> snd <$> gens = stmts.
Proof.
  revert gens. induction stmts as [|s stmts IH]; intros gens; simpl.
  - by intros [= <-].
  - destruct (Statement.name s) as [e|name]; [done|].
    destruct (rights !! name); [|done].
    destruct (Agreement.raw_items rights stmts) as [e|gens']; [done|].
    intros [= <-]. rewrite fmap_cons. simpl. f_equal. by apply IH.
Qed.

Lemma Right_reset_idemp (rights : gmap string Right.t) :
  Right.reset <$> (Right.reset <$> rights) = Right.reset <$> rights.
Proof. rewrite <- map_fmap_compose. by apply map_fmap_ext. Qed.

Lemma sort_by_date_idemp l :
  Agreement.sort_by_date (Agreement.sort_by_date l) = Agreement.sort_by_date l.
Proof. apply sort_by_date_id, sort_by_date_sorted. Qed.

(** The run of [apply_statements] depends on the agreement only through
    its sorted statements and its reset rights. *)
Lemma apply_statements_prelude a b :
  Agreement._reset_rights (Agreement._sort_statements a)
  = Agreement._reset_rights (Agreement._sort_statements b) ->
  Agreement.apply_statements a = Agreement.apply_statements b.
Proof. unfold Agreement.apply_statements. by intros ->. Qed.

(** What a run leaves of the agreement: the advance, the statements sorted,
    and rights that reset to what the rights of the agreement reset to. *)
Lemma apply_statements_after a :
  let rep := Agreement.apply_statements a in
  Agreement.advance (Agreement.after rep) = Agreement.advance a
  /\ Agreement.statements (Agreement.after rep)
     = Agreement.sort_by_date (Agreement.statements a)
  /\ Right.reset <$> Agreement.rights (Agreement.after rep)
     = Right.reset <$> Agreement.rights a.
Proof.
  unfold Agreement.apply_statements.
  set (a0 := Agreement._reset_rights (Agreement._sort_statements a)).
  destruct (Agreement.raw_items (Agreement.rights a0) (Agreement.statements a0))
    as [e|gens].
  - simpl. split_and!; try done. apply Right_reset_idemp.
  - pose proof (chain_spec (Agreement.rights a0) (Agreement.advance a0) gens) as H.
    destruct (Agreement.chain _ _ gens) as [[out rights'] c].
    destruct H as (_ & Hreset & _). simpl. split_and!; try done.
    rewrite Hreset. apply Right_reset_idemp.
Qed.

(** C10: two runs of [apply_statements] in succession yield the same
    lines and end in the same way, whatever the first run left in the
    rights. *)
Theorem apply_statements_twice a :
  let first := Agreement.apply_statements a in
  let second := Agreement.apply_statements (Agreement.after first) in
  Agreement.items second = Agreement.items first
  /\ Agreement.ended second = Agreement.ended first.
Proof.
  intros first second.
  destruct (apply_statements_after a) as (Hadv & Hstmts & Hrights).
  fold first in Hadv, Hstmts, Hrights.
  assert (second = first) as ->; [|done].
  apply apply_statements_prelude.
  unfold Agreement._reset_rights, Agreement._sort_statements. simpl.
  by rewrite Hadv, Hstmts, Hrights, sort_by_date_idemp.
Qed.

(** C9 fails as stated.  With an advance of 10^28 and two lines due 0.7
    each, the second line carries 9999999999999999999999999998: each
    subtraction was rounded to 28 digits.  The advance minus the sum of the
    dues is 9999999999999999999999999998.6, and computed in Decimal
    arithmetic it is 9999999999999999999999999999. *)
Lemma advance_left_counterexample :
  let rep := Agreement.apply_statements large_agreement in
  exists i1 i2,
    Agreement.items rep = [i1; i2]
    /\ Agreement.ended rep = Returned
    /\ ReportItem.due i1 = mkDecimal false 7 (-1)
    /\ ReportItem.due i2 = mkDecimal false 7 (-1)
    /\ ReportItem.advance_left i2
       = Some (mkDecimal false 9999999999999999999999999998 0)
    /\ Decimal_add (ReportItem.due i1) (ReportItem.due i2)
       = inr (mkDecimal false 14 (-1))
    /\ Decimal_sub (Agreement.advance large_agreement) (mkDecimal false 14 (-1))
       = inr (mkDecimal false 9999999999999999999999999999 0)
    /\ 9999999999999999999999999998 * 10 <> 10 ^ 28 * 10 - 7 - 7.
Proof.
  do 2 eexists. split; [vm_compute; reflexivity|].
  split_and!; try (vm_compute; reflexivity). vm_compute. discriminate.
Qed.

(** [test_apply_statements] of the test suite: the five lines and their
    running advance, 1215.716, 914.006, -336.810, -777.940, -673.360. *)
Example test_apply_statements :
  let rep := Agreement.apply_statements test_agreement in
  Agreement.ended rep = Returned
  /\ ReportItem.due <$> Agreement.items rep
     = [mkDecimal false 284284 (-3); mkDecimal false 30171 (-2);
        mkDecimal false 1250816 (-3); mkDecimal false 44113 (-2);
        mkDecimal true 10458 (-2)]
  /\ ReportItem.advance_left <$> Agreement.items rep
     = [Some (mkDecimal false 1215716 (-3)); Some (mkDecimal false 914006 (-3));
        Some (mkDecimal true 336810 (-3)); Some (mkDecimal true 777940 (-3));
        Some (mkDecimal true 673360 (-3))]
  /\ ReportItem.copies <$> Agreement.items rep = [143; 89; 512; 124; -45]
  /\ ReportItem.rate <$> Agreement.items rep
     = ["7%"; "25%"; "7%"; "25%"; "7%"]%string.
Proof. vm_compute. split_and!; reflexivity. Qed.

(** * Further properties of the allocator *)

(** X1: [reset] brings every stack that was reached from
    [RoyaltyStack(p)] back to the stack the constructor builds. *)
Theorem reset_restores_init p s :
  reachable p s -> reset s = RoyaltyStack_init p.
Proof.
  induction 1 as [|s c Hs IH|s c Hs IH|s Hs IH].
  - reflexivity.
  - rewrite <- IH. apply push_loop_reset.
  - rewrite <- IH. apply pop_loop_reset.
  - exact IH.
Qed.

Lemma reset_restores_init_witness :
  reset (final (pop (final (push rs 12500)) 6000)) = RoyaltyStack_init test_progression.
Proof.
  apply (reset_restores_init test_progression).
  apply reachable_pop, reachable_push, reachable_init.
Defined.

(** The tuples of one [push] come from consecutive tiers, upwards from the
    active one; those of one [pop], downwards. *)
Lemma push_loop_tiers fuel s c k q cr :
  yielded (push_loop fuel s c) !! k = Some (q, cr) ->
  _rates s !! (_rate_index s + k)%nat = Some cr.
Proof.
  revert s c k. induction fuel as [|fuel IH]; intros s c k; cbn [push_loop].
  { destruct (c >? 0); simpl; by rewrite lookup_nil. }
  destruct (c >? 0); [|simpl; by rewrite lookup_nil].
  destruct (_rates s !! _rate_index s) as [cr'|] eqn:Hcr;
    [|simpl; by rewrite lookup_nil].
  destruct (_limits s !! cr') as [w|]; [|simpl; by rewrite lookup_nil].
  destruct (_cursor s !! cr') as [a|]; [|simpl; by rewrite lookup_nil].
  destruct (_ || _); unfold yield, stop; cbn [yielded].
  - destruct k as [|k]; simpl; [|by rewrite lookup_nil].
    intros [= _ <-]. by rewrite Nat.add_0_r.
  - destruct k as [|k]; simpl.
    + intros [= _ <-]. by rewrite Nat.add_0_r.
    + intros Hk. apply IH in Hk. simpl in Hk.
      by replace (_rate_index s + S k)%nat with (_rate_index s + 1 + k)%nat by lia.
Qed.

Lemma pop_loop_tiers fuel s c k q cr :
  yielded (pop_loop fuel s c) !! k = Some (q, cr) ->
  (k <= _rate_index s)%nat /\ _rates s !! (_rate_index s - k)%nat = Some cr.
Proof.
  revert s c k. induction fuel as [|fuel IH]; intros s c k; cbn [pop_loop].
  { destruct (c >? 0); simpl; by rewrite lookup_nil. }
  destruct (c >? 0); [|simpl; by rewrite lookup_nil].
  destruct (_rates s !! _rate_index s) as [cr'|] eqn:Hcr;
    [|simpl; by rewrite lookup_nil].
  destruct (_cursor s !! cr') as [a|]; [|simpl; by rewrite lookup_nil].
  destruct (Nat.eqb_spec (_rate_index s) 0) as [Hz|Hnz]; simpl.
  { unfold yield, stop; cbn [yielded].
    destruct k as [|k]; simpl; [|by rewrite lookup_nil].
    intros [= _ <-]. split; [lia|]. by rewrite Nat.sub_0_r. }
  destruct (a - c >=? 0); unfold yield, stop; cbn [yielded].
  - destruct k as [|k]; simpl; [|by rewrite lookup_nil].
    intros [= _ <-]. split; [lia|]. by rewrite Nat.sub_0_r.
  - destruct k as [|k]; simpl.
    + intros [= _ <-]. split; [lia|]. by rewrite Nat.sub_0_r.
    + intros Hk. apply IH in Hk as [Hle Hk]. simpl in Hle, Hk. split; [lia|].
      by replace (_rate_index s - S k)%nat with (_rate_index s - 1 - k)%nat by lia.
Qed.

Lemma StronglySorted_lookup_1 {A} (R : relation A) (l : list A) :
  (forall i j x y, (i < j)%nat -> l !! i = Some x -> l !! j = Some y -> R x y) ->
  StronglySorted R l.
Proof.
  induction l as [|a l IH]; intros H; constructor.
  - apply IH. intros i j x y Hij Hi Hj. apply (H (S i) (S j)); [lia|done..].
  - apply Forall_lookup. intros j y Hj. apply (H 0%nat (S j)); [lia|done..].
Qed.

Lemma StronglySorted_lookup_2 {A} (R : relation A) (l : list A) i j x y :
  StronglySorted R l -> (i < j)%nat -> l !! i = Some x -> l !! j = Some y -> R x y.
Proof.
  intros Hl. revert i j. induction Hl as [|a l Hl IH Hall]; intros i j Hij Hi Hj.
  { by rewrite lookup_nil in Hi. }
  destruct j as [|j]; [lia|]. simpl in Hj. destruct i as [|i]; simpl in Hi.
  - injection Hi as <-. by eapply Forall_lookup_1 in Hall.
  - apply (IH i j); [lia|done..].
Qed.

(** X2: on an accepted progression one call of allocate bills each tier
    at most once, going up the scale for a sale and down for a return: the
    rates of the tuples are rates of the progression, strictly increasing
    when the delta is not negative and strictly decreasing when it is. *)
Theorem allocate_tiers_in_order p s d :
  progression_is_valid p = true -> reachable p s ->
  Forall (fun t => t.2 ∈ rate <$> p) (yielded (allocate s d))
  /\ (0 <= d -> StronglySorted Z.lt (snd <$> yielded (allocate s d)))
  /\ (d < 0 -> StronglySorted Z.gt (snd <$> yielded (allocate s d))).
Proof.
  intros Hvalid Hs. pose proof (reachable_inv p s Hvalid Hs) as Hinv.
  unfold allocate, push, pop. destruct (Z.ltb_spec d 0) as [Hd|Hd].
  - split_and!; [| lia |intros _].
    + apply Forall_lookup. intros k [q cr] Hk.
      apply pop_loop_tiers in Hk as [_ Hk]. rewrite (inv_rates _ _ Hinv) in Hk.
      by eapply list_elem_of_lookup_2.
    + apply StronglySorted_lookup_1. intros i j x y Hij Hi Hj.
      rewrite list_lookup_fmap in Hi, Hj.
      destruct (_ !! i) as [[qi ri]|] eqn:Hi'; [|done].
      destruct (_ !! j) as [[qj rj]|] eqn:Hj'; [|done].
      simpl in Hi, Hj. injection Hi as <-. injection Hj as <-.
      apply pop_loop_tiers in Hi' as [Hile Hi'], Hj' as [Hjle Hj'].
      rewrite (inv_rates _ _ Hinv), list_lookup_fmap in Hi', Hj'.
      destruct (p !! (_rate_index s - i)%nat) as [a|] eqn:Ha; [|done].
      destruct (p !! (_rate_index s - j)%nat) as [b|] eqn:Hb; [|done].
      simpl in Hi', Hj'. injection Hi' as <-. injection Hj' as <-.
      assert (_rate_index s - j < _rate_index s - i)%nat as Hlt by lia.
      pose proof (valid_rate_lt p Hvalid _ _ _ _ Hlt Hb Ha). lia.
  - split_and!; [|intros _| lia].
    + apply Forall_lookup. intros k [q cr] Hk.
      apply push_loop_tiers in Hk. rewrite (inv_rates _ _ Hinv) in Hk.
      by eapply list_elem_of_lookup_2.
    + apply StronglySorted_lookup_1. intros i j x y Hij Hi Hj.
      rewrite list_lookup_fmap in Hi, Hj.
      destruct (_ !! i) as [[qi ri]|] eqn:Hi'; [|done].
      destruct (_ !! j) as [[qj rj]|] eqn:Hj'; [|done].
      simpl in Hi, Hj. injection Hi as <-. injection Hj as <-.
      apply push_loop_tiers in Hi', Hj'.
      rewrite (inv_rates _ _ Hinv), list_lookup_fmap in Hi', Hj'.
      destruct (p !! (_rate_index s + i)%nat) as [a|] eqn:Ha; [|done].
      destruct (p !! (_rate_index s + j)%nat) as [b|] eqn:Hb; [|done].
      simpl in Hi', Hj'. injection Hi' as <-. injection Hj' as <-.
      assert (_rate_index s + i < _rate_index s + j)%nat as Hlt by lia.
      apply (valid_rate_lt p Hvalid _ _ _ _ Hlt Ha Hb).
Qed.

Lemma allocate_tiers_in_order_witness :
  StronglySorted Z.gt (snd <$> yielded (allocate (final (push rs 12500)) (-6000))).
Proof.
  apply (allocate_tiers_in_order test_progression (final (push rs 12500)) (-6000));
    [reflexivity|apply reachable_push, reachable_init|lia].
Defined.

Section allocation_records.
Variable p : list Step.
Hypothesis Hvalid : progression_is_valid p = true.

(** From a tier that is not exactly full, [push] yields positive
    quantities only. *)
Lemma push_loop_positive fuel s c k q cr :
  stack_inv p s -> 0 < c -> active_full s = false ->
  yielded (push_loop fuel s c) !! k = Some (q, cr) -> 0 < q.
Proof.
  revert s c k. induction fuel as [|fuel IH]; intros s c k Hs Hc Hfull.
  { cbn [push_loop]. destruct (c >? 0); simpl; by rewrite lookup_nil. }
  cbn [push_loop]. replace (c >? 0) with true by (symmetry; apply Z.gtb_lt; lia).
  unfold active_full in Hfull. revert Hfull.
  rewrite (inv_rates _ _ Hs), list_lookup_fmap.
  destruct (p !! _rate_index s) as [st|] eqn:Hst; simpl;
    [|by rewrite lookup_nil].
  rewrite (inv_limits _ _ Hs), (limits_lookup p Hvalid _ _ Hst).
  destruct (inv_cursor_lookup p s _ _ Hs Hst) as [a Ha]. rewrite Ha.
  destruct (inv_at _ _ Hs st a Hst Ha) as [Hle Hge].
  set (w := limits_entry p (_rate_index s) st) in *. intros Hfull.
  destruct ((w =? 0) || (a + c <=? w)) eqn:Hb;
    unfold yield, stop; cbn [yielded].
  - destruct k as [|k]; simpl; [|by rewrite lookup_nil]. intros [= Hq _]. lia.
  - apply orb_false_iff in Hb as [Hw Hgt].
    assert (w <> 0) as Hw' by lia. specialize (Hle Hw').
    assert (a <> w) as Hne.
    { intros ->. apply andb_false_iff in Hfull as [Hf|Hf];
        [apply negb_false_iff in Hf|]; lia. }
    destruct k as [|k]; simpl; [intros [= Hq _]; lia|].
    replace (a + (w - a)) with w by lia.
    pose proof (inv_advance p Hvalid s st Hs Hst Hw') as Hs'. fold w in Hs'.
    apply IH; [done|lia|].
    unfold active_full. simpl.
    rewrite (inv_rates _ _ Hs), list_lookup_fmap.
    destruct (p !! (_rate_index s + 1)%nat) as [st'|] eqn:Hst'; [|done]. simpl.
    rewrite (inv_limits _ _ Hs), (limits_lookup p Hvalid _ _ Hst').
    rewrite lookup_insert_ne.
    2:{ intros Hr. pose proof (valid_rate_inj p Hvalid _ _ _ _ Hst Hst' Hr). lia. }
    rewrite (inv_above _ _ Hs (_rate_index s + 1)%nat st' ltac:(lia) Hst').
    destruct (Z.eqb_spec (limits_entry p (_rate_index s + 1) st') 0) as [->|Hz];
      [done|].
    cbn [negb andb]. apply Z.eqb_neq. lia.
Qed.

(** From a tier that is the first one or holds something, [pop] yields
    negative quantities only. *)
Lemma pop_loop_negative fuel s c k q cr :
  stack_inv p s -> 0 < c -> active_empty s = false ->
  yielded (pop_loop fuel s c) !! k = Some (q, cr) -> q < 0.
Proof.
  revert s c k. induction fuel as [|fuel IH]; intros s c k Hs Hc Hempty.
  { cbn [pop_loop]. destruct (c >? 0); simpl; by rewrite lookup_nil. }
  cbn [pop_loop]. replace (c >? 0) with true by (symmetry; apply Z.gtb_lt; lia).
  unfold active_empty in Hempty. revert Hempty.
  rewrite (inv_rates _ _ Hs), list_lookup_fmap.
  destruct (p !! _rate_index s) as [st|] eqn:Hst; simpl;
    [|by rewrite lookup_nil].
  destruct (inv_cursor_lookup p s _ _ Hs Hst) as [a Ha]. rewrite Ha.
  destruct (inv_at _ _ Hs st a Hst Ha) as [Hle Hge]. intros Hempty.
  destruct ((_rate_index s =? 0)%nat || (a - c >=? 0)) eqn:Hb;
    unfold yield, stop; cbn [yielded].
  - destruct k as [|k]; simpl; [|by rewrite lookup_nil]. intros [= Hq _]. lia.
  - apply orb_false_iff in Hb as [Hidx Hlt].
    apply Nat.eqb_neq in Hidx.
    assert (0 < _rate_index s)%nat as Hpos by lia. specialize (Hge Hpos).
    assert (a <> 0) as Hne.
    { intros ->. apply andb_false_iff in Hempty as [Hf|Hf];
        [apply negb_false_iff, Nat.eqb_eq in Hf|]; lia. }
    destruct k as [|k]; simpl; [intros [= Hq _]; lia|].
    pose proof (inv_retreat p Hvalid s st Hs Hst Hpos) as Hs'.
    apply IH; [done| |].
    { destruct (Z.geb_spec (a - c) 0); [done|lia]. }
    unfold active_empty. simpl.
    rewrite (inv_rates _ _ Hs), list_lookup_fmap.
    destruct (p !! (_rate_index s - 1)%nat) as [st'|] eqn:Hst'; [|done]. simpl.
    rewrite lookup_insert_ne.
    2:{ intros Hr. pose proof (valid_rate_inj p Hvalid _ _ _ _ Hst Hst' Hr). lia. }
    destruct (inv_below _ _ Hs (_rate_index s - 1)%nat st' ltac:(lia) Hst') as [-> Hw].
    apply andb_false_iff. right. by apply Z.eqb_neq.
Qed.

(** The first tuple of a [push] may be (0, rate), when the active tier is
    exactly full; no other tuple is. *)
Lemma push_loop_signs fuel s c :
  stack_inv p s -> 0 < c ->
  Forall (fun t => 0 <= t.1) (yielded (push_loop fuel s c))
  /\ Forall (fun t => 0 < t.1) (tail (yielded (push_loop fuel s c))).
Proof.
  intros Hs Hc. destruct fuel as [|fuel].
  { cbn [push_loop]. destruct (c >? 0); simpl; by split. }
  cbn [push_loop]. replace (c >? 0) with true by (symmetry; apply Z.gtb_lt; lia).
  rewrite (inv_rates _ _ Hs), list_lookup_fmap.
  destruct (p !! _rate_index s) as [st|] eqn:Hst; simpl; [|by split].
  rewrite (inv_limits _ _ Hs), (limits_lookup p Hvalid _ _ Hst).
  destruct (inv_cursor_lookup p s _ _ Hs Hst) as [a Ha]. rewrite Ha.
  destruct (inv_at _ _ Hs st a Hst Ha) as [Hle Hge].
  set (w := limits_entry p (_rate_index s) st) in *.
  destruct ((w =? 0) || (a + c <=? w)) eqn:Hb;
    unfold yield, stop; cbn [yielded tail].
  { split; [|done]. constructor; [simpl; lia|done]. }
  apply orb_false_iff in Hb as [Hw Hgt].
  assert (w <> 0) as Hw' by lia. specialize (Hle Hw').
  replace (a + (w - a)) with w by lia.
  pose proof (inv_advance p Hvalid s st Hs Hst Hw') as Hs'. fold w in Hs'.
  assert (Forall (fun t : Z * Z => 0 < t.1)
            (yielded (push_loop fuel
               (set_rate_index (set_cursor s (rate st) w) (_rate_index s + 1))
               (c - (w - a))))) as Hrest.
  { apply Forall_lookup. intros k [q cr] Hk. simpl.
    eapply push_loop_positive; [exact Hs'| | |exact Hk]; [lia|].
    unfold active_full. simpl.
    rewrite (inv_rates _ _ Hs), list_lookup_fmap.
    destruct (p !! (_rate_index s + 1)%nat) as [st'|] eqn:Hst'; [|done]. simpl.
    rewrite (inv_limits _ _ Hs), (limits_lookup p Hvalid _ _ Hst').
    rewrite lookup_insert_ne.
    2:{ intros Hr. pose proof (valid_rate_inj p Hvalid _ _ _ _ Hst Hst' Hr). lia. }
    rewrite (inv_above _ _ Hs (_rate_index s + 1)%nat st' ltac:(lia) Hst').
    destruct (Z.eqb_spec (limits_entry p (_rate_index s + 1) st') 0) as [->|Hz];
      [done|].
    cbn [negb andb]. apply Z.eqb_neq. lia. }
  split; [|done]. constructor; [simpl; lia|].
  eapply Forall_impl; [exact Hrest|]. simpl. lia.
Qed.

Lemma pop_loop_signs fuel s c :
  stack_inv p s -> 0 < c ->
  Forall (fun t => t.1 <= 0) (yielded (pop_loop fuel s c))
  /\ Forall (fun t => t.1 < 0) (tail (yielded (pop_loop fuel s c))).
Proof.
  intros Hs Hc. destruct fuel as [|fuel].
  { cbn [pop_loop]. destruct (c >? 0); simpl; by split. }
  cbn [pop_loop]. replace (c >? 0) with true by (symmetry; apply Z.gtb_lt; lia).
  rewrite (inv_rates _ _ Hs), list_lookup_fmap.
  destruct (p !! _rate_index s) as [st|] eqn:Hst; simpl; [|by split].
  destruct (inv_cursor_lookup p s _ _ Hs Hst) as [a Ha]. rewrite Ha.
  destruct (inv_at _ _ Hs st a Hst Ha) as [Hle Hge].
  destruct ((_rate_index s =? 0)%nat || (a - c >=? 0)) eqn:Hb;
    unfold yield, stop; cbn [yielded tail].
  { split; [|done]. constructor; [simpl; lia|done]. }
  apply orb_false_iff in Hb as [Hidx Hlt].
  apply Nat.eqb_neq in Hidx.
  assert (0 < _rate_index s)%nat as Hpos by lia. specialize (Hge Hpos).
  assert (a - c < 0) as Hlt'.
  { destruct (Z.geb_spec (a - c) 0); [done|lia]. }
  pose proof (inv_retreat p Hvalid s st Hs Hst Hpos) as Hs'.
  assert (Forall (fun t : Z * Z => t.1 < 0)
            (yielded (pop_loop fuel
               (set_rate_index (set_cursor s (rate st) 0) (_rate_index s - 1))
               (c - a)))) as Hrest.
  { apply Forall_lookup. intros k [q cr] Hk. simpl.
    eapply pop_loop_negative; [exact Hs'| | |exact Hk]; [lia|].
    unfold active_empty. simpl.
    rewrite (inv_rates _ _ Hs), list_lookup_fmap.
    destruct (p !! (_rate_index s - 1)%nat) as [st'|] eqn:Hst'; [|done]. simpl.
    rewrite lookup_insert_ne.
    2:{ intros Hr. pose proof (valid_rate_inj p Hvalid _ _ _ _ Hst Hst' Hr). lia. }
    destruct (inv_below _ _ Hs (_rate_index s - 1)%nat st' ltac:(lia) Hst') as [-> Hw].
    apply andb_false_iff. right. by apply Z.eqb_neq. }
  split; [|done]. constructor; [simpl; lia|].
  eapply Forall_impl; [exact Hrest|]. simpl. lia.
Qed.
End allocation_records.

(** X3: on an accepted progression a sale never yields a negative
    quantity and a return never a positive one.  Only the first tuple of a
    call can carry the quantity 0, and it does not when the active tier is
    not exactly full (for a sale) or is not an empty tier above the first
    (for a return). *)
Theorem allocate_signs p s d :
  progression_is_valid p = true -> reachable p s ->
  (0 <= d ->
     Forall (fun t => 0 <= t.1) (yielded (allocate s d))
     /\ Forall (fun t => 0 < t.1) (tail (yielded (allocate s d)))
     /\ (active_full s = false ->
         Forall (fun t => 0 < t.1) (yielded (allocate s d))))
  /\ (d < 0 ->
     Forall (fun t => t.1 <= 0) (yielded (allocate s d))
     /\ Forall (fun t => t.1 < 0) (tail (yielded (allocate s d)))
     /\ (active_empty s = false ->
         Forall (fun t => t.1 < 0) (yielded (allocate s d)))).
Proof.
  intros Hvalid Hs. pose proof (reachable_inv p s Hvalid Hs) as Hinv.
  unfold allocate, push, pop. destruct (Z.ltb_spec d 0) as [Hd|Hd].
  - split; [lia|intros _].
    destruct (pop_loop_signs p Hvalid (S (length (_rates s))) s (d * -1) Hinv
                ltac:(lia)) as [H1 H2].
    split_and!; [done..|]. intros Hempty.
    apply Forall_lookup. intros k [q cr] Hk. simpl.
    eapply pop_loop_negative; [exact Hvalid|exact Hinv| |exact Hempty|exact Hk]. lia.
  - split; [intros _|lia].
    destruct (decide (d = 0)) as [->|Hne].
    { rewrite push_loop_nonpos by lia. simpl. by split_and!. }
    destruct (push_loop_signs p Hvalid (S (length (_rates s))) s d Hinv
                ltac:(lia)) as [H1 H2].
    split_and!; [done..|]. intros Hfull.
    apply Forall_lookup. intros k [q cr] Hk. simpl.
    eapply push_loop_positive; [exact Hvalid|exact Hinv| |exact Hfull|exact Hk]. lia.
Qed.

Lemma allocate_signs_witness :
  Forall (fun t => 0 < t.1) (yielded (allocate rs 12500)).
Proof.
  destruct (allocate_signs test_progression rs 12500) as [H _];
    [reflexivity|apply reachable_init|].
  destruct H as (_ & _ & H); [lia|]. apply H. reflexivity.
Defined.

(** X4: a stack that rests on a tier boundary yields a tuple of quantity 0
    first: a sale from a tier that is exactly full, a return from an empty
    tier above the first. *)
Theorem zero_tuple_on_boundary s d :
  (active_full s = true /\ 0 < d) \/ (active_empty s = true /\ d < 0) ->
  exists cr rest,
    _rates s !! _rate_index s = Some cr
    /\ yielded (allocate s d) = (0, cr) :: rest.
Proof.
  unfold allocate, push, pop, active_full, active_empty.
  intros [[Hfull Hd]|[Hempty Hd]].
  - replace (d <? 0) with false by (symmetry; apply Z.ltb_ge; lia).
    cbn [push_loop]. replace (d >? 0) with true by (symmetry; apply Z.gtb_lt; lia).
    destruct (_rates s !! _rate_index s) as [cr|]; [|done].
    destruct (_limits s !! cr) as [w|]; [|done].
    destruct (_cursor s !! cr) as [a|]; [|done].
    apply andb_true_iff in Hfull as [Hw Ha]. apply negb_true_iff in Hw.
    replace ((w =? 0) || (a + d <=? w)) with false
      by (symmetry; apply orb_false_iff; split; lia).
    unfold yield; cbn [yielded]. eexists _, _. split; [done|].
    f_equal. f_equal. lia.
  - replace (d <? 0) with true by (symmetry; apply Z.ltb_lt; lia).
    cbn [pop_loop].
    replace (d * -1 >? 0) with true by (symmetry; apply Z.gtb_lt; lia).
    destruct (_rates s !! _rate_index s) as [cr|]; [|done].
    destruct (_cursor s !! cr) as [a|]; [|done].
    apply andb_true_iff in Hempty as [Hidx Ha]. apply negb_true_iff in Hidx.
    rewrite Hidx.
    replace (a - d * -1 >=? 0) with false
      by (symmetry; rewrite Z.geb_leb; apply Z.leb_gt; lia).
    cbn [orb]. unfold yield; cbn [yielded]. eexists _, _. split; [done|].
    f_equal. f_equal. lia.
Qed.

Lemma zero_tuple_on_boundary_witness :
  exists cr rest,
    _rates (final (push rs 5000)) !! _rate_index (final (push rs 5000)) = Some cr
    /\ yielded (allocate (final (push rs 5000)) 100) = (0, cr) :: rest.
Proof.
  apply (zero_tuple_on_boundary (final (push rs 5000)) 100).
  left. split; [reflexivity|lia].
Defined.

Section allocation_changes.
Variable p : list Step.
Hypothesis Hvalid : progression_is_valid p = true.

Lemma push_loop_changes fuel s c :
  stack_inv p s -> 0 < c -> (length p - _rate_index s < fuel)%nat ->
  let r := push_loop fuel s c in
  (forall k q cr, yielded r !! k = Some (q, cr) ->
     exists a, _cursor s !! cr = Some a /\ _cursor (final r) !! cr = Some (a + q))
  /\ (forall cr, cr ∉ snd <$> yielded r ->
        _cursor (final r) !! cr = _cursor s !! cr).
Proof.
  revert s c. induction fuel as [|fuel IH]; intros s c Hs Hc Hfuel; [lia|].
  pose proof (push_loop_tiers (S fuel) s c) as Htiers. revert Htiers.
  cbn [push_loop]. replace (c >? 0) with true by (symmetry; apply Z.gtb_lt; lia).
  rewrite (inv_rates _ _ Hs), list_lookup_fmap.
  destruct (p !! _rate_index s) as [st|] eqn:Hst; simpl.
  2:{ intros _. split; [intros k q cr Hk; by rewrite lookup_nil in Hk|done]. }
  rewrite (inv_limits _ _ Hs), (limits_lookup p Hvalid _ _ Hst).
  destruct (inv_cursor_lookup p s _ _ Hs Hst) as [a Ha]. rewrite Ha.
  pose proof (lookup_lt_Some _ _ _ Hst) as Hlt.
  set (w := limits_entry p (_rate_index s) st) in *.
  destruct ((w =? 0) || (a + c <=? w)) eqn:Hb;
    unfold yield, stop; cbn [yielded final outcome]; intros Htiers.
  - split.
    + intros [|k] q cr Hk; simpl in Hk; [|by rewrite lookup_nil in Hk].
      injection Hk as <- <-. exists a. split; [done|]. simpl.
      by rewrite lookup_insert_eq.
    + intros cr Hcr. simpl. rewrite lookup_insert_ne; [done|].
      intros <-. apply Hcr. rewrite fmap_cons. apply elem_of_cons. by left.
  - apply orb_false_iff in Hb as [Hw Hgt].
    assert (w <> 0) as Hw' by lia. assert (w < a + c) as Hgt' by lia.
    revert Htiers. replace (a + (w - a)) with w by lia. intros Htiers.
    pose proof (inv_advance p Hvalid s st Hs Hst Hw') as Hs'. fold w in Hs'.
    set (s' := set_rate_index (set_cursor s (rate st) w) (_rate_index s + 1)) in *.
    destruct (IH s' (c - (w - a)) Hs' ltac:(lia) ltac:(simpl; lia)) as [H1 H2].
    destruct (push_loop_spec p Hvalid fuel s' (c - (w - a)) Hs' ltac:(lia)
                ltac:(simpl; lia)) as (Hfin & _ & _).
    destruct (push_loop_cursor p Hvalid fuel s' (c - (w - a)) Hs' ltac:(lia))
      as [Hmono _].
    simpl in Hmono.
    assert (forall k q cr,
              yielded (push_loop fuel s' (c - (w - a))) !! k = Some (q, cr) ->
              cr <> rate st) as Hother.
    { intros k q cr Hk Heq. specialize (Htiers (S k) q cr Hk).
      rewrite list_lookup_fmap in Htiers.
      destruct (p !! (_rate_index s + S k)%nat) as [st'|] eqn:Hst'; [|done].
      simpl in Htiers. injection Htiers as <-.
      pose proof (valid_rate_inj p Hvalid _ _ _ _ Hst Hst' (eq_sym Heq)). lia. }
    split.
    + intros [|k] q cr Hk; simpl in Hk.
      * injection Hk as <- <-. exists a. split; [done|].
        replace (a + (w - a)) with w by lia.
        by destruct (inv_below _ _ Hfin (_rate_index s) st ltac:(lia) Hst) as [-> _].
      * destruct (H1 k q cr Hk) as (a' & Ha' & Hfin').
        exists a'. split; [|done].
        simpl in Ha'. rewrite lookup_insert_ne in Ha'; [done|].
        intros Heq. by apply (Hother k q cr Hk).
    + intros cr Hcr. rewrite fmap_cons in Hcr.
      apply not_elem_of_cons in Hcr as [Hne Hcr].
      rewrite (H2 cr Hcr). simpl. by rewrite lookup_insert_ne.
Qed.

Lemma pop_loop_changes fuel s c :
  stack_inv p s -> 0 < c -> (_rate_index s < fuel)%nat ->
  let r := pop_loop fuel s c in
  (forall k q cr, yielded r !! k = Some (q, cr) ->
     exists a, _cursor s !! cr = Some a /\ _cursor (final r) !! cr = Some (a + q))
  /\ (forall cr, cr ∉ snd <$> yielded r ->
        _cursor (final r) !! cr = _cursor s !! cr).
Proof.
  revert s c. induction fuel as [|fuel IH]; intros s c Hs Hc Hfuel; [lia|].
  pose proof (pop_loop_tiers (S fuel) s c) as Htiers. revert Htiers.
  cbn [pop_loop]. replace (c >? 0) with true by (symmetry; apply Z.gtb_lt; lia).
  rewrite (inv_rates _ _ Hs), list_lookup_fmap.
  destruct (p !! _rate_index s) as [st|] eqn:Hst; simpl.
  2:{ intros _. split; [intros k q cr Hk; by rewrite lookup_nil in Hk|done]. }
  destruct (inv_cursor_lookup p s _ _ Hs Hst) as [a Ha]. rewrite Ha.
  destruct ((_rate_index s =? 0)%nat || (a - c >=? 0)) eqn:Hb;
    unfold yield, stop; cbn [yielded final outcome]; intros Htiers.
  - split.
    + intros [|k] q cr Hk; simpl in Hk; [|by rewrite lookup_nil in Hk].
      injection Hk as <- <-. exists a. split; [done|]. simpl.
      rewrite lookup_insert_eq. f_equal. lia.
    + intros cr Hcr. simpl. rewrite lookup_insert_ne; [done|].
      intros <-. apply Hcr. rewrite fmap_cons. apply elem_of_cons. by left.
  - apply orb_false_iff in Hb as [Hidx Hlt].
    apply Nat.eqb_neq in Hidx.
    assert (a - c < 0) as Hlt'.
    { destruct (Z.geb_spec (a - c) 0); [done|lia]. }
    assert (0 < _rate_index s)%nat as Hpos by lia.
    destruct (inv_at _ _ Hs st a Hst Ha) as [_ Hge]. specialize (Hge Hpos).
    pose proof (inv_retreat p Hvalid s st Hs Hst Hpos) as Hs'.
    set (s' := set_rate_index (set_cursor s (rate st) 0) (_rate_index s - 1)) in *.
    destruct (IH s' (c - a) Hs' ltac:(lia) ltac:(simpl; lia)) as [H1 H2].
    destruct (pop_loop_spec p Hvalid fuel s' (c - a) Hs' ltac:(lia)
                ltac:(simpl; lia)) as (Hfin & _ & _).
    destruct (pop_loop_cursor p Hvalid fuel s' (c - a) Hs' ltac:(lia))
      as [Hmono _].
    simpl in Hmono.
    assert (forall k q cr,
              yielded (pop_loop fuel s' (c - a)) !! k = Some (q, cr) ->
              cr <> rate st) as Hother.
    { intros k q cr Hk Heq. destruct (Htiers (S k) q cr Hk) as [Hle Ht].
      rewrite list_lookup_fmap in Ht.
      destruct (p !! (_rate_index s - S k)%nat) as [st'|] eqn:Hst'; [|done].
      simpl in Ht. injection Ht as <-.
      pose proof (valid_rate_inj p Hvalid _ _ _ _ Hst Hst' (eq_sym Heq)). lia. }
    split.
    + intros [|k] q cr Hk; simpl in Hk.
      * injection Hk as <- <-. exists a. split; [done|].
        replace (a + a * -1) with 0 by lia.
        by rewrite (inv_above _ _ Hfin (_rate_index s) st ltac:(lia) Hst).
      * destruct (H1 k q cr Hk) as (a' & Ha' & Hfin').
        exists a'. split; [|done].
        simpl in Ha'. rewrite lookup_insert_ne in Ha'; [done|].
        intros Heq. by apply (Hother k q cr Hk).
    + intros cr Hcr. rewrite fmap_cons in Hcr.
      apply not_elem_of_cons in Hcr as [Hne Hcr].
      rewrite (H2 cr Hcr). simpl. by rewrite lookup_insert_ne.
Qed.

(** Two stacks at the same position hold the same attributions. *)
Lemma same_position_cursor s1 s2 :
  stack_inv p s1 -> stack_inv p s2 ->
  (_rate_index s1 < length p)%nat -> (_rate_index s2 < length p)%nat ->
  position s1 = position s2 -> _cursor s1 = _cursor s2.
Proof.
  intros H1 H2 Hl1 Hl2 Hpos.
  destruct (Nat.le_ge_cases (_rate_index s1) (_rate_index s2)) as [Hle|Hge].
  - by destruct (same_position_le p Hvalid s1 s2 H1 H2 Hl2 Hle Hpos).
  - symmetry. by destruct (same_position_le p Hvalid s2 s1 H2 H1 Hl1 Hge (eq_sym Hpos)).
Qed.

Lemma Zsum_zeros l : Forall (fun x => x = 0) l -> Zsum l = 0.
Proof. induction 1 as [|x l -> _ IH]; [done|]. rewrite Zsum_cons. lia. Qed.

(** What the tiers hold adds up to the position. *)
Lemma attributed_position s : stack_inv p s -> attributed s = position s.
Proof.
  intros Hs. unfold attributed, position.
  rewrite (inv_rates _ _ Hs), (inv_progression _ _ Hs), <- list_fmap_compose.
  set (g := (fun cr => default 0 (_cursor s !! cr)) ∘ rate).
  rewrite <- (take_drop (_rate_index s) p) at 1.
  rewrite fmap_app, Zsum_app. f_equal.
  - unfold filled. f_equal. apply list_eq. intros i.
    rewrite list_lookup_fmap.
    destruct (decide (i < _rate_index s)%nat) as [Hi|Hi].
    + rewrite !lookup_take_lt by done.
      destruct (p !! i) as [st|] eqn:Hst; simpl.
      * rewrite (widths_lookup _ _ _ Hst). unfold g. simpl.
        by destruct (inv_below _ _ Hs i st Hi Hst) as [-> _].
      * symmetry. apply lookup_ge_None. unfold widths. rewrite length_imap.
        by apply lookup_ge_None.
    + by rewrite !lookup_take_ge by lia.
  - destruct (p !! _rate_index s) as [st|] eqn:Hst; simpl.
    + rewrite (drop_S _ _ _ Hst), fmap_cons, Zsum_cons.
      rewrite Zsum_zeros; [unfold g; simpl; lia|].
      apply Forall_lookup. intros i x Hx.
      rewrite list_lookup_fmap, lookup_drop in Hx.
      destruct (p !! (S (_rate_index s) + i)%nat) as [st'|] eqn:Hst'; [|done].
      simpl in Hx. injection Hx as <-. unfold g. simpl.
      assert (_rate_index s < S (_rate_index s) + i)%nat as Hlt by lia.
      by rewrite (inv_above _ _ Hs _ st' Hlt Hst').
    + apply lookup_ge_None in Hst. by rewrite drop_ge.
Qed.

(** The widths add up to the limits again: the tiers up to a step that is
    not the last one are filled by as many copies as its limit says. *)
Lemma filled_limit k st :
  p !! k = Some st -> k = 0%nat \/ (S k < length p)%nat ->
  filled p (S k) = limit st.
Proof.
  revert st. induction k as [|k IH]; intros st Hst Hk.
  - rewrite (filled_S _ _ _ Hst). unfold filled, limits_entry. simpl. lia.
  - destruct Hk as [|Hk]; [done|].
    destruct (lookup_lt_is_Some_2 p k) as [prev Hprev]; [lia|].
    rewrite (filled_S _ _ _ Hst), (IH prev Hprev) by lia.
    pose proof (proj1 (progression_is_valid_true p) Hvalid _ _ Hst) as H.
    unfold step_ok in H. rewrite decide_False in H by done.
    rewrite decide_False in H by lia.
    replace (S k - 1)%nat with k in H by lia.
    pose proof (valid_limit_nonneg p Hvalid k prev Hprev ltac:(lia)).
    unfold limits_entry. replace (S k - 1)%nat with k by lia.
    rewrite (list_lookup_total_correct _ _ _ Hprev) in *.
    replace (limit st =? 0) with false by (symmetry; apply Z.eqb_neq; lia).
    simpl. lia.
Qed.
End allocation_changes.

(** X5: on an accepted progression the tuples of a call account for what
    the call did to the stack: a tuple (q, rate) means that the attribution
    of that rate grew by q, and the attribution of a rate that no tuple
    names is as it was.  This holds too when the call raised. *)
Theorem allocate_accounts_for_changes p s d :
  progression_is_valid p = true -> reachable p s ->
  (forall k q cr, yielded (allocate s d) !! k = Some (q, cr) ->
     exists a, _cursor s !! cr = Some a
               /\ _cursor (final (allocate s d)) !! cr = Some (a + q))
  /\ (forall cr, cr ∉ snd <$> yielded (allocate s d) ->
        _cursor (final (allocate s d)) !! cr = _cursor s !! cr).
Proof.
  intros Hvalid Hs. pose proof (reachable_inv p s Hvalid Hs) as Hinv.
  unfold allocate, push, pop. destruct (Z.ltb_spec d 0) as [Hd|Hd].
  - apply (pop_loop_changes p Hvalid); [done|lia|].
    rewrite (inv_rates _ _ Hinv), length_fmap. pose proof (inv_index _ _ Hinv). lia.
  - destruct (decide (d = 0)) as [->|Hne].
    { rewrite push_loop_nonpos by lia. simpl.
      split; [intros k q cr Hk; by rewrite lookup_nil in Hk|done]. }
    apply (push_loop_changes p Hvalid); [done|lia|].
    rewrite (inv_rates _ _ Hinv), length_fmap. lia.
Qed.

Lemma allocate_accounts_for_changes_witness :
  exists a, _cursor rs !! 8 = Some a
            /\ _cursor (final (allocate rs 12500)) !! 8 = Some (a + 5000).
Proof.
  destruct (allocate_accounts_for_changes test_progression rs 12500) as [H _];
    [reflexivity|apply reachable_init|].
  apply (H 1%nat 5000 8). reflexivity.
Defined.

(** X6: on a proper progression two calls of allocate one after the other
    leave the attributions that the one call with the sum of their deltas
    leaves, whatever the signs: the attributions depend on the net number
    of copies only. *)
Theorem allocate_compose p s a b :
  proper p = true -> reachable p s ->
  _cursor (final (allocate (final (allocate s a)) b))
  = _cursor (final (allocate s (a + b))).
Proof.
  intros Hp Hs. pose proof (proper_valid p Hp) as Hvalid.
  pose proof (proper_last p Hp) as Hlast.
  pose proof (reachable_inv p s Hvalid Hs) as Hinv.
  destruct (allocate_proper p Hp s a Hinv) as (Ha & _ & _ & _ & Hpa).
  destruct (allocate_proper p Hp _ b Ha) as (Hab & _ & _ & _ & Hpab).
  destruct (allocate_proper p Hp s (a + b) Hinv) as (Hc & _ & _ & _ & Hpc).
  apply (same_position_cursor p Hvalid); try done.
  - by apply (inv_index_proper p Hvalid).
  - by apply (inv_index_proper p Hvalid).
  - lia.
Qed.

Lemma allocate_compose_witness :
  _cursor (final (allocate (final (allocate rs 12500)) (-6000)))
  = _cursor (final (allocate rs (12500 + -6000))).
Proof.
  apply (allocate_compose test_progression); [reflexivity|apply reachable_init].
Defined.

(** X7: on a proper progression what the tiers hold always adds up to the
    net number of copies allocated: one call of allocate moves the sum of
    the attributions by its delta, and [reset] brings it back to 0. *)
Theorem attributed_tracks_copies p s d :
  proper p = true -> reachable p s ->
  attributed (final (allocate s d)) = attributed s + d
  /\ attributed (reset s) = 0.
Proof.
  intros Hp Hs. pose proof (proper_valid p Hp) as Hvalid.
  pose proof (reachable_inv p s Hvalid Hs) as Hinv.
  destruct (allocate_proper p Hp s d Hinv) as (Hd & _ & _ & _ & Hpos).
  rewrite !(attributed_position p) by (done || by apply inv_reset).
  split; [done|].
  unfold position, reset. simpl. rewrite (inv_progression _ _ Hinv).
  destruct (p !! 0%nat) as [st|] eqn:Hst; simpl; [|done].
  rewrite init_cursor_lookup, decide_True by (by eapply rate_elem_of). done.
Qed.

Lemma attributed_tracks_copies_witness :
  attributed (final (allocate (final (push rs 12500)) (-6000)))
  = attributed (final (push rs 12500)) + -6000
  /\ attributed (reset (final (push rs 12500))) = 0.
Proof.
  apply (attributed_tracks_copies test_progression);
    [reflexivity|apply reachable_push, reachable_init].
Defined.

(** X8: a progression whose first step has limit 0 is accepted, and on it
    the allocator never leaves the first tier: 0 is the mark of a tier
    without an upper limit wherever it stands, so every delta is billed
    whole at the first rate and the rates of the later steps never
    apply. *)
Theorem unbounded_first_tier p st s d :
  progression_is_valid p = true -> p !! 0%nat = Some st -> limit st = 0 ->
  reachable p s ->
  _rate_index s = 0%nat
  /\ outcome (allocate s d) = Returned
  /\ (d <> 0 -> yielded (allocate s d) = [(d, rate st)]).
Proof.
  intros Hvalid Hst Hzero Hs. pose proof (reachable_inv p s Hvalid Hs) as Hinv.
  assert (_rate_index s = 0%nat) as Hidx.
  { destruct (decide (_rate_index s = 0%nat)) as [|Hne]; [done|].
    destruct (inv_below _ _ Hinv 0%nat st ltac:(lia) Hst) as [_ Hw].
    exfalso. apply Hw. unfold limits_entry. simpl. done. }
  split; [done|].
  destruct (inv_cursor_lookup p s _ _ Hinv Hst) as [a Ha].
  unfold allocate, push, pop. destruct (Z.ltb_spec d 0) as [Hd|Hd].
  - cbn [pop_loop].
    replace (d * -1 >? 0) with true by (symmetry; apply Z.gtb_lt; lia).
    rewrite (inv_rates _ _ Hinv), list_lookup_fmap, Hidx, Hst. simpl.
    rewrite Ha. simpl. split; [done|]. intros _. f_equal. f_equal. lia.
  - destruct (decide (d = 0)) as [->|Hne]; [by rewrite push_loop_nonpos|].
    cbn [push_loop].
    replace (d >? 0) with true by (symmetry; apply Z.gtb_lt; lia).
    rewrite (inv_rates _ _ Hinv), list_lookup_fmap, Hidx, Hst. simpl.
    rewrite (inv_limits _ _ Hinv), (limits_lookup p Hvalid _ _ Hst), Ha.
    unfold limits_entry. simpl. rewrite Hzero. simpl. done.
Qed.

Lemma unbounded_first_tier_witness :
  progression_is_valid [mkStep 7 0; mkStep 8 5000; mkStep 9 0] = true
  /\ yielded (allocate
               (final (push (RoyaltyStack_init
                               [mkStep 7 0; mkStep 8 5000; mkStep 9 0]) 4000))
               3000)
     = [(3000, 7)].
Proof.
  split; [reflexivity|].
  apply (unbounded_first_tier [mkStep 7 0; mkStep 8 5000; mkStep 9 0] (mkStep 7 0));
    [reflexivity|reflexivity|reflexivity|apply reachable_push, reachable_init|lia].
Defined.

(** X9: on an accepted progression the active tier is the one the copies
    attributed so far fall in, by the limits as the progression gives
    them: they are no fewer than the limit of the step below the active
    one and, when the active step has a limit, no more than that limit. *)
Theorem active_tier_within_limits p s :
  progression_is_valid p = true -> reachable p s ->
  (forall below, (0 < _rate_index s)%nat ->
     p !! (_rate_index s - 1)%nat = Some below -> limit below <= attributed s)
  /\ (forall st, p !! _rate_index s = Some st -> limit st <> 0 ->
        attributed s <= limit st).
Proof.
  intros Hvalid Hs. pose proof (reachable_inv p s Hvalid Hs) as Hinv.
  rewrite (attributed_position p s Hinv). unfold position.
  rewrite (inv_progression _ _ Hinv). split.
  - intros below Hpos Hbelow.
    assert (filled p (_rate_index s) = limit below) as ->.
    { replace (_rate_index s) with (S (_rate_index s - 1)) at 1 by lia.
      apply (filled_limit p Hvalid); [done|].
      destruct (decide (_rate_index s - 1 = 0)%nat); [by left|right].
      destruct (decide (_rate_index s = length p)) as [Heq|];
        [|pose proof (inv_index _ _ Hinv); lia].
      exfalso.
      destruct (inv_below _ _ Hinv (_rate_index s - 1)%nat below ltac:(lia) Hbelow)
        as [_ Hw].
      pose proof (proj1 (progression_is_valid_true p) Hvalid _ _ Hbelow) as H.
      unfold step_ok in H. rewrite decide_False in H by done.
      rewrite decide_True in H by lia.
      apply Hw. unfold limits_entry. destruct H as [_ ->]. simpl.
      by rewrite orb_true_r. }
    destruct (p !! _rate_index s) as [st|] eqn:Hst; simpl; [|lia].
    destruct (inv_cursor_lookup p s _ _ Hinv Hst) as [a Ha]. rewrite Ha. simpl.
    destruct (inv_at _ _ Hinv st a Hst Ha) as [_ Hge]. specialize (Hge Hpos). lia.
  - intros st Hst Hlim. rewrite Hst. simpl.
    destruct (inv_cursor_lookup p s _ _ Hinv Hst) as [a Ha]. rewrite Ha. simpl.
    destruct (inv_at _ _ Hinv st a Hst Ha) as [Hle _].
    pose proof (filled_S _ _ _ Hst) as HS.
    assert (_rate_index s = 0%nat \/ (S (_rate_index s) < length p)%nat) as Hk.
    { destruct (decide (_rate_index s = 0%nat)); [by left|right].
      pose proof (lookup_lt_Some _ _ _ Hst) as Hlt.
      destruct (decide (S (_rate_index s) = length p)) as [Heq|]; [|lia].
      exfalso.
      pose proof (proj1 (progression_is_valid_true p) Hvalid _ _ Hst) as Hok.
      unfold step_ok in Hok. rewrite decide_False in Hok by done.
      rewrite decide_True in Hok by lia. tauto. }
    rewrite (filled_limit p Hvalid _ _ Hst Hk) in HS.
    assert (limits_entry p (_rate_index s) st <> 0) as Hw.
    { intros Hw. rewrite Hw in HS.
      destruct Hk as [Hk|Hk].
      - revert Hw. unfold limits_entry. rewrite Hk. simpl. done.
      - destruct (decide (_rate_index s = 0%nat)) as [Hz|Hnz].
        + revert Hw. unfold limits_entry. rewrite Hz. simpl. done.
        + destruct (lookup_lt_is_Some_2 p (_rate_index s - 1)) as [prev Hprev]; [lia|].
          pose proof (filled_limit p Hvalid _ _ Hprev ltac:(right; lia)) as Hf.
          replace (S (_rate_index s - 1)) with (_rate_index s) in Hf by lia.
          pose proof (proj1 (progression_is_valid_true p) Hvalid _ _ Hst) as H.
          unfold step_ok in H. rewrite decide_False in H by done.
          rewrite decide_False in H by lia.
          rewrite (list_lookup_total_correct _ _ _ Hprev) in H. lia. }
    specialize (Hle Hw). lia.
Qed.

Lemma active_tier_within_limits_witness :
  5000 <= attributed (final (push rs 6500))
  /\ attributed (final (push rs 6500)) <= 10000.
Proof.
  destruct (active_tier_within_limits test_progression (final (push rs 6500)))
    as [H1 H2]; [reflexivity|apply reachable_push, reachable_init|].
  split.
  - apply (H1 (mkStep 7 5000)); [vm_compute; lia|reflexivity].
  - apply (H2 (mkStep 8 10000)); [reflexivity|simpl; lia].
Defined.

Lemma valid_limit_succ p i a b :
  progression_is_valid p = true ->
  p !! i = Some a -> p !! S i = Some b -> (S i < length p - 1)%nat ->
  limit a < limit b.
Proof.
  intros Hvalid Ha Hb Hi.
  pose proof (proj1 (progression_is_valid_true p) Hvalid _ _ Hb) as H.
  unfold step_ok in H. rewrite decide_False in H by done.
  rewrite decide_False in H by lia.
  replace (S i - 1)%nat with i in H by lia.
  rewrite (list_lookup_total_correct _ _ _ Ha) in H. tauto.
Qed.

Lemma valid_limit_lt p i j a b :
  progression_is_valid p = true ->
  (i < j)%nat -> p !! i = Some a -> p !! j = Some b -> (j < length p - 1)%nat ->
  limit a < limit b.
Proof.
  intros Hvalid Hij Ha. revert b. induction Hij as [|j Hij IH]; intros b Hb Hj.
  - by eapply valid_limit_succ.
  - destruct (lookup_lt_is_Some_2 p j) as [c Hc]; [lia|].
    specialize (IH c Hc ltac:(lia)).
    pose proof (valid_limit_succ p _ _ _ Hvalid Hc Hb Hj). lia.
Qed.

Lemma filled_0 p : filled p 0 = 0.
Proof. reflexivity. Qed.

(** The limits of the steps before the last one do not decrease. *)
Lemma valid_limit_le p i j a b :
  progression_is_valid p = true ->
  (i <= j)%nat -> p !! i = Some a -> p !! j = Some b -> (j < length p - 1)%nat ->
  limit a <= limit b.
Proof.
  intros Hvalid Hij Ha Hb Hj. destruct (decide (i = j)) as [->|Hne].
  - assert (a = b) as -> by congruence. lia.
  - pose proof (valid_limit_lt p i j a b Hvalid ltac:(lia) Ha Hb Hj). lia.
Qed.

(** X25: on an accepted progression that ends with limit 0 and has no
    other limit of 0, every reachable stack is the total of the copies
    attributed so far cut along the limits of the progression: each tier
    holds the part of the total that lies between the limit of the step
    below it and its own limit.  The sales are billed at the rates that
    result from the copies reported to date, as the class promises. *)
Theorem tier_shares p s j st :
  proper p = true ->
  (forall first, p !! 0%nat = Some first -> (1 < length p)%nat -> limit first <> 0) ->
  reachable p s -> p !! j = Some st ->
  _cursor s !! rate st = Some (tier_share p j (attributed s)).
Proof.
  intros Hp Hfirst Hs Hst. pose proof (proper_valid p Hp) as Hvalid.
  pose proof (proper_last p Hp) as Hlast.
  pose proof (reachable_inv p s Hvalid Hs) as Hinv.
  pose proof (inv_index_proper p Hvalid s Hlast Hinv) as Hidx.
  rewrite (attributed_position p s Hinv).
  destruct (lookup_lt_is_Some_2 p (_rate_index s) Hidx) as [act Hact].
  destruct (inv_cursor_lookup p s _ _ Hinv Hact) as [a Ha].
  rewrite (position_at p s act a Hinv Hact Ha).
  destruct (inv_at _ _ Hinv act a Hact Ha) as [Hle Hge].
  pose proof (lookup_lt_Some _ _ _ Hst) as Hj.
  (* the limit of a step that is not the last one is not 0, and it is what
     fills the tiers up to it *)
  assert (forall k x, p !! k = Some x -> (S k < length p)%nat ->
            limit x <> 0 /\ filled p (S k) = limit x
            /\ limits_entry p k x <> 0) as Hmid.
  { intros k x Hx Hk.
    pose proof (filled_limit p Hvalid k x Hx ltac:(right; lia)) as Hf.
    assert (limit x <> 0) as Hnz.
    { destruct k as [|k]; [apply Hfirst; [done|lia]|].
      destruct (lookup_lt_is_Some_2 p k) as [y Hy]; [lia|].
      pose proof (valid_limit_succ p k y x Hvalid Hy Hx ltac:(lia)).
      pose proof (valid_limit_nonneg p Hvalid k y Hy ltac:(left; lia)). lia. }
    split_and!; [done..|].
    rewrite (filled_S _ _ _ Hx) in Hf.
    destruct k as [|k]; [rewrite filled_0 in Hf; lia|].
    destruct (lookup_lt_is_Some_2 p k) as [y Hy]; [lia|].
    pose proof (filled_limit p Hvalid k y Hy ltac:(right; lia)) as Hfy.
    pose proof (valid_limit_succ p k y x Hvalid Hy Hx ltac:(lia)). lia. }
  (* the limit of the last step is 0 *)
  assert (forall k x, p !! k = Some x -> S k = length p -> limit x = 0) as Hend.
  { intros k x Hx Hk. destruct Hlast as (l & Hl & Hzero).
    rewrite last_lookup in Hl. replace (Nat.pred (length p)) with k in Hl by lia.
    congruence. }
  (* what fills the tiers below a tier is the limit of the step below it *)
  assert (forall k x, (0 < k)%nat -> p !! (k - 1)%nat = Some x -> (k < length p)%nat ->
            filled p k = limit x) as Hlow.
  { intros k x Hk Hx Hlen. replace k with (S (k - 1)) at 1 by lia.
    apply (filled_limit p Hvalid); [done|right; lia]. }
  unfold tier_share. rewrite Hst.
  destruct (Nat.lt_trichotomy j (_rate_index s)) as [Hlt|[->|Hgt]].
  - (* a tier below the active one is full *)
    destruct (inv_below _ _ Hinv j st Hlt Hst) as [-> Hw].
    destruct (Hmid j st Hst ltac:(lia)) as (Hnz & Hfill & _).
    replace (limit st =? 0) with false by (symmetry; apply Z.eqb_neq; lia).
    specialize (Hge ltac:(lia)).
    assert (filled p (S j) <= filled p (_rate_index s)) as Hmono.
    { destruct (decide (S j = _rate_index s)) as [->|]; [lia|].
      pose proof (filled_lt p Hvalid s (S j) (_rate_index s) Hinv ltac:(lia) ltac:(lia)).
      lia. }
    pose proof (filled_S _ _ _ Hst) as HS.
    pose proof (width_nonneg p Hvalid j st Hst) as Hwn.
    f_equal. destruct (Nat.eqb_spec j 0) as [->|Hj0].
    + rewrite filled_0 in HS. lia.
    + destruct (lookup_lt_is_Some_2 p (j - 1)) as [y Hy]; [lia|].
      rewrite (list_lookup_total_correct _ _ _ Hy).
      pose proof (Hlow j y ltac:(lia) Hy ltac:(lia)). lia.
  - (* the active tier *)
    assert (act = st) as -> by congruence. rewrite Ha. f_equal.
    destruct (decide (S (_rate_index s) = length p)) as [Hfin|Hnf].
    + rewrite (Hend _ _ Hst Hfin). simpl.
      destruct (Nat.eqb_spec (_rate_index s) 0) as [Hz|Hnz].
      * rewrite Hz, filled_0. lia.
      * destruct (lookup_lt_is_Some_2 p (_rate_index s - 1)) as [y Hy]; [lia|].
        rewrite (list_lookup_total_correct _ _ _ Hy).
        pose proof (Hlow (_rate_index s) y ltac:(lia) Hy ltac:(lia)).
        specialize (Hge ltac:(lia)). lia.
    + destruct (Hmid _ st Hst ltac:(lia)) as (Hnz & Hfill & Hw).
      replace (limit st =? 0) with false by (symmetry; apply Z.eqb_neq; lia).
      specialize (Hle Hw). pose proof (filled_S _ _ _ Hst) as HS.
      destruct (Nat.eqb_spec (_rate_index s) 0) as [Hz|Hnz'].
      * rewrite Hz in *. rewrite filled_0 in *. lia.
      * destruct (lookup_lt_is_Some_2 p (_rate_index s - 1)) as [y Hy]; [lia|].
        rewrite (list_lookup_total_correct _ _ _ Hy).
        pose proof (Hlow (_rate_index s) y ltac:(lia) Hy ltac:(lia)).
        specialize (Hge ltac:(lia)). lia.
  - (* a tier above the active one is empty *)
    rewrite (inv_above _ _ Hinv j st Hgt Hst). f_equal.
    destruct (Hmid _ act Hact ltac:(lia)) as (Hnz & Hfill & Hw).
    specialize (Hle Hw). pose proof (filled_S _ _ _ Hact) as HS.
    replace (j =? 0)%nat with false by (symmetry; apply Nat.eqb_neq; lia).
    destruct (lookup_lt_is_Some_2 p (j - 1)) as [y Hy]; [lia|].
    rewrite (list_lookup_total_correct _ _ _ Hy).
    pose proof (valid_limit_le p (_rate_index s) (j - 1) act y Hvalid
                  ltac:(lia) Hact Hy ltac:(lia)) as Hmono.
    destruct (limit st =? 0); lia.
Qed.

Lemma tier_shares_witness :
  _cursor (final (pop (final (push rs 12500)) 6000)) !! 8
  = Some (tier_share test_progression 1
            (attributed (final (pop (final (push rs 12500)) 6000)))).
Proof.
  apply (tier_shares test_progression _ 1 (mkStep 8 10000)).
  - reflexivity.
  - intros first [= <-] _. simpl. lia.
  - apply reachable_pop, reachable_push, reachable_init.
  - reflexivity.
Defined.

Local Ltac in_list :=
  simpl; repeat first [apply list_elem_of_here | apply list_elem_of_further].

Lemma push_loop_ends fuel s c :
  (length (_rates s) - _rate_index s < fuel)%nat ->
  outcome (push_loop fuel s c) ∈ [Returned; Raised IndexError; Raised KeyError].
Proof.
  revert s c. induction fuel as [|fuel IH]; intros s c Hfuel; [lia|].
  cbn [push_loop]. destruct (c >? 0); [|in_list].
  destruct (_rates s !! _rate_index s) as [cr|] eqn:Hcr; [|in_list].
  destruct (_limits s !! cr) as [w|]; [|in_list].
  destruct (_cursor s !! cr) as [a|]; [|in_list].
  destruct (_ || _); [in_list|].
  unfold yield; cbn [outcome]. apply IH. simpl.
  apply lookup_lt_Some in Hcr. lia.
Qed.

Lemma pop_loop_ends fuel s c :
  (_rate_index s < fuel)%nat \/ (0 < fuel)%nat /\ (length (_rates s) <= _rate_index s)%nat ->
  outcome (pop_loop fuel s c) ∈ [Returned; Raised IndexError; Raised KeyError].
Proof.
  revert s c. induction fuel as [|fuel IH]; intros s c Hfuel; [lia|].
  cbn [pop_loop]. destruct (c >? 0); [|in_list].
  destruct (_rates s !! _rate_index s) as [cr|] eqn:Hcr; [|in_list].
  destruct (_cursor s !! cr) as [a|]; [|in_list].
  destruct (Nat.eqb_spec (_rate_index s) 0) as [Hz|Hnz]; [in_list|].
  simpl. destruct (a - c >=? 0); [in_list|].
  unfold yield; cbn [outcome]. apply IH. simpl.
  apply lookup_lt_Some in Hcr. lia.
Qed.

(** X10: the loops of [push] and [pop] end on every stack, however it was
    built and whatever it holds: each iteration that does not end the loop
    moves [_rate_index] by one, and an index outside [_rates] raises.  A
    call returns, or raises IndexError or KeyError. *)
Theorem allocate_terminates s d :
  outcome (allocate s d) ∈ [Returned; Raised IndexError; Raised KeyError].
Proof.
  unfold allocate, push, pop. destruct (d <? 0).
  - apply pop_loop_ends.
    destruct (Nat.lt_ge_cases (_rate_index s) (S (length (_rates s)))); [by left|].
    right. lia.
  - apply push_loop_ends. lia.
Qed.

Lemma allocate_conserves_witness :
  outcome (allocate (final (push rs 12500)) (-6000)) = Returned
  /\ Zsum (fst <$> yielded (allocate (final (push rs 12500)) (-6000))) = -6000.
Proof.
  apply (allocate_conserves test_progression);
    [reflexivity|apply reachable_push, reachable_init].
Defined.

Lemma allocate_returns_bounded_witness :
  outcome (allocate (final (push rs 12500)) (-6000)) = Returned
  /\ (length (yielded (allocate (final (push rs 12500)) (-6000)))
      <= length test_progression)%nat
  /\ reachable test_progression (final (allocate (final (push rs 12500)) (-6000)))
  /\ reachable test_progression (reset (final (push rs 12500))).
Proof.
  apply (allocate_returns_bounded test_progression);
    [reflexivity|apply reachable_push, reachable_init].
Defined.

(** * Further properties of the validation *)

(** X13: [progression_is_valid] accepts exactly the progressions whose
    rates grow strictly, whose limits grow strictly up to the step before
    the last, whose first rate and first limit are not negative and, when
    they have two steps or more, whose last limit is 0.  The empty
    progression and every progression of one step without negative numbers
    are among them. *)
Theorem progression_is_valid_iff p :
  progression_is_valid p = true <-> well_formed p.
Proof.
  split.
  - intros Hvalid. split_and!.
    + apply StronglySorted_lookup_1. intros i j x y Hij Hi Hj.
      rewrite list_lookup_fmap in Hi, Hj.
      destruct (p !! i) as [a|] eqn:Ha; [|done].
      destruct (p !! j) as [b|] eqn:Hb; [|done].
      simpl in Hi, Hj. injection Hi as <-. injection Hj as <-.
      by apply (valid_rate_lt p Hvalid i j).
    + apply StronglySorted_lookup_1. intros i j x y Hij Hi Hj.
      rewrite list_lookup_fmap in Hi, Hj.
      destruct (take _ p !! i) as [a|] eqn:Ha; [|done].
      destruct (take _ p !! j) as [b|] eqn:Hb; [|done].
      simpl in Hi, Hj. injection Hi as <-. injection Hj as <-.
      apply lookup_take_Some in Ha as [Ha Hia], Hb as [Hb Hjb].
      by apply (valid_limit_lt p i j).
    + intros st Hst.
      pose proof (proj1 (progression_is_valid_true p) Hvalid _ _ Hst) as H.
      unfold step_ok in H. by rewrite decide_True in H.
    + intros Hlen. destruct (lookup_lt_is_Some_2 p (length p - 1)) as [st Hst]; [lia|].
      exists st. split; [rewrite last_lookup; by replace (Nat.pred (length p)) with (length p - 1)%nat by lia|].
      pose proof (proj1 (progression_is_valid_true p) Hvalid _ _ Hst) as H.
      unfold step_ok in H. rewrite decide_False in H by lia.
      rewrite decide_True in H by done. tauto.
  - intros (Hrates & Hlimits & Hfirst & Hlast).
    apply progression_is_valid_true. intros i st Hst. unfold step_ok.
    pose proof (lookup_lt_Some _ _ _ Hst) as Hlt.
    destruct (decide (i = 0%nat)) as [->|Hi]; [by apply Hfirst|].
    destruct (lookup_lt_is_Some_2 p (i - 1)) as [prev Hprev]; [lia|].
    rewrite (list_lookup_total_correct _ _ _ Hprev).
    assert (rate prev < rate st) as Hr.
    { apply (StronglySorted_lookup_2 Z.lt (rate <$> p) (i - 1) i); [done|lia|..];
        rewrite list_lookup_fmap; [by rewrite Hprev|by rewrite Hst]. }
    destruct (decide (i = (length p - 1)%nat)) as [Heq|Hne].
    + split; [done|]. destruct Hlast as (st' & Hst' & Hzero); [lia|].
      rewrite last_lookup in Hst'.
      replace (Nat.pred (length p)) with i in Hst' by lia. congruence.
    + split; [done|].
      apply (StronglySorted_lookup_2 Z.lt (limit <$> take (length p - 1) p) (i - 1) i);
        [done|lia|..]; rewrite list_lookup_fmap, lookup_take_lt by lia;
        [by rewrite Hprev|by rewrite Hst].
Qed.

(** * Further properties of agreements *)

(** The arithmetic of a report raises nothing but [Overflow]: the divisor
    is 100. *)
Lemma fix_raises d e : _fix d = inl e -> e = Overflow.
Proof. unfold _fix. intros H. repeat case_match; congruence. Qed.

Lemma Decimal_add_raises a b e : Decimal_add a b = inl e -> e = Overflow.
Proof.
  unfold Decimal_add. intros H.
  repeat case_match; try congruence; by eapply fix_raises.
Qed.

Lemma due_amount_raises copies rate price e :
  Right.due_amount copies rate price = inl e -> e = Overflow.
Proof.
  unfold Right.due_amount, Decimal_mul.
  destruct (_fix _) as [e'|product] eqn:Hmul.
  { intros [= <-]. by eapply fix_raises. }
  unfold Decimal_truediv.
  replace (_int (Decimal_of_int 100) =? 0) with false by reflexivity.
  intros H. repeat case_match; by eapply fix_raises.
Qed.

Lemma push_loop_lengths fuel s c :
  length (yielded (push_loop fuel s c)) = length (suspended (push_loop fuel s c)).
Proof.
  revert s c. induction fuel as [|fuel IH]; intros s c; cbn [push_loop].
  { by destruct (c >? 0). }
  destruct (c >? 0); [|done].
  destruct (_rates s !! _rate_index s) as [cr|]; [|done].
  destruct (_limits s !! cr) as [w|]; [|done].
  destruct (_cursor s !! cr) as [a|]; [|done].
  destruct (_ || _); unfold yield, stop; cbn [yielded suspended length]; [done|].
  by rewrite IH.
Qed.

Lemma pop_loop_lengths fuel s c :
  length (yielded (pop_loop fuel s c)) = length (suspended (pop_loop fuel s c)).
Proof.
  revert s c. induction fuel as [|fuel IH]; intros s c; cbn [pop_loop].
  { by destruct (c >? 0). }
  destruct (c >? 0); [|done].
  destruct (_rates s !! _rate_index s) as [cr|]; [|done].
  destruct (_cursor s !! cr) as [a|]; [|done].
  destruct (_ || _); unfold yield, stop; cbn [yielded suspended length]; [done|].
  by rewrite IH.
Qed.

(** The tuples a right's allocator yields for a statement. *)
Lemma get_iterator_run bound c :
  progression_is_valid (Right.progression bound) = true ->
  stack_inv (Right.progression bound) (Right._royalty_stack bound) ->
  let inner := Right._get_iterator bound c in
  length (yielded inner) = length (suspended inner)
  /\ stack_inv (Right.progression bound) (final inner)
  /\ (outcome inner = Returned -> Zsum (fst <$> yielded inner) = c)
  /\ (proper (Right.progression bound) = true -> outcome inner = Returned).
Proof.
  intros Hvalid Hinv inner. split_and!.
  - unfold inner, Right._get_iterator, push, pop.
    destruct (c <? 0); [apply pop_loop_lengths|apply push_loop_lengths].
  - unfold inner, Right._get_iterator.
    destruct (c <? 0); [by apply inv_pop|by apply inv_push].
  - unfold inner, Right._get_iterator, push, pop.
    destruct (Z.ltb_spec c 0) as [Hc|Hc].
    + destruct (pop_loop_spec _ Hvalid
                  (S (length (_rates (Right._royalty_stack bound))))
                  (Right._royalty_stack bound) (c * -1) Hinv ltac:(lia))
        as (_ & _ & [(_ & Hsum & _)|[Hout _]]).
      * rewrite (inv_rates _ _ Hinv), length_fmap.
        pose proof (inv_index _ _ Hinv). lia.
      * intros _. lia.
      * rewrite Hout. done.
    + destruct (decide (c = 0)) as [->|Hne]; [by rewrite push_loop_nonpos|].
      destruct (push_loop_spec _ Hvalid
                  (S (length (_rates (Right._royalty_stack bound))))
                  (Right._royalty_stack bound) c Hinv ltac:(lia))
        as (_ & _ & [(_ & Hsum & _)|[Hout _]]).
      * rewrite (inv_rates _ _ Hinv), length_fmap. lia.
      * done.
      * rewrite Hout. done.
  - intros Hproper.
    by destruct (allocate_proper _ Hproper (Right._royalty_stack bound) c Hinv)
      as (_ & ? & _).
Qed.

Lemma report_loop_run self stmt tuples stacks fin out name :
  Right.name self = inr name -> length tuples = length stacks ->
  let r := Right.report_loop self stmt tuples stacks fin out in
  length (yielded r) = length (suspended r)
  /\ Forall (fun item => ReportItem.right item = name
                         /\ ReportItem.date item = Statement.date stmt
                         /\ ReportItem.price item = Statement.price stmt)
       (yielded r)
  /\ (outcome r = Returned ->
      out = Returned /\ final r = fin
      /\ ReportItem.copies <$> yielded r = fst <$> tuples)
  /\ (outcome r = out \/ outcome r = Raised Overflow).
Proof.
  intros Hname. revert stacks.
  induction tuples as [|[copies rate] tuples IH]; intros [|stack stacks] Hlen;
    try done.
  { simpl. split_and!; [done|constructor|done|by left]. }
  cbn [Right.report_loop Right.report_item]. rewrite Hname.
  destruct (Right.due_amount copies rate (Statement.price stmt)) as [e|due] eqn:Hdue.
  { apply due_amount_raises in Hdue as ->. simpl.
    split_and!; [done|constructor|done|by right]. }
  destruct (IH stacks ltac:(by injection Hlen)) as (H1 & H2 & H3 & H4).
  unfold yield; cbn [yielded suspended final outcome length].
  split_and!; [by rewrite H1|by constructor|..|done].
  intros Hout. destruct (H3 Hout) as (? & ? & Hc).
  split_and!; try done. rewrite !fmap_cons. simpl. by rewrite Hc.
Qed.

Lemma apply_statement_run bound s name :
  Right.name bound = inr name ->
  progression_is_valid (Right.progression bound) = true ->
  stack_inv (Right.progression bound) (Right._royalty_stack bound) ->
  let r := Right.apply_statement bound s in
  length (yielded r) = length (suspended r)
  /\ Forall (fun item => ReportItem.right item = name
                         /\ ReportItem.date item = Statement.date s
                         /\ ReportItem.price item = Statement.price s)
       (yielded r)
  /\ (outcome r = Returned ->
      stack_inv (Right.progression bound) (final r)
      /\ Zsum (ReportItem.copies <$> yielded r) = Statement.copies s)
  /\ (proper (Right.progression bound) = true ->
      outcome r ∈ [Returned; Raised Overflow]).
Proof.
  intros Hname Hvalid Hinv r.
  destruct (get_iterator_run bound (Statement.copies s) Hvalid Hinv)
    as (Hlen & Hfin & Hsum & Hret).
  destruct (report_loop_run bound s _ _
              (final (Right._get_iterator bound (Statement.copies s)))
              (outcome (Right._get_iterator bound (Statement.copies s)))
              name Hname Hlen) as (H1 & H2 & H3 & H4).
  fold (Right.apply_statement bound s) in H1, H2, H3, H4. fold r in H1, H2, H3, H4.
  split_and!; [done|done|..].
  - intros Hout. destruct (H3 Hout) as (Hinner & -> & ->).
    split; [done|by apply Hsum].
  - intros Hproper. destruct H4 as [->| ->]; [|in_list].
    rewrite (Hret Hproper). in_list.
Qed.

Lemma settle_run adv its stacks :
  length its = length stacks ->
  let '(out, adv', stopped) := Agreement.settle adv its stacks in
  Forall (fun item => exists it, it ∈ its
             /\ ReportItem.right item = ReportItem.right it
             /\ ReportItem.date item = ReportItem.date it
             /\ ReportItem.price item = ReportItem.price it) out
  /\ (stopped = None -> ReportItem.copies <$> out = ReportItem.copies <$> its)
  /\ (forall e st, stopped = Some (e, st) -> e = Overflow).
Proof.
  revert adv stacks. induction its as [|item its IH]; intros adv [|stack stacks] Hlen;
    try done.
  cbn [Agreement.settle].
  destruct (Decimal_sub adv (ReportItem.due item)) as [e|b] eqn:Hsub.
  { split_and!; [constructor|done|].
    intros ? ? [= <- <-]. by eapply Decimal_add_raises. }
  specialize (IH b stacks ltac:(by injection Hlen)).
  destruct (Agreement.settle b its stacks) as [[out adv'] stopped].
  destruct IH as (Hall & Hcopies & Hstop).
  split_and!.
  - constructor.
    + exists item. split; [by left|done].
    + eapply Forall_impl; [exact Hall|].
      intros x (it & Hit & ?). exists it. split; [by right|done].
  - intros Hnone. rewrite !fmap_cons. simpl. by rewrite Hcopies.
  - exact Hstop.
Qed.

Lemma Zsum_perm l1 l2 : l1 ≡ₚ l2 -> Zsum l1 = Zsum l2.
Proof. induction 1; rewrite ?Zsum_cons; lia. Qed.

(** One generator after the other, over rights that are [live]. *)
Lemma chain_run rights adv gens :
  live rights ->
  Forall (fun g => is_Some (rights !! g.1)) gens ->
  let '(out, rights', c) := Agreement.chain rights adv gens in
  Forall (fun item => exists g, g ∈ gens
             /\ ReportItem.right item = g.1
             /\ ReportItem.date item = Statement.date g.2
             /\ ReportItem.price item = Statement.price g.2) out
  /\ (c = Returned ->
      Zsum (ReportItem.copies <$> out)
      = Zsum (Statement.copies <$> (snd <$> gens)))
  /\ (map_Forall (fun _ r => proper (Right.progression r) = true) rights ->
      c ∈ [Returned; Raised Overflow]).
Proof.
  revert rights adv.
  induction gens as [|[name s] gens IH]; intros rights adv Hlive Hres.
  { simpl. split_and!; [constructor|done|intros _; in_list]. }
  cbn [Agreement.chain].
  inversion Hres as [|? ? [bound Hb] Hres']; subst. simpl in Hb. rewrite Hb.
  destruct (Hlive _ _ Hb) as (Hname & Hvalid & Hinv).
  destruct (apply_statement_run bound s name Hname Hvalid Hinv)
    as (Hlen & Hitems & Hret & Herr).
  set (r := Right.apply_statement bound s) in *.
  pose proof (settle_run adv (yielded r) (suspended r) Hlen) as Hsettle.
  destruct (Agreement.settle adv (yielded r) (suspended r))
    as [[out adv'] stopped].
  destruct Hsettle as (Hall & Hcopies & Hstop).
  assert (Forall (fun item => exists g, g ∈ (name, s) :: gens
            /\ ReportItem.right item = g.1
            /\ ReportItem.date item = Statement.date g.2
            /\ ReportItem.price item = Statement.price g.2) out) as Hout.
  { eapply Forall_impl; [exact Hall|]. intros item (it & Hit & Hr & Hd & Hp).
    rewrite Forall_forall in Hitems. destruct (Hitems it Hit) as (? & ? & ?).
    exists (name, s). split; [by left|]. simpl. split_and!; congruence. }
  destruct stopped as [[e stack]|].
  { split_and!; [done|done|]. intros _. rewrite (Hstop e stack eq_refl). in_list. }
  destruct (outcome r) as [|e|] eqn:Hout_r.
  - destruct (Hret eq_refl) as [Hfin Hsum].
    set (rights1 := <[name := Right.with_stack bound (final r)]> rights).
    assert (live rights1) as Hlive1.
    { intros k r' Hk. unfold rights1 in Hk.
      destruct (decide (k = name)) as [->|Hne].
      - rewrite lookup_insert_eq in Hk. injection Hk as <-. by simpl.
      - rewrite lookup_insert_ne in Hk by done. by apply Hlive. }
    assert (Forall (fun g => is_Some (rights1 !! g.1)) gens) as Hres1.
    { eapply Forall_impl; [exact Hres'|]. intros g Hg. unfold rights1.
      destruct (decide (g.1 = name)) as [->|Hne];
        [rewrite lookup_insert_eq; by eexists|by rewrite lookup_insert_ne]. }
    specialize (IH rights1 adv' Hlive1 Hres1).
    destruct (Agreement.chain rights1 adv' gens) as [[out' rights'] c].
    destruct IH as (Hall' & Hsum' & Herr').
    split_and!.
    + apply Forall_app. split; [done|].
      eapply Forall_impl; [exact Hall'|]. intros item (g & Hg & ?).
      exists g. split; [by right|done].
    + intros Hc. rewrite fmap_app, Zsum_app, !fmap_cons, Zsum_cons. simpl.
      rewrite (Hsum' Hc), (Hcopies eq_refl), Hsum. done.
    + intros Hproper. apply Herr'. unfold rights1.
      apply map_Forall_insert_2; [|done]. simpl. by apply (Hproper name).
  - split_and!; [done|done|]. intros Hproper. by apply Herr, (Hproper name).
  - split_and!; [done|done|]. intros Hproper. by apply Herr, (Hproper name).
Qed.

Lemma raw_items_names rights stmts gens :
  Agreement.raw_items rights stmts = inr gens ->
  Forall (fun g => Statement.name g.2 = inr g.1 /\ is_Some (rights !! g.1)) gens.
Proof.
  revert gens. induction stmts as [|s stmts IH]; intros gens; simpl.
  - intros [= <-]. constructor.
  - destruct (Statement.name s) as [e|name] eqn:Hn; [done|].
    destruct (rights !! name) eqn:Hr; [|done].
    destruct (Agreement.raw_items rights stmts) as [e|gens']; [done|].
    intros [= <-]. constructor; [|by apply IH]. simpl. split; [done|by eexists].
Qed.

Lemma raw_items_resolved rights stmts :
  Forall (fun s => exists name, Statement.name s = inr name
                                /\ is_Some (rights !! name)) stmts ->
  exists gens, Agreement.raw_items rights stmts = inr gens.
Proof.
  induction 1 as [|s stmts (name & Hn & [r Hr]) _ [gens IH]]; simpl.
  - by eexists.
  - rewrite Hn, Hr, IH. by eexists.
Qed.

Lemma raw_items_unresolved rights stmts :
  Exists (fun s => match Statement.name s with
                   | inl _ => True
                   | inr name => rights !! name = None
                   end) stmts ->
  exists e, Agreement.raw_items rights stmts = inl e
            /\ (e = KeyError \/ e = NotImplementedError)
            /\ (Forall (fun s => Statement.class s <> BaseStatement) stmts ->
                e = KeyError).
Proof.
  induction stmts as [|s stmts IH]; intros Hex; [by apply Exists_nil in Hex|].
  simpl. unfold Statement.name at 1.
  destruct (Statement.class s) eqn:Hclass.
  - exists NotImplementedError. split_and!; [done|by right|].
    intros Hall. by inversion Hall.
  - destruct (rights !! "trade volume"%string) eqn:Hr.
    + apply Exists_cons in Hex as [Hex|Hex].
      { unfold Statement.name in Hex. rewrite Hclass in Hex. congruence. }
      destruct (IH Hex) as (e & -> & He & Hk). exists e. split_and!; [done..|].
      intros Hall. apply Hk. by inversion Hall.
    + exists KeyError. split_and!; [done|by left|done].
  - destruct (rights !! "ebook"%string) eqn:Hr.
    + apply Exists_cons in Hex as [Hex|Hex].
      { unfold Statement.name in Hex. rewrite Hclass in Hex. congruence. }
      destruct (IH Hex) as (e & -> & He & Hk). exists e. split_and!; [done..|].
      intros Hall. apply Hk. by inversion Hall.
    + exists KeyError. split_and!; [done|by left|done].
Qed.

Lemma init_rights_inv m new m' :
  (forall k r, m !! k = Some r -> Right.name r = inr k /\ sound_right r) ->
  Forall sound_right new ->
  Agreement.init_rights m new = inr m' ->
  forall k r, m' !! k = Some r -> Right.name r = inr k /\ sound_right r.
Proof.
  intros Hm Hnew. revert m Hm. induction Hnew as [|x new Hx _ IH]; intros m Hm; simpl.
  - by intros [= <-].
  - destruct (Right.name x) as [e|name] eqn:Hn; [done|].
    apply IH. intros k r Hk.
    destruct (decide (k = name)) as [->|Hne].
    + rewrite lookup_insert_eq in Hk. by injection Hk as <-.
    + rewrite lookup_insert_ne in Hk by done. by apply Hm.
Qed.

(** What every agreement built through the class satisfies. *)
Lemma built_inv a :
  built a ->
  forall k r, Agreement.rights a !! k = Some r ->
    Right.name r = inr k /\ sound_right r.
Proof.
  induction 1 as [advance rights stored Hsound Hinit|a new a' _ IH Hnew Hadd
                  |a stmts _ IH|a _ IH|a _ IH|a _ IH]; intros k r Hk.
  - simpl in Hk.
    eapply (init_rights_inv ∅ (default [] rights) stored); try done;
      intros ? ? Hl; by rewrite lookup_empty in Hl.
  - unfold Agreement.add_right in Hadd.
    destruct (Right.name new) as [e|name] eqn:Hn; [done|].
    injection Hadd as <-. simpl in Hk.
    destruct (decide (k = name)) as [->|Hne].
    + rewrite lookup_insert_eq in Hk. by injection Hk as <-.
    + rewrite lookup_insert_ne in Hk by done. by apply IH.
  - by apply IH.
  - by apply IH.
  - simpl in Hk. rewrite lookup_fmap in Hk.
    destruct (Agreement.rights a !! k) as [r0|] eqn:Hr0; [|done].
    simpl in Hk. injection Hk as <-.
    destruct (IH k r0 Hr0) as (Hn & Hv & Hs). split; [done|]. split; [done|].
    simpl. by rewrite <- Hs.
  - destruct (apply_statements_after a) as (_ & _ & Hreset).
    pose proof (f_equal (fun m => m !! k) Hreset) as Hl. simpl in Hl.
    rewrite !lookup_fmap, Hk in Hl.
    destruct (Agreement.rights a !! k) as [r0|] eqn:Hr0; [|done].
    simpl in Hl. assert (Right.reset r = Right.reset r0) as Heq by congruence.
    pose proof (f_equal Right.class Heq) as Hc.
    pose proof (f_equal Right.progression Heq) as Hp.
    pose proof (f_equal Right._royalty_stack Heq) as Hs. simpl in Hc, Hp, Hs.
    destruct (IH k r0 Hr0) as (Hn & Hv & Hs0).
    unfold Right.name, sound_right. rewrite Hc, Hp, Hs. done.
Qed.

(** The rights a run starts from, once [_reset_rights] has reset them. *)
Lemma reset_rights_live (rights : gmap string Right.t) :
  (forall k r, rights !! k = Some r -> Right.name r = inr k /\ sound_right r) ->
  live (Right.reset <$> rights).
Proof.
  intros Hinv k r Hk. rewrite lookup_fmap in Hk.
  destruct (rights !! k) as [r0|] eqn:Hr0; [|done].
  simpl in Hk. injection Hk as <-.
  destruct (Hinv k r0 Hr0) as (Hn & Hv & Hs). split_and!; [done..|].
  simpl. rewrite Hs. by apply inv_init.
Qed.

(** A run of [apply_statements] over rights that are stored under their
    names and are sound. *)
Lemma apply_statements_run a :
  (forall k r, Agreement.rights a !! k = Some r ->
     Right.name r = inr k /\ sound_right r) ->
  let rep := Agreement.apply_statements a in
  Forall (fun item => exists s, s ∈ Agreement.statements a
             /\ Statement.name s = inr (ReportItem.right item)
             /\ ReportItem.date item = Statement.date s
             /\ ReportItem.price item = Statement.price s) (Agreement.items rep)
  /\ (Agreement.ended rep = Returned ->
      Zsum (ReportItem.copies <$> Agreement.items rep)
      = Zsum (Statement.copies <$> Agreement.statements a))
  /\ (map_Forall (fun _ r => proper (Right.progression r) = true)
        (Agreement.rights a) ->
      Forall (resolved a) (Agreement.statements a) ->
      Agreement.ended rep ∈ [Returned; Raised Overflow]).
Proof.
  intros Hinv. unfold Agreement.apply_statements.
  set (a0 := Agreement._reset_rights (Agreement._sort_statements a)).
  assert (Agreement.statements a0 ≡ₚ Agreement.statements a) as Hperm
    by apply sort_by_date_perm.
  destruct (Agreement.raw_items (Agreement.rights a0) (Agreement.statements a0))
    as [e|gens] eqn:Hraw.
  { simpl. split_and!; [constructor|done|].
    intros _ Hres. exfalso.
    destruct (raw_items_resolved (Agreement.rights a0) (Agreement.statements a0))
      as [gens Hgens]; [|congruence].
    rewrite Hperm. eapply Forall_impl; [exact Hres|].
    intros s (name & Hn & [r Hr]). exists name. split; [done|].
    simpl. rewrite lookup_fmap, Hr. by eexists. }
  pose proof (raw_items_names _ _ _ Hraw) as Hnames.
  pose proof (raw_items_statements _ _ _ Hraw) as Hsnd.
  pose proof (chain_run (Agreement.rights a0) (Agreement.advance a0) gens
                (reset_rights_live _ Hinv)) as H.
  destruct (Agreement.chain _ _ gens) as [[out rights'] c].
  destruct H as (Hall & Hsum & Herr).
  { eapply Forall_impl; [exact Hnames|]. by intros g [_ ?]. }
  simpl. split_and!.
  - eapply Forall_impl; [exact Hall|]. intros item (g & Hg & Hr & Hd & Hp).
    exists g.2. rewrite Forall_forall in Hnames.
    destruct (Hnames g Hg) as [Hn _]. split_and!; [|congruence|done..].
    rewrite <- Hperm, <- Hsnd. apply list_elem_of_fmap. by exists g.
  - intros Hc. rewrite (Hsum Hc), Hsnd. apply Zsum_perm.
    by apply fmap_Permutation.
  - intros Hproper _. apply Herr. simpl.
    apply map_Forall_fmap. eapply map_Forall_impl; [exact Hproper|]. done.
Qed.

(** The lines of a chain of generators, statement by statement: a block
    for each statement whose generator ran to its end, in the order of the
    statements, then the lines of the statement the chain stopped in. *)
Lemma chain_blocks rights adv gens :
  let '(out, rights', c) := Agreement.chain rights adv gens in
  exists blocks partial,
    out = concat blocks ++ partial
    /\ (length blocks <= length gens)%nat
    /\ Forall2 (fun g block =>
          Forall (fun item => ReportItem.date item = Statement.date g.2
                              /\ ReportItem.price item = Statement.price g.2)
            block)
         (take (length blocks) gens) blocks
    /\ Forall (fun item => exists g, gens !! length blocks = Some g
                 /\ ReportItem.date item = Statement.date g.2
                 /\ ReportItem.price item = Statement.price g.2) partial
    /\ (c = Returned -> length blocks = length gens /\ partial = [])
    /\ (live rights ->
        Forall (fun g => Statement.name g.2 = inr g.1
                         /\ is_Some (rights !! g.1)) gens ->
        Forall2 (fun g block =>
            Zsum (ReportItem.copies <$> block) = Statement.copies g.2
            /\ Forall (fun item =>
                  Statement.name g.2 = inr (ReportItem.right item)) block)
          (take (length blocks) gens) blocks
        /\ Forall (fun item => exists g, gens !! length blocks = Some g
                     /\ Statement.name g.2 = inr (ReportItem.right item))
             partial).
Proof.
  revert rights adv. induction gens as [|[name s] gens IH]; intros rights adv.
  { simpl. exists [], [].
    split_and!; try done; try constructor; try (intros _ _; split; constructor). }
  cbn [Agreement.chain].
  destruct (rights !! name) as [bound|] eqn:Hb.
  2:{ exists [], [].
      split_and!; try done; try constructor; try (simpl; lia);
        try (intros _ _; split; constructor). }
  pose proof (report_loop_items bound s
                (yielded (Right._get_iterator bound (Statement.copies s)))
                (suspended (Right._get_iterator bound (Statement.copies s)))
                (final (Right._get_iterator bound (Statement.copies s)))
                (outcome (Right._get_iterator bound (Statement.copies s))))
    as Hitems.
  fold (Right.apply_statement bound s) in Hitems.
  pose proof (apply_statement_run bound s name) as Hstmt.
  set (r := Right.apply_statement bound s) in *.
  pose proof (settle_spec adv (yielded r) (suspended r)) as Hsettle.
  pose proof (settle_run adv (yielded r) (suspended r)) as Hrun.
  destruct (Agreement.settle adv (yielded r) (suspended r))
    as [[out adv'] stopped].
  destruct Hsettle as (_ & _ & Hall & _).
  assert (Forall (fun item => ReportItem.date item = Statement.date s
                              /\ ReportItem.price item = Statement.price s) out)
    as Hmine.
  { eapply Forall_impl; [exact Hall|]. intros item (it & Hit & Hd & Hp & _).
    rewrite Forall_forall in Hitems. destruct (Hitems it Hit) as [? ?].
    split; congruence. }
  assert (live rights ->
          Forall (fun item => ReportItem.right item = name) out
          /\ (stopped = None -> outcome r = Returned ->
              Zsum (ReportItem.copies <$> out) = Statement.copies s
              /\ stack_inv (Right.progression bound) (final r))) as Hlives.
  { intros Hlive. destruct (Hlive _ _ Hb) as (Hname & Hvalid & Hinv).
    destruct (Hstmt Hname Hvalid Hinv) as (Hlen & Hitems' & Hret & _).
    specialize (Hrun Hlen). simpl in Hrun. destruct Hrun as (Hall' & Hcopies & _).
    split.
    - eapply Forall_impl; [exact Hall'|]. intros item (it & Hit & Hr & _).
      rewrite Forall_forall in Hitems'. destruct (Hitems' it Hit) as (? & _).
      congruence.
    - intros Hnone Hout. destruct (Hret Hout) as [Hfin Hsum].
      split; [|done]. by rewrite (Hcopies Hnone). }
  assert (forall c, c <> Returned ->
    exists blocks partial,
      out = concat blocks ++ partial
      /\ (length blocks <= length ((name, s) :: gens))%nat
      /\ Forall2 (fun g block =>
            Forall (fun item => ReportItem.date item = Statement.date g.2
                                /\ ReportItem.price item = Statement.price g.2)
              block)
           (take (length blocks) ((name, s) :: gens)) blocks
      /\ Forall (fun item => exists g,
                   ((name, s) :: gens) !! length blocks = Some g
                   /\ ReportItem.date item = Statement.date g.2
                   /\ ReportItem.price item = Statement.price g.2) partial
      /\ (c = Returned ->
          length blocks = length ((name, s) :: gens) /\ partial = [])
      /\ (live rights ->
          Forall (fun g => Statement.name g.2 = inr g.1
                           /\ is_Some (rights !! g.1)) ((name, s) :: gens) ->
          Forall2 (fun g block =>
              Zsum (ReportItem.copies <$> block) = Statement.copies g.2
              /\ Forall (fun item =>
                    Statement.name g.2 = inr (ReportItem.right item)) block)
            (take (length blocks) ((name, s) :: gens)) blocks
          /\ Forall (fun item => exists g,
                       ((name, s) :: gens) !! length blocks = Some g
                       /\ Statement.name g.2 = inr (ReportItem.right item))
               partial)) as Hstop.
  { intros c Hc. exists [], out. split_and!.
    - done.
    - simpl. lia.
    - constructor.
    - eapply Forall_impl; [exact Hmine|]. intros item [? ?].
      by exists (name, s).
    - done.
    - intros Hlive Hres. split; [constructor|].
      destruct (Hlives Hlive) as [Hr _].
      inversion Hres as [|? ? [Hn _] _]; subst. simpl in Hn.
      eapply Forall_impl; [exact Hr|]. intros item Hitem.
      exists (name, s). split; [done|]. simpl. congruence. }
  destruct stopped as [[e stack]|]; [by apply Hstop|].
  destruct (outcome r) as [|e|] eqn:Hout_r; [|by apply Hstop..].
  set (rights1 := <[name := Right.with_stack bound (final r)]> rights).
  specialize (IH rights1 adv').
  destruct (Agreement.chain rights1 adv' gens) as [[out' rights'] c].
  destruct IH as (blocks' & partial' & Hcat & Hlen' & Hlab & Hpart & Hret' & Hsound').
  exists (out :: blocks'), partial'. split_and!.
  - rewrite Hcat. simpl. by rewrite app_assoc.
  - simpl. lia.
  - simpl. by constructor.
  - done.
  - intros Hc. destruct (Hret' Hc) as [Hl Hp]. simpl. by rewrite Hl.
  - intros Hlive Hres.
    inversion Hres as [|? ? [Hn _] Hres']; subst. simpl in Hn.
    destruct (Hlives Hlive) as [Hr Hdone].
    destruct (Hdone eq_refl eq_refl) as [Hsum Hfin].
    destruct (Hlive _ _ Hb) as (Hname & Hvalid & Hinv).
    assert (live rights1) as Hlive1.
    { intros k r' Hk. unfold rights1 in Hk.
      destruct (decide (k = name)) as [->|Hne].
      - rewrite lookup_insert_eq in Hk. injection Hk as <-. by simpl.
      - rewrite lookup_insert_ne in Hk by done. by apply Hlive. }
    assert (Forall (fun g => Statement.name g.2 = inr g.1
                             /\ is_Some (rights1 !! g.1)) gens) as Hres1.
    { eapply Forall_impl; [exact Hres'|]. intros g [Hg1 Hg2]. split; [done|].
      unfold rights1. destruct (decide (g.1 = name)) as [->|Hne];
        [rewrite lookup_insert_eq; by eexists|by rewrite lookup_insert_ne]. }
    destruct (Hsound' Hlive1 Hres1) as [H1 H2]. split; [|done].
    simpl. constructor; [|done]. simpl. split; [done|].
    eapply Forall_impl; [exact Hr|]. intros item Hitem. congruence.
Qed.

(** C9, as the code has it.  A run of [apply_statements] leaves the
    statements in the stable order of their dates, and it is the run of the
    agreement with its statements sorted and all its rights reset.  The
    statements are processed in that order: the lines are a block for each
    statement whose generator ran to its end, block after block in the
    order of the sorted statements, followed by the lines of the statement
    the run stopped in when it raised; every line carries the date and the
    price of its statement, and when the run returns every statement has
    its block.  When the rights are stored under their names and are
    sound, the copies of a block add up to the copies of its statement, and
    its lines are labelled with the name of the statement.  The lines come
    out in the order of the dates, and the line in place n carries the
    advance from which the dues of the lines up to and including it were
    subtracted one after the other, in Decimal arithmetic.  That is the
    advance minus the sum of those dues, exactly, when each of these
    differences has at most 28 digits. *)
Theorem apply_statements_report a :
  let rep := Agreement.apply_statements a in
  let sorted := Agreement.statements (Agreement.after rep) in
  sorted = Agreement.sort_by_date (Agreement.statements a)
  /\ StronglySorted by_date sorted
  /\ sorted ≡ₚ Agreement.statements a
  /\ (forall d, filter (fun s => Statement.date s = d) sorted
                = filter (fun s => Statement.date s = d) (Agreement.statements a))
  /\ rep = Agreement.apply_statements
             (Agreement._reset_rights (Agreement._sort_statements a))
  /\ (exists blocks partial,
        Agreement.items rep = concat blocks ++ partial
        /\ (length blocks <= length sorted)%nat
        /\ Forall2 (fun s block =>
              Forall (fun item => ReportItem.date item = Statement.date s
                                  /\ ReportItem.price item = Statement.price s)
                block)
             (take (length blocks) sorted) blocks
        /\ Forall (fun item => exists s, sorted !! length blocks = Some s
                     /\ ReportItem.date item = Statement.date s
                     /\ ReportItem.price item = Statement.price s) partial
        /\ (Agreement.ended rep = Returned ->
            length blocks = length sorted /\ partial = [])
        /\ (sound_agreement a ->
            Forall2 (fun s block =>
                Zsum (ReportItem.copies <$> block) = Statement.copies s
                /\ Forall (fun item =>
                      Statement.name s = inr (ReportItem.right item)) block)
              (take (length blocks) sorted) blocks
            /\ Forall (fun item => exists s, sorted !! length blocks = Some s
                         /\ Statement.name s = inr (ReportItem.right item))
                 partial))
  /\ StronglySorted datetime.le (ReportItem.date <$> Agreement.items rep)
  /\ Forall (fun item => exists s, s ∈ sorted
               /\ ReportItem.date item = Statement.date s
               /\ ReportItem.price item = Statement.price s)
       (Agreement.items rep)
  /\ (forall n item, Agreement.items rep !! n = Some item ->
       exists b,
         running_balance (Agreement.advance a)
           (ReportItem.due <$> take (S n) (Agreement.items rep)) = inr b
         /\ ReportItem.advance_left item = Some b)
  /\ (forall n item, Agreement.items rep !! n = Some item ->
       let adv := Agreement.advance a in
       let dues := ReportItem.due <$> take (S n) (Agreement.items rep) in
       0 <= _int adv -> _exp adv <= Etop ->
       Forall (fun d => 0 <= _int d /\ _exp d <= Etop) dues ->
       Etiny <= finest adv dues ->
       (forall k, (k <= length dues)%nat -> fits adv (take k dues)) ->
       exists b,
         ReportItem.advance_left item = Some b
         /\ _exp b = finest adv dues
         /\ signed b = exact_balance (finest adv dues) adv dues).
Proof.
  intros rep sorted.
  cut (sorted = Agreement.sort_by_date (Agreement.statements a)
       /\ StronglySorted by_date sorted
       /\ sorted ≡ₚ Agreement.statements a
       /\ (forall d, filter (fun s => Statement.date s = d) sorted
                     = filter (fun s => Statement.date s = d)
                         (Agreement.statements a))
       /\ rep = Agreement.apply_statements
                  (Agreement._reset_rights (Agreement._sort_statements a))
       /\ (exists blocks partial,
             Agreement.items rep = concat blocks ++ partial
             /\ (length blocks <= length sorted)%nat
             /\ Forall2 (fun s block =>
                   Forall (fun item => ReportItem.date item = Statement.date s
                                       /\ ReportItem.price item = Statement.price s)
                     block)
                  (take (length blocks) sorted) blocks
             /\ Forall (fun item => exists s, sorted !! length blocks = Some s
                          /\ ReportItem.date item = Statement.date s
                          /\ ReportItem.price item = Statement.price s) partial
             /\ (Agreement.ended rep = Returned ->
                 length blocks = length sorted /\ partial = [])
             /\ (sound_agreement a ->
                 Forall2 (fun s block =>
                     Zsum (ReportItem.copies <$> block) = Statement.copies s
                     /\ Forall (fun item =>
                           Statement.name s = inr (ReportItem.right item)) block)
                   (take (length blocks) sorted) blocks
                 /\ Forall (fun item => exists s, sorted !! length blocks = Some s
                              /\ Statement.name s = inr (ReportItem.right item))
                      partial))
       /\ StronglySorted datetime.le (ReportItem.date <$> Agreement.items rep)
       /\ Forall (fun item => exists s, s ∈ sorted
                    /\ ReportItem.date item = Statement.date s
                    /\ ReportItem.price item = Statement.price s)
            (Agreement.items rep)
       /\ forall n item, Agreement.items rep !! n = Some item ->
            exists b,
              running_balance (Agreement.advance a)
                (ReportItem.due <$> take (S n) (Agreement.items rep)) = inr b
              /\ ReportItem.advance_left item = Some b).
  { intros (H1 & H2 & H3 & H4 & H5 & Hb & H6 & H7 & H8). split_and!; try done.
    intros n item Hn adv dues Hc He Hds Hm Hfits.
    destruct (H8 n item Hn) as (b & Hb' & Hleft).
    destruct (running_balance_exact adv dues Hc He Hds Hm Hfits)
      as (r & Hr & Hexp & _ & Hval).
    fold adv dues in Hb'. rewrite Hb' in Hr. injection Hr as <-. by exists b. }
  destruct (apply_statements_after a) as (_ & Hsorted & _).
  fold rep in Hsorted. fold sorted in Hsorted.
  assert (StronglySorted by_date sorted) as Hss.
  { rewrite Hsorted. apply Sorted_StronglySorted; [apply _|].
    apply sort_by_date_sorted. }
  split; [done|]. split; [done|].
  split; [rewrite Hsorted; apply sort_by_date_perm|].
  split; [intros d; rewrite Hsorted; apply sort_by_date_stable|].
  split.
  { apply apply_statements_prelude.
    unfold Agreement._reset_rights, Agreement._sort_statements. simpl.
    by rewrite Right_reset_idemp, sort_by_date_idemp. }
  subst rep. unfold sorted in *. clear sorted. revert Hsorted Hss.
  unfold Agreement.apply_statements.
  set (a0 := Agreement._reset_rights (Agreement._sort_statements a)).
  destruct (Agreement.raw_items (Agreement.rights a0) (Agreement.statements a0))
    as [e|gens] eqn:Hraw.
  { simpl. intros _ _. split_and!; [|constructor|constructor|].
    - exists [], [].
      split_and!; try done; try constructor; try (simpl; lia);
        try (intros _; split; constructor).
    - intros n item Hn. by rewrite lookup_nil in Hn. }
  pose proof (chain_spec (Agreement.rights a0) (Agreement.advance a0) gens) as H.
  pose proof (chain_blocks (Agreement.rights a0) (Agreement.advance a0) gens) as Hblocks.
  destruct (Agreement.chain _ _ gens) as [[out rights'] c].
  destruct H as (Hbal & _ & Hall & Hdates). simpl.
  intros Hsorted Hss. pose proof (raw_items_names _ _ _ Hraw) as Hnames.
  apply raw_items_statements in Hraw. simpl in Hraw.
  split_and!.
  - destruct Hblocks as (blocks & partial & Hcat & Hlen & Hlab & Hpart & Hret & Hsound).
    exists blocks, partial. rewrite <- Hraw. split_and!.
    + done.
    + by rewrite length_fmap.
    + rewrite <- fmap_take. by apply Forall2_fmap_l.
    + eapply Forall_impl; [exact Hpart|]. intros item (g & Hg & ? & ?).
      exists g.2. split; [|done]. by rewrite list_lookup_fmap, Hg.
    + intros Hc. rewrite length_fmap. by apply Hret.
    + intros Ha. destruct (Hsound (reset_rights_live _ Ha) Hnames) as [Hs1 Hs2].
      split.
      * rewrite <- fmap_take. by apply Forall2_fmap_l.
      * eapply Forall_impl; [exact Hs2|]. intros item (g & Hg & ?).
        exists g.2. split; [|done]. by rewrite list_lookup_fmap, Hg.
  - apply Hdates. by rewrite Hraw.
  - eapply Forall_impl; [exact Hall|]. intros item (g & Hg & ? & ?).
    exists g.2. split; [|done]. rewrite <- Hraw.
    apply list_elem_of_fmap. by exists g.
  - exact Hbal.
Qed.

Lemma sound_right_tvr : sound_right tvr.
Proof. by split. Qed.

Lemma sound_right_er : sound_right er.
Proof. by split. Qed.

(** The agreement of the test suite is one the class builds:
    [Agreement(1500, [tvr, er])], then [add_statements]. *)
Lemma built_test_agreement : built test_agreement.
Proof.
  change test_agreement with
    (Agreement.add_statements
       (Agreement.mk (Decimal_of_int 1500)
          (<["ebook"%string := er]> (<["trade volume"%string := tvr]> ∅)) [])
       [tvs1; es1; tvs2; es2; tvs3]).
  apply built_add_statements.
  apply (built_init (Decimal_of_int 1500) (Some [tvr; er])); [|reflexivity].
  simpl. constructor; [apply sound_right_tvr|].
  constructor; [apply sound_right_er|constructor].
Qed.

(** The agreement [__init__] leaves, when its advance is a finite number,
    is one of the agreements that are [built]. *)
Lemma init_built (Advance : Type) (Decimal_new : Advance -> exception + constructed)
    advance rights a :
  Forall sound_right (default [] rights) ->
  Agreement.init Advance Decimal_new advance rights = inr (Agreement.finite_advance a) ->
  built a.
Proof.
  intros Hsound. unfold Agreement.init.
  destruct (Decimal_new advance) as [e|[d|v]]; [done|..].
  - destruct rights as [new|]; simpl in *.
    + destruct (Agreement.init_rights ∅ new) as [e|m] eqn:Hm; [done|].
      intros [= <-]. by apply (built_init d (Some new)).
    + intros [= <-]. by apply (built_init d None).
  - destruct rights as [new|]; simpl; [|done].
    by destruct (Agreement.init_rights ∅ new).
Qed.

Lemma apply_statements_report_witness :
  let rep := Agreement.apply_statements test_agreement in
  (exists blocks,
     Agreement.items rep = concat blocks
     /\ Forall2 (fun s block =>
           Zsum (ReportItem.copies <$> block) = Statement.copies s)
          [tvs1; es1; tvs2; es2; tvs3] blocks)
  /\ (exists item b,
        Agreement.items rep !! 4%nat = Some item
        /\ ReportItem.advance_left item = Some b
        /\ _exp b = -3 /\ signed b = -673360).
Proof.
  intros rep.
  destruct (apply_statements_report test_agreement)
    as (_ & _ & _ & _ & _ & Hblocks & _ & _ & _ & Hexact).
  fold rep in Hblocks, Hexact. split.
  - destruct Hblocks as (blocks & partial & Hcat & _ & _ & _ & Hret & Hsound).
    destruct Hret as [Hlen ->]; [vm_compute; reflexivity|].
    destruct (Hsound (built_inv _ built_test_agreement)) as [Hs _].
    exists blocks. split; [by rewrite app_nil_r in Hcat|].
    rewrite Hlen, firstn_all in Hs.
    replace (Agreement.statements (Agreement.after rep))
      with [tvs1; es1; tvs2; es2; tvs3] in Hs by (vm_compute; reflexivity).
    eapply Forall2_impl; [exact Hs|]. by intros s block [? _].
  - destruct (Agreement.items rep !! 4%nat) as [item|] eqn:Hitem;
      [|vm_compute in Hitem; discriminate].
    pose proof (Hexact 4%nat item Hitem) as H. cbv zeta in H.
    replace (ReportItem.due <$> take 5 (Agreement.items rep))
      with [mkDecimal false 284284 (-3); mkDecimal false 30171 (-2);
            mkDecimal false 1250816 (-3); mkDecimal false 44113 (-2);
            mkDecimal true 10458 (-2)] in H by (vm_compute; reflexivity).
    destruct H as (b & Hb & He & Hv).
    + vm_compute. discriminate.
    + vm_compute. discriminate.
    + repeat (constructor; [split; vm_compute; discriminate|]). constructor.
    + vm_compute. discriminate.
    + intros k Hk. simpl in Hk.
      destruct k as [|[|[|[|[|[|k]]]]]]; [vm_compute; reflexivity..|lia].
    + exists item, b. split; [reflexivity|]. split; [exact Hb|].
      split; [rewrite He|rewrite Hv]; vm_compute; reflexivity.
Defined.

(** X14: in an agreement built through the class every right is stored
    under its own name, whatever was added, replaced or run: its
    progression passed the validation, and the fixed part of its stack is
    what the constructor made of the progression. *)
Theorem built_rights_by_name a k r :
  built a -> Agreement.rights a !! k = Some r ->
  Right.name r = inr k
  /\ progression_is_valid (Right.progression r) = true
  /\ reset (Right._royalty_stack r) = RoyaltyStack_init (Right.progression r).
Proof. intros Ha Hk. by apply (built_inv a Ha). Qed.

Lemma built_rights_by_name_witness :
  Right.name er = inr "ebook"%string
  /\ progression_is_valid (Right.progression er) = true
  /\ reset (Right._royalty_stack er) = RoyaltyStack_init (Right.progression er).
Proof.
  apply (built_rights_by_name test_agreement "ebook"%string er).
  - apply built_test_agreement.
  - reflexivity.
Defined.

(** X15: in the report of an agreement built through the class every line
    is labelled with the name of a stored statement and carries the date
    and the price of that statement. *)
Theorem report_lines_labelled a :
  built a ->
  Forall (fun item => exists s, s ∈ Agreement.statements a
             /\ Statement.name s = inr (ReportItem.right item)
             /\ ReportItem.date item = Statement.date s
             /\ ReportItem.price item = Statement.price s)
    (Agreement.items (Agreement.apply_statements a)).
Proof.
  intros Ha. by destruct (apply_statements_run a (built_inv a Ha)) as (? & _).
Qed.

Lemma report_lines_labelled_witness :
  Forall (fun item => exists s, s ∈ Agreement.statements test_agreement
             /\ Statement.name s = inr (ReportItem.right item)
             /\ ReportItem.date item = Statement.date s
             /\ ReportItem.price item = Statement.price s)
    (Agreement.items (Agreement.apply_statements test_agreement)).
Proof. apply (report_lines_labelled test_agreement), built_test_agreement. Defined.

(** X16: when the report of an agreement built through the class runs to
    its end, the copies of its lines add up to the copies of the stored
    statements: every copy sold or returned is on a line. *)
Theorem report_conserves_copies a :
  built a ->
  Agreement.ended (Agreement.apply_statements a) = Returned ->
  Zsum (ReportItem.copies <$> Agreement.items (Agreement.apply_statements a))
  = Zsum (Statement.copies <$> Agreement.statements a).
Proof.
  intros Ha. by destruct (apply_statements_run a (built_inv a Ha)) as (_ & ? & _).
Qed.

Lemma report_conserves_copies_witness :
  Zsum (ReportItem.copies
          <$> Agreement.items (Agreement.apply_statements test_agreement))
  = Zsum (Statement.copies <$> Agreement.statements test_agreement).
Proof.
  apply (report_conserves_copies test_agreement);
    [apply built_test_agreement|vm_compute; reflexivity].
Defined.

(** X17: [apply_statements] binds every statement to its right before it
    yields anything.  When one statement cannot be processed, because it
    is of the base class or because the agreement holds no right of its
    name, the run raises without a single line, also for the statements
    that could be processed; the statements are sorted and the rights
    reset all the same.  The exception is KeyError when no statement is of
    the base class. *)
Theorem apply_statements_unresolved a :
  Exists (unresolved a) (Agreement.statements a) ->
  let rep := Agreement.apply_statements a in
  Agreement.items rep = []
  /\ Agreement.after rep = Agreement._reset_rights (Agreement._sort_statements a)
  /\ (Agreement.ended rep = Raised KeyError
      \/ Agreement.ended rep = Raised NotImplementedError)
  /\ (Forall (fun s => Statement.class s <> BaseStatement) (Agreement.statements a) ->
      Agreement.ended rep = Raised KeyError).
Proof.
  intros Hex. unfold Agreement.apply_statements.
  set (a0 := Agreement._reset_rights (Agreement._sort_statements a)).
  assert (Agreement.statements a0 ≡ₚ Agreement.statements a) as Hperm
    by apply sort_by_date_perm.
  destruct (raw_items_unresolved (Agreement.rights a0) (Agreement.statements a0))
    as (e & -> & He & Hk).
  { rewrite Hperm. eapply Exists_impl; [exact Hex|].
    intros s. unfold unresolved. destruct (Statement.name s) as [|name]; [done|].
    simpl. rewrite lookup_fmap. by intros ->. }
  simpl. split_and!; [done|done|..].
  - destruct He as [-> | ->]; [by left|by right].
  - intros Hall. rewrite Hk; [done|]. by rewrite Hperm.
Qed.

Lemma apply_statements_unresolved_witness :
  let rep := Agreement.apply_statements trade_only_agreement in
  Agreement.items rep = [] /\ Agreement.ended rep = Raised KeyError.
Proof.
  destruct (apply_statements_unresolved trade_only_agreement) as (H1 & _ & _ & H2).
  - apply Exists_cons_tl, Exists_cons_hd. reflexivity.
  - split; [exact H1|]. apply H2.
    constructor; [discriminate|]. constructor; [discriminate|constructor].
Defined.

(** X18: the report of an agreement built through the class with an
    advance that is a finite number, as every advance of the model is,
    whose progressions all end with limit 0 and whose statements all have
    a right, returns or raises the Overflow of the decimal arithmetic: it
    raises no KeyError, IndexError or NotImplementedError.  (With the
    advance sNaN, which [Decimal(advance)] accepts, the first subtraction
    raises InvalidOperation.) *)
Theorem report_raises_overflow_only a :
  built a ->
  map_Forall (fun _ r => proper (Right.progression r) = true) (Agreement.rights a) ->
  Forall (resolved a) (Agreement.statements a) ->
  Agreement.ended (Agreement.apply_statements a) ∈ [Returned; Raised Overflow].
Proof.
  intros Ha. by destruct (apply_statements_run a (built_inv a Ha)) as (_ & _ & ?).
Qed.

Lemma report_raises_overflow_only_witness :
  Agreement.ended (Agreement.apply_statements test_agreement)
  ∈ [Returned; Raised Overflow].
Proof.
  apply (report_raises_overflow_only test_agreement).
  - apply built_test_agreement.
  - apply map_Forall_insert_2; [reflexivity|].
    apply map_Forall_insert_2; [reflexivity|]. apply map_Forall_empty.
  - repeat (constructor; [eexists; split; [reflexivity|by eexists]|]).
    constructor.
Defined.

Lemma init_rights_base m new :
  Exists (fun r => Right.class r = BaseRight) new ->
  Agreement.init_rights m new = inl NotImplementedError.
Proof.
  intros Hex. revert m. induction Hex as [r new Hr|r new _ IH]; intros m; simpl.
  - unfold Right.name. by rewrite Hr.
  - unfold Right.name. destruct (Right.class r); [done|apply IH..].
Qed.

Lemma init_rights_last m new :
  Forall (fun r => Right.class r <> BaseRight) new ->
  exists m', Agreement.init_rights m new = inr m'
    /\ forall name,
         m' !! name
         = match last (filter (fun r => Right.name r = inr name) new) with
           | Some r => Some r
           | None => m !! name
           end.
Proof.
  intros Hall. revert m. induction Hall as [|r new Hr _ IH]; intros m; simpl.
  { by exists m. }
  destruct (Right.name r) as [e|k] eqn:Hk.
  { unfold Right.name in Hk. by destruct (Right.class r). }
  destruct (IH (<[k := r]> m)) as (m' & -> & Hm'). exists m'. split; [done|].
  intros name. rewrite Hm', filter_cons.
  destruct (decide (Right.name r = inr name)) as [Heq|Hne].
  - rewrite last_cons. destruct (last _); [done|].
    assert (k = name) as -> by congruence. by rewrite lookup_insert_eq.
  - destruct (last _); [done|]. rewrite lookup_insert_ne; [done|]. congruence.
Qed.

(** X19: [Agreement(advance, rights)] makes [Decimal(advance)] first and
    raises what that raises, whatever the rights.  Otherwise it raises
    NotImplementedError when one of the rights is of the base class, and
    otherwise it stores, under each name, the last right of that name in
    the list: a later right replaces an earlier one of its class.  The new
    agreement has the advance [Decimal(advance)] returned, a finite number
    or a special value, and no statements. *)
Theorem init_stores_last_right (Advance : Type)
    (Decimal_new : Advance -> exception + constructed) advance rights :
  (forall e, Decimal_new advance = inl e ->
     Agreement.init Advance Decimal_new advance rights = inl e)
  /\ (forall adv, Decimal_new advance = inr adv ->
      Exists (fun r => Right.class r = BaseRight) (default [] rights) ->
      Agreement.init Advance Decimal_new advance rights = inl NotImplementedError)
  /\ (forall adv, Decimal_new advance = inr adv ->
      Forall (fun r => Right.class r <> BaseRight) (default [] rights) ->
      exists stored,
        Agreement.init Advance Decimal_new advance rights
        = inr match adv with
              | Finite d => Agreement.finite_advance (Agreement.mk d stored [])
              | Special v => Agreement.special_advance v stored
              end
        /\ forall name,
             stored !! name
             = last (filter (fun r => Right.name r = inr name) (default [] rights))).
Proof.
  unfold Agreement.init. split_and!.
  - by intros e ->.
  - intros adv -> Hex. destruct rights as [new|]; simpl in *.
    + by rewrite init_rights_base.
    + by apply Exists_nil in Hex.
  - intros adv -> Hall.
    destruct (init_rights_last ∅ (default [] rights) Hall) as (m & Hinit & Hm).
    exists m. split.
    + destruct rights as [new|]; simpl in *; [by rewrite Hinit|].
      by injection Hinit as <-.
    + intros name. rewrite Hm. destruct (last _); [done|apply lookup_empty].
Qed.

Lemma init_stores_last_right_witness :
  Agreement.init string Decimal_of_str "abc" (Some [tvr; er; tvr2])
  = inl InvalidOperation
  /\ Agreement.init Z Decimal_of_Z 1500
       (Some [tvr; Right.mk BaseRight [] (RoyaltyStack_init [])])
     = inl NotImplementedError
  /\ (exists stored,
        Agreement.init Z Decimal_of_Z 1500 (Some [tvr; er; tvr2])
        = inr (Agreement.finite_advance
                 (Agreement.mk (Decimal_of_int 1500) stored []))
        /\ stored !! "trade volume"%string = Some tvr2)
  /\ (exists stored,
        Agreement.init string Decimal_of_str "sNaN" (Some [tvr; er; tvr2])
        = inr (Agreement.special_advance (NaN false true 0) stored)
        /\ stored !! "ebook"%string = Some er).
Proof.
  split_and!.
  - destruct (init_stores_last_right string Decimal_of_str "abc"
                (Some [tvr; er; tvr2])) as (H & _ & _).
    apply H. reflexivity.
  - destruct (init_stores_last_right Z Decimal_of_Z 1500
                (Some [tvr; Right.mk BaseRight [] (RoyaltyStack_init [])]))
      as (_ & H & _).
    apply (H (Finite (Decimal_of_int 1500))); [reflexivity|].
    apply Exists_cons_tl, Exists_cons_hd. reflexivity.
  - destruct (init_stores_last_right Z Decimal_of_Z 1500 (Some [tvr; er; tvr2]))
      as (_ & _ & H).
    destruct (H (Finite (Decimal_of_int 1500))) as (stored & Hinit & Hl);
      [reflexivity| |].
    + repeat (constructor; [discriminate|]). constructor.
    + exists stored. split; [exact Hinit|]. rewrite Hl. reflexivity.
  - destruct (init_stores_last_right string Decimal_of_str "sNaN"
                (Some [tvr; er; tvr2])) as (_ & _ & H).
    destruct (H (Special (NaN false true 0))) as (stored & Hinit & Hl);
      [reflexivity| |].
    + repeat (constructor; [discriminate|]). constructor.
    + exists stored. split; [exact Hinit|]. rewrite Hl. reflexivity.
Defined.

(** * Further properties of [from_string] *)

Lemma str_split_length sep s :
  length (str_split sep s) = S (str_count sep s).
Proof.
  induction s as [|c s IH]; simpl; [done|].
  destruct (decide (c = sep)); simpl; [by rewrite IH|].
  destruct (str_split sep s) as [|piece pieces]; simpl in *; lia.
Qed.

Lemma str_split_free sep s :
  Forall (fun piece => str_count sep piece = 0%nat) (str_split sep s).
Proof.
  induction s as [|c s IH]; simpl; [by repeat constructor|].
  destruct (decide (c = sep)) as [|Hne]; [by constructor|].
  destruct (str_split sep s) as [|piece pieces]; simpl.
  - repeat constructor. simpl. by rewrite decide_False.
  - inversion IH as [|? ? Hp Hps]; subst. constructor; [|done].
    simpl. by rewrite decide_False.
Qed.

Lemma str_split_count c sep s :
  str_count c s = 0%nat ->
  Forall (fun piece => str_count c piece = 0%nat) (str_split sep s).
Proof.
  induction s as [|c' s IH]; simpl; [by repeat constructor|].
  destruct (decide (c' = c)) as [|Hne]; [done|]. simpl. intros Hs.
  specialize (IH Hs).
  destruct (decide (c' = sep)); [by constructor|].
  destruct (str_split sep s) as [|piece pieces]; simpl.
  - repeat constructor. simpl. by rewrite decide_False.
  - inversion IH as [|? ? Hp Hps]; subst. constructor; [|done].
    simpl. by rewrite decide_False.
Qed.

Section from_string_properties.
Variable int : string -> option Z.

Lemma parse_step_raises step e :
  Right.parse_step int step = inl e -> e = ValueError.
Proof.
  unfold Right.parse_step. intros H. repeat case_match; congruence.
Qed.

Lemma parse_step_fields step st :
  Right.parse_step int step = inr st ->
  exists t1 t2, str_split "-" step = [t1; t2]
    /\ int t1 = Some (rate st) /\ int t2 = Some (limit st).
Proof.
  unfold Right.parse_step. intros H.
  destruct (str_split "-" step) as [|t1 [|t2 [|? ?]]]; try done.
  destruct (int t1) as [r|] eqn:H1; [|done].
  destruct (int t2) as [l|] eqn:H2; [|done].
  injection H as <-. exists t1, t2. by split_and!.
Qed.

Lemma parse_step_pieces step :
  str_count "-" step <> 1%nat -> Right.parse_step int step = inl ValueError.
Proof.
  intros Hn. unfold Right.parse_step.
  pose proof (str_split_length "-" step) as Hlen.
  destruct (str_split "-" step) as [|t1 [|t2 [|? ?]]]; try done.
  simpl in Hlen. lia.
Qed.

Lemma parse_steps_raises steps e :
  Right.parse_steps int steps = inl e -> e = ValueError.
Proof.
  induction steps as [|step steps IH]; simpl; [done|].
  destruct (Right.parse_step int step) as [e'|st] eqn:Hst.
  { intros [= <-]. by eapply parse_step_raises. }
  destruct (Right.parse_steps int steps) as [e'|p]; [|done].
  intros [= <-]. by apply IH.
Qed.

Lemma parse_steps_fields steps p :
  Right.parse_steps int steps = inr p ->
  Forall2 (fun step st => Right.parse_step int step = inr st) steps p.
Proof.
  revert p. induction steps as [|step steps IH]; intros p; simpl.
  { intros [= <-]. constructor. }
  destruct (Right.parse_step int step) as [e'|st] eqn:Hst; [done|].
  destruct (Right.parse_steps int steps) as [e'|p']; [done|].
  intros [= <-]. constructor; [done|by apply IH].
Qed.

Lemma parse_steps_pieces steps :
  Exists (fun step => str_count "-" step <> 1%nat) steps ->
  Right.parse_steps int steps = inl ValueError.
Proof.
  induction 1 as [step steps Hn|step steps _ IH]; simpl.
  - by rewrite parse_step_pieces.
  - destruct (Right.parse_step int step) as [e|st] eqn:Hst.
    + by apply parse_step_raises in Hst as ->.
    + by rewrite IH.
Qed.

(** X20: [from_string] raises ValueError or returns a right of the class,
    with a fresh stack, whose progression passed the validation and has
    one step for each piece of the string between commas: never the empty
    progression. *)
Theorem from_string_result cls s :
  Right.from_string int cls s = inl ValueError
  \/ exists p,
       Right.from_string int cls s = inr (Right.mk cls p (RoyaltyStack_init p))
       /\ progression_is_valid p = true
       /\ length p = S (str_count "," s).
Proof.
  unfold Right.from_string, Right.init.
  destruct (Right.parse_steps int (str_split "," s)) as [e|p] eqn:Hp.
  { left. by apply parse_steps_raises in Hp as ->. }
  destruct (progression_is_valid p) eqn:Hvalid; simpl; [|by left].
  right. exists p. split_and!; [done..|].
  apply parse_steps_fields, Forall2_length in Hp.
  by rewrite <- Hp, str_split_length.
Qed.

(** X21: [from_string] raises ValueError whenever a piece of the string
    between commas does not hold exactly one '-': on the empty string, on
    a comma at either end, and on a negative rate or limit, because the
    minus sign is the separator of the two numbers. *)
Theorem from_string_rejects cls s :
  Exists (fun step => str_count "-" step <> 1%nat) (str_split "," s) ->
  Right.from_string int cls s = inl ValueError.
Proof.
  intros Hex. unfold Right.from_string. by rewrite parse_steps_pieces.
Qed.

(** X22: when [from_string] returns, the step in place k of the
    progression holds what [int] read in the two halves of the piece in
    place k of the string, and neither half holds a '-' or a ',': [int]
    never sees a minus sign. *)
Theorem from_string_steps cls s r k st :
  Right.from_string int cls s = inr r ->
  Right.progression r !! k = Some st ->
  exists step t1 t2,
    str_split "," s !! k = Some step
    /\ str_split "-" step = [t1; t2]
    /\ int t1 = Some (rate st) /\ int t2 = Some (limit st)
    /\ str_count "-" t1 = 0%nat /\ str_count "-" t2 = 0%nat
    /\ str_count "," t1 = 0%nat /\ str_count "," t2 = 0%nat.
Proof.
  unfold Right.from_string, Right.init.
  destruct (Right.parse_steps int (str_split "," s)) as [e|p] eqn:Hp; [done|].
  destruct (progression_is_valid p); simpl; [|done].
  intros [= <-] Hk. simpl in Hk.
  apply parse_steps_fields in Hp.
  destruct (Forall2_lookup_r _ _ _ _ _ Hp Hk) as (step & Hstep & Hparse).
  destruct (parse_step_fields _ _ Hparse) as (t1 & t2 & Hsplit & H1 & H2).
  pose proof (str_split_free "-" step) as Hfree. rewrite Hsplit in Hfree.
  inversion Hfree as [|? ? Hf1 Hrest]; subst.
  inversion Hrest as [|? ? Hf2 _]; subst.
  pose proof (str_split_free "," s) as Hcomma.
  rewrite Forall_lookup in Hcomma. specialize (Hcomma k step Hstep).
  pose proof (str_split_count "," "-" step Hcomma) as Hfree2.
  rewrite Hsplit in Hfree2.
  inversion Hfree2 as [|? ? Hc1 Hrest2]; subst.
  inversion Hrest2 as [|? ? Hc2 _]; subst.
  by exists step, t1, t2.
Qed.
End from_string_properties.

(** The two rights of the test suite, as [from_string] reads them. *)
Example from_string_tvr :
  Right.from_string int_of_digits TradeVolumeRight "7-5000,8-10000,9-0" = inr tvr.
Proof. reflexivity. Qed.

Example from_string_er :
  Right.from_string int_of_digits EbookRight "25-1000,40-0" = inr er.
Proof. reflexivity. Qed.

Lemma from_string_rejects_witness :
  Right.from_string int_of_digits TradeVolumeRight "-7-5000,8-0" = inl ValueError.
Proof.
  apply (from_string_rejects int_of_digits TradeVolumeRight "-7-5000,8-0").
  apply Exists_cons_hd. vm_compute. lia.
Defined.

Lemma from_string_steps_witness :
  exists step t1 t2,
    str_split "," "7-5000,8-10000,9-0" !! 1%nat = Some step
    /\ str_split "-" step = [t1; t2]
    /\ int_of_digits t1 = Some 8 /\ int_of_digits t2 = Some 10000
    /\ str_count "-" t1 = 0%nat /\ str_count "-" t2 = 0%nat
    /\ str_count "," t1 = 0%nat /\ str_count "," t2 = 0%nat.
Proof.
  apply (from_string_steps int_of_digits TradeVolumeRight "7-5000,8-10000,9-0"
           tvr 1 (mkStep 8 10000)); reflexivity.
Defined.

(** * Further properties of the printed report *)

Lemma date_le_neq_lt a b : datetime.le a b -> a <> b -> date_lt a b.
Proof.
  unfold datetime.le, date_lt, datetime.ltb. destruct a as [y1 m1 d1], b as [y2 m2 d2].
  simpl. intros Hle Hne.
  assert (y1 <> y2 \/ m1 <> m2 \/ d1 <> d2) as Hdiff.
  { destruct (decide (y1 = y2)) as [->|]; [|by left].
    destruct (decide (m1 = m2)) as [->|]; [|by right; left].
    destruct (decide (d1 = d2)) as [->|]; [done|by right; right]. }
  destruct (Z.ltb_spec y2 y1), (Z.eqb_spec y2 y1), (Z.ltb_spec m2 m1),
    (Z.eqb_spec m2 m1), (Z.ltb_spec d2 d1); simpl in Hle; try done;
  destruct (Z.ltb_spec y1 y2), (Z.eqb_spec y1 y2), (Z.ltb_spec m1 m2),
    (Z.eqb_spec m1 m2), (Z.ltb_spec d1 d2); simpl; try done; lia.
Qed.

Lemma date_lt_le_trans a b c : date_lt a b -> datetime.le b c -> date_lt a c.
Proof.
  unfold datetime.le, date_lt, datetime.ltb. destruct a as [y1 m1 d1], b as [y2 m2 d2],
    c as [y3 m3 d3]. simpl. intros Hab Hbc.
  destruct (Z.ltb_spec y1 y2), (Z.eqb_spec y1 y2), (Z.ltb_spec m1 m2),
    (Z.eqb_spec m1 m2), (Z.ltb_spec d1 d2); simpl in Hab; try done;
  destruct (Z.ltb_spec y3 y2), (Z.eqb_spec y3 y2), (Z.ltb_spec m3 m2),
    (Z.eqb_spec m3 m2), (Z.ltb_spec d3 d2); simpl in Hbc; try done;
  destruct (Z.ltb_spec y1 y3), (Z.eqb_spec y1 y3), (Z.ltb_spec m1 m3),
    (Z.eqb_spec m1 m3), (Z.ltb_spec d1 d3); simpl; try done; lia.
Qed.

Lemma date_lt_le a b : date_lt a b -> datetime.le a b.
Proof.
  unfold datetime.le, date_lt. intros H.
  destruct (datetime.ltb b a) eqn:Hba; [|done].
  by rewrite (date_ltb_asym _ _ H) in Hba.
Qed.

(** The groups of [groupby] are the list cut into pieces that are not
    empty, each of one date. *)
Lemma groupby_spec items :
  concat (snd <$> Agreement.groupby items) = items
  /\ Forall (fun g => g.2 <> []
                      /\ Forall (fun item => ReportItem.date item = g.1) g.2)
       (Agreement.groupby items).
Proof.
  induction items as [|item rest [IH1 IH2]]; simpl; [by split|].
  destruct (Agreement.groupby rest) as [|[k v] groups]; simpl in *.
  - rewrite <- IH1. split; [done|]. by repeat constructor.
  - inversion IH2 as [|? ? [Hv Hk] Hrest]; subst. simpl in *.
    destruct (decide (ReportItem.date item = k)) as [Hd|Hd]; simpl.
    + split; [done|]. constructor; [|done]. simpl. split; [done|by constructor].
    + split; [done|]. constructor; [|by constructor]. simpl.
      split; [done|by repeat constructor].
Qed.

Lemma elem_of_concat {A} (x : A) l ls : x ∈ l -> l ∈ ls -> x ∈ concat ls.
Proof.
  intros Hx Hl. induction ls as [|l' ls IH]; [by apply elem_of_nil in Hl|].
  simpl. apply elem_of_app. apply elem_of_cons in Hl as [->|Hl]; [by left|].
  right. by apply IH.
Qed.

Lemma groupby_keys items :
  Forall (fun g => g.1 ∈ ReportItem.date <$> items) (Agreement.groupby items).
Proof.
  destruct (groupby_spec items) as [Hcat Hall].
  apply Forall_forall. intros [k v] Hg.
  rewrite Forall_forall in Hall. destruct (Hall _ Hg) as [Hv Hk]. simpl in *.
  destruct v as [|item v]; [done|].
  inversion Hk as [|? ? Hd _]; subst.
  apply list_elem_of_fmap. exists item. split; [done|].
  rewrite <- Hcat. apply (elem_of_concat _ (item :: v)); [by left|].
  apply list_elem_of_fmap. by exists (ReportItem.date item, item :: v).
Qed.

(** Over items in the order of their dates, no date has two groups. *)
Lemma groupby_sorted items :
  StronglySorted datetime.le (ReportItem.date <$> items) ->
  StronglySorted date_lt (fst <$> Agreement.groupby items).
Proof.
  induction items as [|item rest IH]; [constructor|].
  rewrite fmap_cons. intros [Hhead Htail]%StronglySorted_cons.
  specialize (IH Htail). pose proof (groupby_keys rest) as Hkeys.
  cbn [Agreement.groupby].
  destruct (Agreement.groupby rest) as [|[k v] groups].
  { by repeat constructor. }
  rewrite fmap_cons in IH. cbn [fst] in IH.
  destruct (decide (ReportItem.date item = k)) as [Hd|Hd];
    rewrite !fmap_cons; cbn [fst]; [done|].
  apply StronglySorted_cons in IH as [IHhead IHtail].
  inversion Hkeys as [|? ? Hk Hks]; subst. cbn [fst] in Hk.
  rewrite Forall_forall in Hhead.
  assert (date_lt (ReportItem.date item) k) as Hlt
    by (apply date_le_neq_lt; [by apply Hhead|done]).
  apply StronglySorted_cons. split; [|by apply StronglySorted_cons].
  constructor; [done|].
  eapply Forall_impl; [exact IHhead|]. intros k' Hk'.
  eapply date_lt_le_trans; [exact Hlt|by apply date_lt_le].
Qed.

(** The lines of a report come in the order of their dates. *)
Lemma apply_statements_dates a :
  StronglySorted datetime.le
    (ReportItem.date <$> Agreement.items (Agreement.apply_statements a)).
Proof.
  unfold Agreement.apply_statements.
  set (a0 := Agreement._reset_rights (Agreement._sort_statements a)).
  destruct (Agreement.raw_items (Agreement.rights a0) (Agreement.statements a0))
    as [e|gens] eqn:Hraw; [constructor|].
  pose proof (chain_spec (Agreement.rights a0) (Agreement.advance a0) gens) as H.
  destruct (Agreement.chain _ _ gens) as [[out rights'] c].
  destruct H as (_ & _ & _ & Hdates). simpl. apply Hdates.
  rewrite (raw_items_statements _ _ _ Hraw). simpl.
  apply Sorted_StronglySorted; [apply _|]. apply sort_by_date_sorted.
Qed.

Lemma removelast_snoc {A} (l : list A) x : removelast (l ++ [x]) = l.
Proof.
  induction l as [|y l IH]; simpl; [done|].
  destruct (l ++ [x]) eqn:Hl; [by destruct l|]. by rewrite IH.
Qed.

(** X23: [print_report] ends as [apply_statements] does and leaves the
    agreement as it does.  When the run returns, the report is written as
    blocks, a date and then the lines of that date, one block for each
    date that has lines and in the order of the dates: no date is written
    twice, no block is empty, and the lines written are the lines of the
    run, in their order. *)
Theorem print_report_blocks a :
  let rep := Agreement.apply_statements a in
  let out := Agreement.print_report a in
  Agreement.finished out = Agreement.ended rep
  /\ Agreement.agreement out = Agreement.after rep
  /\ (Agreement.ended rep = Returned ->
      exists groups,
        Agreement.written out
        = flat_map (fun g => [Agreement.print g.1; Agreement.pprint g.2]) groups
        /\ concat (snd <$> groups) = Agreement.items rep
        /\ Forall (fun g => g.2 <> []
                    /\ Forall (fun item => ReportItem.date item = g.1) g.2) groups
        /\ StronglySorted date_lt (fst <$> groups)).
Proof.
  intros rep out. unfold out, Agreement.print_report. fold rep.
  destruct (groupby_spec (Agreement.items rep)) as [Hcat Hall].
  pose proof (groupby_sorted _ (apply_statements_dates a)) as Hsorted.
  fold rep in Hsorted.
  destruct (Agreement.ended rep) eqn:Hend; simpl; split_and!; try done.
  intros _. by exists (Agreement.groupby (Agreement.items rep)).
Qed.

(** X24: when [apply_statements] raises, [print_report] raises too, and
    the lines of the last date the run reached are lost: their date is
    the last thing written, and the lines themselves, which the run had
    yielded, are not written.  The blocks of the earlier dates are written
    in full. *)
Theorem print_report_raised a e :
  let rep := Agreement.apply_statements a in
  let out := Agreement.print_report a in
  Agreement.ended rep = Raised e ->
  Agreement.finished out = Raised e
  /\ (Agreement.items rep = [] -> Agreement.written out = [])
  /\ (Agreement.items rep <> [] ->
      exists groups k v,
        Agreement.written out
        = flat_map (fun g => [Agreement.print g.1; Agreement.pprint g.2]) groups
          ++ [Agreement.print k]
        /\ concat (snd <$> groups) ++ v = Agreement.items rep
        /\ v <> []
        /\ Forall (fun item => ReportItem.date item = k) v
        /\ StronglySorted date_lt ((fst <$> groups) ++ [k])).
Proof.
  intros rep out Hend. unfold out, Agreement.print_report. fold rep.
  rewrite Hend. simpl. split; [done|]. split.
  { intros ->. done. }
  intros Hne.
  destruct (groupby_spec (Agreement.items rep)) as [Hcat Hall].
  pose proof (groupby_sorted _ (apply_statements_dates a)) as Hsorted.
  fold rep in Hsorted.
  set (gs := Agreement.groupby (Agreement.items rep)) in *.
  assert (gs <> []) as Hgs.
  { intros Hnil. rewrite Hnil in Hcat. simpl in Hcat. by rewrite <- Hcat in Hne. }
  destruct (exists_last Hgs) as (l & [k v] & Heq). rewrite Heq in *.
  exists l, k, v.
  rewrite fmap_app, concat_app in Hcat. simpl in Hcat. rewrite app_nil_r in Hcat.
  apply Forall_app in Hall as [_ Hlast].
  inversion Hlast as [|? ? [Hv Hk] _]; subst. simpl in *.
  rewrite fmap_app in Hsorted. simpl in Hsorted.
  split_and!; try done.
  rewrite flat_map_app. simpl.
  replace (flat_map (fun g => [Agreement.print g.1; Agreement.pprint g.2]) l
           ++ [Agreement.print k; Agreement.pprint v])
    with ((flat_map (fun g => [Agreement.print g.1; Agreement.pprint g.2]) l
           ++ [Agreement.print k]) ++ [Agreement.pprint v])
    by (by rewrite <- app_assoc).
  apply removelast_snoc.
Qed.

Lemma print_report_raised_witness :
  let rep := Agreement.apply_statements single_step_agreement in
  let out := Agreement.print_report single_step_agreement in
  Agreement.ended rep = Raised IndexError
  /\ length (Agreement.items rep) = 1%nat
  /\ Agreement.finished out = Raised IndexError
  /\ Agreement.written out = [Agreement.print (datetime.mkdate 2016 6 30)].
Proof.
  destruct (print_report_raised single_step_agreement IndexError) as (H1 & _ & _);
    [vm_compute; reflexivity|].
  split_and!; [vm_compute; reflexivity|vm_compute; reflexivity|exact H1|].
  vm_compute. reflexivity.
Defined.

(** * The stacks a report leaves behind *)

Lemma get_iterator_position bound c :
  progression_is_valid (Right.progression bound) = true ->
  stack_inv (Right.progression bound) (Right._royalty_stack bound) ->
  outcome (Right._get_iterator bound c) = Returned ->
  position (final (Right._get_iterator bound c))
  = position (Right._royalty_stack bound) + c.
Proof.
  intros Hvalid Hinv. unfold Right._get_iterator, push, pop.
  destruct (Z.ltb_spec c 0) as [Hc|Hc].
  - destruct (pop_loop_spec _ Hvalid
                (S (length (_rates (Right._royalty_stack bound))))
                (Right._royalty_stack bound) (c * -1) Hinv ltac:(lia))
      as (_ & _ & [(_ & _ & Hpos)|[Hout _]]).
    + rewrite (inv_rates _ _ Hinv), length_fmap.
      pose proof (inv_index _ _ Hinv). lia.
    + intros _. lia.
    + rewrite Hout. done.
  - destruct (decide (c = 0)) as [->|Hne].
    { rewrite push_loop_nonpos by lia. simpl. lia. }
    destruct (push_loop_spec _ Hvalid
                (S (length (_rates (Right._royalty_stack bound))))
                (Right._royalty_stack bound) c Hinv ltac:(lia))
      as (_ & _ & [(_ & _ & Hpos)|[Hout _]]).
    + rewrite (inv_rates _ _ Hinv), length_fmap. lia.
    + done.
    + rewrite Hout. done.
Qed.

Lemma apply_statement_position bound s name :
  Right.name bound = inr name ->
  progression_is_valid (Right.progression bound) = true ->
  stack_inv (Right.progression bound) (Right._royalty_stack bound) ->
  outcome (Right.apply_statement bound s) = Returned ->
  position (final (Right.apply_statement bound s))
  = position (Right._royalty_stack bound) + Statement.copies s.
Proof.
  intros Hname Hvalid Hinv Hout.
  destruct (get_iterator_run bound (Statement.copies s) Hvalid Hinv)
    as (Hlen & _ & _ & _).
  destruct (report_loop_run bound s _ _
              (final (Right._get_iterator bound (Statement.copies s)))
              (outcome (Right._get_iterator bound (Statement.copies s)))
              name Hname Hlen) as (_ & _ & H3 & _).
  fold (Right.apply_statement bound s) in H3.
  destruct (H3 Hout) as (Hinner & -> & _).
  by apply get_iterator_position.
Qed.

(** Where a chain of generators that returned leaves the stacks. *)
Lemma chain_totals rights adv gens :
  live rights ->
  Forall (fun g => is_Some (rights !! g.1)) gens ->
  let '(out, rights', c) := Agreement.chain rights adv gens in
  c = Returned ->
  live rights'
  /\ forall k r', rights' !! k = Some r' ->
       exists r, rights !! k = Some r
         /\ position (Right._royalty_stack r')
            = position (Right._royalty_stack r)
              + Zsum (Statement.copies <$> (snd <$> filter (fun g => g.1 = k) gens)).
Proof.
  revert rights adv.
  induction gens as [|[name s] gens IH]; intros rights adv Hlive Hres.
  { simpl. intros _. split; [done|]. intros k r' Hk. exists r'.
    split; [done|]. simpl. lia. }
  cbn [Agreement.chain].
  inversion Hres as [|? ? [bound Hb] Hres']; subst. simpl in Hb. rewrite Hb.
  destruct (Hlive _ _ Hb) as (Hname & Hvalid & Hinv).
  destruct (apply_statement_run bound s name Hname Hvalid Hinv)
    as (Hlen & _ & Hret & _).
  pose proof (apply_statement_position bound s name Hname Hvalid Hinv) as Hpos.
  set (r := Right.apply_statement bound s) in *.
  destruct (Agreement.settle adv (yielded r) (suspended r))
    as [[out adv'] stopped].
  destruct stopped as [[e stack]|]; [done|].
  destruct (outcome r) as [|e|] eqn:Hout_r; [|done..].
  destruct (Hret eq_refl) as [Hfin _]. specialize (Hpos eq_refl).
  set (rights1 := <[name := Right.with_stack bound (final r)]> rights).
  assert (live rights1) as Hlive1.
  { intros k r' Hk. unfold rights1 in Hk.
    destruct (decide (k = name)) as [->|Hne].
    - rewrite lookup_insert_eq in Hk. injection Hk as <-. by simpl.
    - rewrite lookup_insert_ne in Hk by done. by apply Hlive. }
  assert (Forall (fun g => is_Some (rights1 !! g.1)) gens) as Hres1.
  { eapply Forall_impl; [exact Hres'|]. intros g Hg. unfold rights1.
    destruct (decide (g.1 = name)) as [->|Hne];
      [rewrite lookup_insert_eq; by eexists|by rewrite lookup_insert_ne]. }
  specialize (IH rights1 adv' Hlive1 Hres1).
  destruct (Agreement.chain rights1 adv' gens) as [[out' rights'] c].
  intros Hc. destruct (IH Hc) as [Hlive' Htot]. split; [done|].
  intros k r' Hk. destruct (Htot k r' Hk) as (r1 & Hr1 & Hp1).
  rewrite filter_cons. cbn [fst]. unfold rights1 in Hr1.
  destruct (decide (name = k)) as [->|Hne].
  - rewrite lookup_insert_eq in Hr1. injection Hr1 as <-.
    exists bound. split; [done|]. rewrite Hp1.
    rewrite !fmap_cons, Zsum_cons. cbn [snd Right.with_stack Right._royalty_stack].
    lia.
  - rewrite lookup_insert_ne in Hr1 by done. by exists r1.
Qed.

Lemma position_reset s : position (reset s) = 0.
Proof.
  unfold position, reset. simpl.
  destruct (_progression s !! 0%nat) as [st|] eqn:Hst; simpl; [|done].
  rewrite init_cursor_lookup, decide_True; [done|].
  apply list_elem_of_fmap. exists st. split; [done|].
  by eapply list_elem_of_lookup_2.
Qed.

Lemma filter_names k (gens : list (string * Statement.t)) :
  Forall (fun g => Statement.name g.2 = inr g.1) gens ->
  snd <$> filter (fun g => g.1 = k) gens
  = filter (fun s => Statement.name s = inr k) (snd <$> gens).
Proof.
  induction 1 as [|[name s] gens Hn _ IH]; [done|]. simpl in Hn.
  rewrite fmap_cons, !filter_cons. simpl.
  destruct (decide (name = k)) as [->|Hne].
  - rewrite decide_True by done. by rewrite fmap_cons, IH.
  - rewrite decide_False by congruence. done.
Qed.

(** X26: when the report of an agreement built through the class runs to
    its end, the stack of every right holds the net number of copies of
    the statements of its name: the run starts every right from nothing
    and leaves it at the total reported for it. *)
Theorem report_leaves_totals a k r :
  built a ->
  Agreement.ended (Agreement.apply_statements a) = Returned ->
  Agreement.rights (Agreement.after (Agreement.apply_statements a)) !! k = Some r ->
  attributed (Right._royalty_stack r)
  = Zsum (Statement.copies
            <$> filter (fun s => Statement.name s = inr k) (Agreement.statements a)).
Proof.
  intros Ha. pose proof (built_inv a Ha) as Hinv.
  unfold Agreement.apply_statements.
  set (a0 := Agreement._reset_rights (Agreement._sort_statements a)).
  assert (Agreement.statements a0 ≡ₚ Agreement.statements a) as Hperm
    by apply sort_by_date_perm.
  destruct (Agreement.raw_items (Agreement.rights a0) (Agreement.statements a0))
    as [e|gens] eqn:Hraw; [done|].
  pose proof (raw_items_names _ _ _ Hraw) as Hnames.
  pose proof (raw_items_statements _ _ _ Hraw) as Hsnd.
  pose proof (chain_totals (Agreement.rights a0) (Agreement.advance a0) gens
                (reset_rights_live _ Hinv)) as H.
  destruct (Agreement.chain _ _ gens) as [[out rights'] c]. simpl.
  intros Hc Hk. destruct H as [Hlive Htot]; [|done|].
  { eapply Forall_impl; [exact Hnames|]. by intros g [_ ?]. }
  destruct (Htot k r Hk) as (r0 & Hr0 & Hpos).
  destruct (Hlive k r Hk) as (_ & _ & Hstack).
  rewrite (attributed_position _ _ Hstack), Hpos.
  simpl in Hr0. rewrite lookup_fmap in Hr0.
  destruct (Agreement.rights a !! k) as [r1|]; [|done].
  simpl in Hr0. injection Hr0 as <-. simpl. rewrite position_reset.
  rewrite filter_names, Hsnd by (eapply Forall_impl; [exact Hnames|]; by intros g [? _]).
  rewrite Z.add_0_l. apply Zsum_perm, fmap_Permutation. by rewrite Hperm.
Qed.

Lemma report_leaves_totals_witness :
  exists r,
    Agreement.rights (Agreement.after (Agreement.apply_statements test_agreement))
      !! "trade volume"%string = Some r
    /\ attributed (Right._royalty_stack r) = 143 + 512 + -45.
Proof.
  eexists. split; [vm_compute; reflexivity|].
  rewrite (report_leaves_totals test_agreement "trade volume"%string);
    [reflexivity|apply built_test_agreement|vm_compute; reflexivity..].
Defined.
